(** * Aiyma Chess Zero: the two search engines, embedded and verified

    Two Python programs are embedded here.

    - [ChessEngine] is the standalone engine of
      [src/Engine/Aiyma Chess Zero.py.py]: an 8x8 list-of-lists board of
      one-character strings, a pawn-push-only move generator, in-place
      [make_move]/[undo_move] and a fail-soft alpha-beta search.
    - [AiymaChessZero] is the engine of [Aiyma Chess Zero_1.1.py]: a
      material-plus-piece-square evaluator, an alpha-beta search that
      memoises its results in a table keyed by [(fen, depth)], and a root
      dispatcher that hands every root move to a thread pool.  It runs on
      top of the [python-chess] library, which is taken as an interface.

    Scores are Python numbers: unbounded integers together with the two
    floats [-math.inf] and [math.inf].  Exceptions ([IndexError]) are
    modelled by [None]; mutable objects by explicit state passing. *)

From Stdlib Require Import ZArith List Bool Lia Ascii Permutation.
From Stdlib Require String DecimalString.
Import ListNotations.
Local Open Scope Z_scope.

(* ================================================================== *)
(** * Scores: integers extended with the two infinities                *)
(* ================================================================== *)

Module Score.

Inductive score : Type :=
| NegInf : score              (* -math.inf *)
| Fin : Z -> score            (* a Python int *)
| PosInf : score.             (* math.inf *)

(** [a < b] on Python numbers. *)
Definition ltb (a b : score) : bool :=
  match a, b with
  | NegInf, NegInf => false
  | NegInf, _ => true
  | Fin _, NegInf => false
  | Fin x, Fin y => x <? y
  | Fin _, PosInf => true
  | PosInf, _ => false
  end.

(** [a <= b] on Python numbers. *)
Definition leb (a b : score) : bool :=
  match a, b with
  | NegInf, _ => true
  | Fin _, NegInf => false
  | Fin x, Fin y => x <=? y
  | Fin _, PosInf => true
  | PosInf, PosInf => true
  | PosInf, _ => false
  end.

(** [a > b] is [b < a]. *)
Definition gtb (a b : score) : bool := ltb b a.

(** Python's [max(a, b)]: the first argument unless the second is
    strictly greater. *)
Definition max (a b : score) : score := if gtb b a then b else a.

(** Python's [min(a, b)]: the first argument unless the second is
    strictly smaller. *)
Definition min (a b : score) : score := if ltb b a then b else a.

Definition lt (a b : score) : Prop := ltb a b = true.
Definition le (a b : score) : Prop := leb a b = true.

Definition eqb (a b : score) : bool :=
  match a, b with
  | NegInf, NegInf => true
  | Fin x, Fin y => x =? y
  | PosInf, PosInf => true
  | _, _ => false
  end.

End Score.

Import Score.

Declare Scope score_scope.
Delimit Scope score_scope with score.
Infix "<" := Score.lt : score_scope.
Infix "<=" := Score.le : score_scope.

(** Case analysis on every score in sight, then linear arithmetic. *)
Ltac score_cases :=
  repeat match goal with
         | s : score |- _ => destruct s
         end.

Ltac score_simpl :=
  unfold Score.lt, Score.le, Score.max, Score.min, Score.gtb in *;
  cbn [Score.ltb Score.leb Score.eqb] in *.

Ltac score_arith :=
  repeat (match goal with
          | H : context [Z.ltb ?x ?y] |- _ => destruct (Z.ltb_spec x y)
          | |- context [Z.ltb ?x ?y] => destruct (Z.ltb_spec x y)
          | H : context [Z.leb ?x ?y] |- _ => destruct (Z.leb_spec x y)
          | |- context [Z.leb ?x ?y] => destruct (Z.leb_spec x y)
          | H : context [Z.eqb ?x ?y] |- _ => destruct (Z.eqb_spec x y)
          | |- context [Z.eqb ?x ?y] => destruct (Z.eqb_spec x y)
          end; score_simpl);
  try congruence; try discriminate; try lia;
  try (f_equal; lia).

Ltac score_solve :=
  intros; score_cases; score_simpl; score_arith.

(** ** What a fail-soft search result says about the exact value

    A search run with the window [(alpha, beta)] that returns [r] at a
    node whose minimax value is [v]: an upper bound at or below [alpha],
    the value itself strictly inside the window, a lower bound at or
    above [beta]. *)
Definition fail_soft (alpha beta r v : score) : Prop :=
  ((r <= alpha)%score -> (v <= r)%score)
  /\ ((alpha < r)%score -> (r < beta)%score -> v = r)
  /\ ((beta <= r)%score -> (r <= v)%score).

(** The state of a maximizing loop entered with [alpha0]: [a] is the
    current [alpha], [m] the running [max_eval], [M] the running maximum
    of the exact values of the moves seen so far. *)
Definition max_inv (alpha0 beta a m M : score) : Prop :=
  a = Score.max alpha0 m
  /\ (a < beta)%score
  /\ ((alpha0 < m)%score -> M = m)
  /\ ((m <= alpha0)%score -> (M <= m)%score).

(** The state of a minimizing loop entered with [beta0]. *)
Definition min_inv (alpha beta0 b m M : score) : Prop :=
  b = Score.min beta0 m
  /\ (alpha < b)%score
  /\ ((m < beta0)%score -> M = m)
  /\ ((beta0 <= m)%score -> (m <= M)%score).

(* ================================================================== *)
(** * Python list indexing                                             *)
(* ================================================================== *)

Module Py.

Section Indexing.
Context {A : Type}.

(** The position a Python index denotes in a list of length [n]:
    [0 <= i < n] is itself, [-n <= i < 0] counts from the end,
    anything else raises [IndexError]. *)
Definition norm_index (n : nat) (i : Z) : option nat :=
  if (0 <=? i) && (i <? Z.of_nat n) then Some (Z.to_nat i)
  else if (- Z.of_nat n <=? i) && (i <? 0) then Some (Z.to_nat (Z.of_nat n + i))
  else None.

(** [l[i]] *)
Definition getitem (l : list A) (i : Z) : option A :=
  match norm_index (length l) i with
  | Some k => nth_error l k
  | None => None
  end.

(** Replace position [k] (in range) by [v]. *)
Fixpoint update (l : list A) (k : nat) (v : A) : list A :=
  match l, k with
  | [], _ => []
  | _ :: t, O => v :: t
  | h :: t, S k' => h :: update t k' v
  end.

(** [l[i] = v] *)
Definition setitem (l : list A) (i : Z) (v : A) : option (list A) :=
  match norm_index (length l) i with
  | Some k => Some (update l k v)
  | None => None
  end.
End Indexing.

(** ** Lists of lists, by position

    The square at row position [i] and column position [j], its
    replacement, and the positions a pair of Python indices denotes. *)

Section Grid.
Context {A : Type}.
Implicit Types (g : list (list A)) (i j : nat) (v : A).

Definition get2 g i j : option A :=
  match nth_error g i with
  | Some row => nth_error row j
  | None => None
  end.

Definition upd2 g i j v : list (list A) :=
  match nth_error g i with
  | Some row => update g i (update row j v)
  | None => g
  end.

(** Where the Python indices [(r, c)] point in the grid. *)
Definition locate g (r c : Z) : option (nat * nat) :=
  match norm_index (length g) r with
  | Some i =>
      match nth_error g i with
      | Some row =>
          match norm_index (length row) c with
          | Some j => Some (i, j)
          | None => None
          end
      | None => None
      end
  | None => None
  end.

End Grid.

End Py.

(* ================================================================== *)
(** * The standalone engine ([class ChessEngine])                      *)
(* ================================================================== *)

Module ChessEngine.

(** A square of the board holds a one-character string. *)
Definition piece := ascii.

(** [self.board]: a list of rows, each a list of squares.  The rows
    built by [__init__] are distinct list objects, so a board is the
    value of its rows. *)
Definition board_t := list (list piece).

(** A position is a pair of Python ints, a move a pair of positions. *)
Definition pos := (Z * Z)%type.
Definition move := (pos * pos)%type.

(** The two attributes of a [ChessEngine] object. *)
Record engine : Type := mkEngine {
  board : board_t;
  white_to_move : bool
}.

Definition empty_sq : piece := "."%char.

(** [PIECE_VALUES.get(piece, 0)] *)
Definition PIECE_VALUES_get (p : piece) : Z :=
  match p with
  | "P" => 100 | "N" => 320 | "B" => 330
  | "R" => 500 | "Q" => 900 | "K" => 20000
  | "p" => -100 | "n" => -320 | "b" => -330
  | "r" => -500 | "q" => -900 | "k" => -20000
  | _ => 0
  end%char.

(** [ChessEngine.__init__] *)
Definition init : engine :=
  {| board :=
       [ ["r"; "n"; "b"; "q"; "k"; "b"; "n"; "r"];
         ["p"; "p"; "p"; "p"; "p"; "p"; "p"; "p"];
         ["."; "."; "."; "."; "."; "."; "."; "."];
         ["."; "."; "."; "."; "."; "."; "."; "."];
         ["."; "."; "."; "."; "."; "."; "."; "."];
         ["."; "."; "."; "."; "."; "."; "."; "."];
         ["P"; "P"; "P"; "P"; "P"; "P"; "P"; "P"];
         ["R"; "N"; "B"; "Q"; "K"; "B"; "N"; "R"] ]%char;
     white_to_move := true |}.

(** [evaluate]: the sum of the piece values over the whole board. *)
Definition evaluate (e : engine) : Z :=
  fold_left
    (fun score row =>
       fold_left (fun score p => score + PIECE_VALUES_get p) row score)
    (board e) 0.

(** [str.isupper] on a one-character ASCII string. *)
Definition isupper (p : piece) : bool :=
  let n := nat_of_ascii p in (65 <=? n)%nat && (n <=? 90)%nat.

(** [piece.upper() == 'P'] *)
Definition is_pawn (p : piece) : bool :=
  Ascii.eqb p "P" || Ascii.eqb p "p".

(** [self.board[r][c]], raising [IndexError] as [None]. *)
Definition cell (b : board_t) (r c : Z) : option piece :=
  match Py.getitem b r with
  | Some row => Py.getitem row c
  | None => None
  end.

(** [self.board[r][c] = v]: the row object [self.board[r]] is looked
    up, then updated in place. *)
Definition set_cell (b : board_t) (r c : Z) (v : piece) : option board_t :=
  match Py.getitem b r with
  | Some row =>
      match Py.setitem row c v with
      | Some row' => Py.setitem b r row'
      | None => None
      end
  | None => None
  end.

(** [generate_piece_moves]: pawn pushes only. *)
Definition generate_piece_moves (e : engine) (p : pos) (pc : piece)
  : option (list move) :=
  let '(r, c) := p in
  if is_pawn pc then
    let step := if isupper pc then -1 else 1 in
    let start_row := if isupper pc then 6 else 1 in
    match cell (board e) (r + step) c with
    | None => None
    | Some x =>
        if Ascii.eqb x empty_sq then
          let moves := [((r, c), (r + step, c))] in
          if r =? start_row then
            match cell (board e) (r + 2 * step) c with
            | None => None
            | Some y =>
                if Ascii.eqb y empty_sq
                then Some (moves ++ [((r, c), (r + 2 * step, c))])
                else Some moves
            end
          else Some moves
        else Some []
    end
  else Some [].

(** The inner loop of [generate_legal_moves], over the squares of row
    [r] from column [c] on. *)
Fixpoint row_moves (e : engine) (r : Z) (c : Z) (row : list piece)
  : option (list move) :=
  match row with
  | [] => Some []
  | pc :: rest =>
      if Bool.eqb (isupper pc) (white_to_move e)
         && negb (Ascii.eqb pc empty_sq)
      then
        match generate_piece_moves e (r, c) pc with
        | None => None
        | Some ms =>
            match row_moves e r (c + 1) rest with
            | None => None
            | Some ms' => Some (ms ++ ms')
            end
        end
      else row_moves e r (c + 1) rest
  end.

(** The outer loop, over the rows from row [r] on. *)
Fixpoint rows_moves (e : engine) (r : Z) (rows : list (list piece))
  : option (list move) :=
  match rows with
  | [] => Some []
  | row :: rest =>
      match row_moves e r 0 row with
      | None => None
      | Some ms =>
          match rows_moves e (r + 1) rest with
          | None => None
          | Some ms' => Some (ms ++ ms')
          end
      end
  end.

(** [generate_legal_moves] *)
Definition generate_legal_moves (e : engine) : option (list move) :=
  rows_moves e 0 (board e).

(** ** Mutating methods: a state monad with failure *)

Definition M (A : Type) : Type := engine -> option (A * engine).

Definition ret {A} (a : A) : M A := fun e => Some (a, e).

Definition bind {A B} (m : M A) (k : A -> M B) : M B :=
  fun e => match m e with
           | Some (a, e') => k a e'
           | None => None
           end.

(** Lift a read that may raise. *)
Definition read {A} (f : engine -> option A) : M A :=
  fun e => match f e with
           | Some a => Some (a, e)
           | None => None
           end.

Notation "x <- m ;; k" := (bind m (fun x => k))
  (at level 61, m at next level, right associativity).
Notation "m ;;; k" := (bind m (fun _ => k))
  (at level 61, right associativity).

(** [self.board[r][c] = v] as a statement. *)
Definition assign (r c : Z) (v : piece) : M unit :=
  fun e => match set_cell (board e) r c v with
           | Some b' => Some (tt, {| board := b'; white_to_move := white_to_move e |})
           | None => None
           end.

(** [self.white_to_move = not self.white_to_move] *)
Definition flip_turn : M unit :=
  fun e => Some (tt, {| board := board e; white_to_move := negb (white_to_move e) |}).

(** [make_move] *)
Definition make_move (mv : move) : M unit :=
  let '(from_pos, to_pos) := mv in
  x <- read (fun e => cell (board e) (fst from_pos) (snd from_pos)) ;;
  assign (fst to_pos) (snd to_pos) x ;;;
  assign (fst from_pos) (snd from_pos) empty_sq ;;;
  flip_turn.

(** [undo_move] *)
Definition undo_move (mv : move) (captured_piece : piece) : M unit :=
  let '(from_pos, to_pos) := mv in
  x <- read (fun e => cell (board e) (fst to_pos) (snd to_pos)) ;;
  assign (fst from_pos) (snd from_pos) x ;;;
  assign (fst to_pos) (snd to_pos) captured_piece ;;;
  flip_turn.

(** The result of [alpha_beta]: the tuple [(eval, best_move)]. *)
Definition result := (score * option move)%type.

(** The [for move in legal_moves] loop of the maximizing branch;
    [rec] is the recursive call at [depth - 1]. *)
Fixpoint max_loop (rec : score -> score -> bool -> M result)
         (legal_moves : list move) (alpha beta : score)
         (max_eval : score) (best_move : option move) : M result :=
  match legal_moves with
  | [] => ret (max_eval, best_move)
  | mv :: rest =>
      captured_piece <- read (fun e => cell (board e) (fst (snd mv)) (snd (snd mv))) ;;
      make_move mv ;;;
      r <- rec alpha beta false ;;
      undo_move mv captured_piece ;;;
      let eval := fst r in
      let max_eval' := if gtb eval max_eval then eval else max_eval in
      let best_move' := if gtb eval max_eval then Some mv else best_move in
      let alpha' := Score.max alpha eval in
      if leb beta alpha' then ret (max_eval', best_move')
      else max_loop rec rest alpha' beta max_eval' best_move'
  end.

(** The loop of the minimizing branch. *)
Fixpoint min_loop (rec : score -> score -> bool -> M result)
         (legal_moves : list move) (alpha beta : score)
         (min_eval : score) (best_move : option move) : M result :=
  match legal_moves with
  | [] => ret (min_eval, best_move)
  | mv :: rest =>
      captured_piece <- read (fun e => cell (board e) (fst (snd mv)) (snd (snd mv))) ;;
      make_move mv ;;;
      r <- rec alpha beta true ;;
      undo_move mv captured_piece ;;;
      let eval := fst r in
      let min_eval' := if ltb eval min_eval then eval else min_eval in
      let best_move' := if ltb eval min_eval then Some mv else best_move in
      let beta' := Score.min beta eval in
      if leb beta' alpha then ret (min_eval', best_move')
      else min_loop rec rest alpha beta' min_eval' best_move'
  end.

(** [alpha_beta(depth, alpha, beta, maximizing_player)], for a
    non-negative [depth]. *)
Fixpoint alpha_beta (depth : nat) (alpha beta : score)
         (maximizing_player : bool) : M result :=
  match depth with
  | O => fun e => Some ((Fin (evaluate e), None), e)
  | S d =>
      legal_moves <- read generate_legal_moves ;;
      match legal_moves with
      | [] => ret (if maximizing_player then NegInf else PosInf, None)
      | _ :: _ =>
          if maximizing_player
          then max_loop (alpha_beta d) legal_moves alpha beta NegInf None
          else min_loop (alpha_beta d) legal_moves alpha beta PosInf None
      end
  end.

(** [get_best_move(depth)] *)
Definition get_best_move (depth : nat) : M (option move) :=
  r <- alpha_beta depth NegInf PosInf true ;;
  ret (snd r).

(** The four statements every loop body starts with: remember the
    captured piece, make the move, search, undo the move. *)
Definition visit (search : M result) (mv : move) : M result :=
  captured_piece <- read (fun e => cell (board e) (fst (snd mv)) (snd (snd mv))) ;;
  make_move mv ;;;
  r <- search ;;
  undo_move mv captured_piece ;;;
  ret r.

(** A computation that, when it returns, hands the engine back as it
    received it. *)
Definition restores {A} (m : M A) : Prop :=
  forall e res e', m e = Some (res, e') -> e' = e.

(** ** The search with pruning disabled

    The reference of the pruning-correctness property: the same loops
    with the [if beta <= alpha: break] test removed.  Without the test
    the bounds are never read, so they are not threaded. *)

Fixpoint full_max_loop (rec : bool -> M result) (legal_moves : list move)
         (max_eval : score) (best_move : option move) : M result :=
  match legal_moves with
  | [] => ret (max_eval, best_move)
  | mv :: rest =>
      captured_piece <- read (fun e => cell (board e) (fst (snd mv)) (snd (snd mv))) ;;
      make_move mv ;;;
      r <- rec false ;;
      undo_move mv captured_piece ;;;
      let eval := fst r in
      let max_eval' := if gtb eval max_eval then eval else max_eval in
      let best_move' := if gtb eval max_eval then Some mv else best_move in
      full_max_loop rec rest max_eval' best_move'
  end.

Fixpoint full_min_loop (rec : bool -> M result) (legal_moves : list move)
         (min_eval : score) (best_move : option move) : M result :=
  match legal_moves with
  | [] => ret (min_eval, best_move)
  | mv :: rest =>
      captured_piece <- read (fun e => cell (board e) (fst (snd mv)) (snd (snd mv))) ;;
      make_move mv ;;;
      r <- rec true ;;
      undo_move mv captured_piece ;;;
      let eval := fst r in
      let min_eval' := if ltb eval min_eval then eval else min_eval in
      let best_move' := if ltb eval min_eval then Some mv else best_move in
      full_min_loop rec rest min_eval' best_move'
  end.

Fixpoint full_width (depth : nat) (maximizing_player : bool) : M result :=
  match depth with
  | O => fun e => Some ((Fin (evaluate e), None), e)
  | S d =>
      legal_moves <- read generate_legal_moves ;;
      match legal_moves with
      | [] => ret (if maximizing_player then NegInf else PosInf, None)
      | _ :: _ =>
          if maximizing_player
          then full_max_loop (full_width d) legal_moves NegInf None
          else full_min_loop (full_width d) legal_moves PosInf None
      end
  end.

(** The pruned search at the children, as far as the loops need it:
    wherever the full-width search returns, the pruned one returns a
    fail-soft result for the same window. *)
Definition refines (rec_ab : score -> score -> bool -> M result)
           (rec_full : bool -> M result) : Prop :=
  forall alpha beta mx e v bm,
    (alpha < beta)%score ->
    rec_full mx e = Some ((v, bm), e) ->
    exists r bm', rec_ab alpha beta mx e = Some ((r, bm'), e)
                  /\ fail_soft alpha beta r v.

(** ** What the move generator produces *)

(** [mv] takes a pawn of the side to move one step forward, or two from
    its start row over an empty square, onto an empty square.  The
    squares are named by list indices as the generator computes them:
    one step from row 0 is index [-1], which Python reads as the last
    row. *)
Definition pawn_push (e : engine) (mv : move) : Prop :=
  let '((r, c), to_pos) := mv in
  exists pc,
    cell (board e) r c = Some pc
    /\ is_pawn pc = true
    /\ isupper pc = white_to_move e
    /\ cell (board e) (fst to_pos) (snd to_pos) = Some empty_sq
    /\ let step := if isupper pc then -1 else 1 in
       let start_row := if isupper pc then 6 else 1 in
       to_pos = (r + step, c)
       \/ (r = start_row
           /\ cell (board e) (r + step) c = Some empty_sq
           /\ to_pos = (r + 2 * step, c)).

(** A square of the 8x8 board named by its own indices: row and column
    from 0 to 7. *)
Definition on_board (p : pos) : Prop :=
  0 <= fst p < 8 /\ 0 <= snd p < 8.

(** A pawn push in the sense of the rules: a [pawn_push] between two
    squares of the board. *)
Definition board_pawn_push (e : engine) (mv : move) : Prop :=
  pawn_push e mv /\ on_board (fst mv) /\ on_board (snd mv).

(** The positions along a line of the search: each step makes one of
    the generated moves. *)
Inductive search_path : engine -> engine -> Prop :=
| path_here e : search_path e e
| path_step e moves mv e1 e2 :
    generate_legal_moves e = Some moves ->
    In mv moves ->
    make_move mv e = Some (tt, e1) ->
    search_path e1 e2 ->
    search_path e e2.

(** ** Positions used in the examples *)

(** A white pawn one step from the last row with a black pawn beside it:
    after the only white move and either black reply, White has no move
    left (the white king blocks the wrapped-around square [board[-1][0]]). *)
Definition stuck_position : engine :=
  {| board :=
       [ ["."; "."; "."; "."; "."; "."; "."; "."];
         ["P"; "p"; "."; "."; "."; "."; "."; "."];
         ["."; "."; "."; "."; "."; "."; "."; "."];
         ["."; "."; "."; "."; "."; "."; "."; "."];
         ["."; "."; "."; "."; "."; "."; "."; "."];
         ["."; "."; "."; "."; "."; "."; "."; "."];
         ["."; "."; "."; "."; "."; "."; "."; "."];
         ["K"; "."; "."; "."; "."; "."; "."; "k"] ]%char;
     white_to_move := true |}.

(** ** Shapes and scores *)

(** The shape [__init__] gives the board: eight rows of eight squares. *)
Definition standard_shape (b : board_t) : Prop :=
  length b = 8%nat /\ Forall (fun row => length row = 8%nat) b.

(** The lengths of the rows, in order. *)
Definition shape (b : board_t) : list nat := map (@length piece) b.

(** The scores a search started at [e] can return when every move
    keeps the material: the evaluation of [e] or an infinity. *)
Definition flat_score (e : engine) (v : score) : Prop :=
  v = Fin (evaluate e) \/ v = NegInf \/ v = PosInf.

End ChessEngine.


(* ================================================================== *)
(** * The protocol adapter ([class UCIEngine])                         *)
(* ================================================================== *)

(** Strings are sequences of characters with code points below 256; on
    these [int] accepts exactly the digits [0] to [9].  Every exception
    ([IndexError], [ValueError], [TypeError], [EOFError]) ends the
    program and is modelled by [None]. *)

Module UCIEngine.
Import String.

(** [int(c)] for a one-character string. *)
Definition int_of_char (c : ascii) : option Z :=
  let n := nat_of_ascii c in
  if (48 <=? n)%nat && (n <=? 57)%nat then Some (Z.of_nat n - 48) else None.

(** [ord(c)] *)
Definition ord (c : ascii) : Z := Z.of_nat (nat_of_ascii c).

(** [chr(n)]: [ValueError] below 0; a code point from 256 on is outside
    these strings. *)
Definition chr (n : Z) : option ascii :=
  if (0 <=? n) && (n <? 256) then Some (ascii_of_nat (Z.to_nat n)) else None.

(** [str(n)] for an int, as an f-string formats it. *)
Definition str_of_int (n : Z) : string :=
  DecimalString.NilZero.string_of_int (Z.to_int n).

(** [uci_to_move(move_str)] *)
Definition uci_to_move (move_str : string) : option ChessEngine.move :=
  match get 1 move_str, get 0 move_str, get 3 move_str, get 2 move_str with
  | Some c1, Some c0, Some c3, Some c2 =>
      match int_of_char c1, int_of_char c3 with
      | Some d1, Some d3 =>
          Some ((8 - d1, ord c0 - ord "a"%char), (8 - d3, ord c2 - ord "a"%char))
      | _, _ => None
      end
  | _, _, _, _ => None
  end.

(** [move_to_uci(move)]; unpacking [None] raises [TypeError]. *)
Definition move_to_uci (move : option ChessEngine.move) : option string :=
  match move with
  | None => None
  | Some (from_pos, to_pos) =>
      match chr (snd from_pos + ord "a"%char), chr (snd to_pos + ord "a"%char) with
      | Some f, Some t =>
          Some (String.append (String f (str_of_int (8 - fst from_pos)))
                              (String t (str_of_int (8 - fst to_pos))))
      | _, _ => None
      end
  end.

(** [s.split(" ")]: one part per space, empty parts kept. *)
Fixpoint split_space (s : string) : list string :=
  match s with
  | EmptyString => [EmptyString]
  | String c rest =>
      if Ascii.eqb c " "%char then EmptyString :: split_space rest
      else match split_space rest with
           | part :: parts => String c part :: parts
           | [] => [String c EmptyString]
           end
  end.

(** [parts[parts.index("moves") + 1:]] when ["moves" in parts], and
    [parts[len(parts):]] otherwise. *)
Fixpoint after_moves (parts : list string) : list string :=
  match parts with
  | [] => []
  | part :: rest => if String.eqb part "moves"%string then rest else after_moves rest
  end.

(** The attributes of a [UCIEngine] object, and what it has written to
    standard output so far. *)
Record uci : Type := mkUci {
  engine : ChessEngine.engine;
  running : bool;
  sent : list string
}.

Definition U (A : Type) : Type := uci -> option (A * uci).

(** [UCIEngine.__init__], nothing written yet. *)
Definition init : uci :=
  {| engine := ChessEngine.init; running := true; sent := [] |}.

(** [send(message)] *)
Definition send (message : string) : U unit :=
  fun u => Some (tt, {| engine := engine u; running := running u;
                        sent := sent u ++ [String.append message (String "010"%char EmptyString)] |}).

(** A method of [self.engine], run on the engine attribute. *)
Definition on_engine {A} (m : ChessEngine.M A) : U A :=
  fun u => match m (engine u) with
           | Some (a, e') => Some (a, {| engine := e'; running := running u;
                                        sent := sent u |})
           | None => None
           end.

(** The loop [for move in moves: self.engine.make_move(self.uci_to_move(move))]. *)
Fixpoint replay (moves : list string) : ChessEngine.M unit :=
  match moves with
  | [] => ChessEngine.ret tt
  | move :: rest =>
      fun e => match uci_to_move move with
               | Some mv =>
                   match ChessEngine.make_move mv e with
                   | Some (_, e') => replay rest e'
                   | None => None
                   end
               | None => None
               end
  end.

(** [handle_position(command)] *)
Definition handle_position (command : string) : U unit :=
  let parts := split_space command in
  if existsb (String.eqb "startpos"%string) parts then
    fun u =>
      on_engine (replay (after_moves parts))
                {| engine := ChessEngine.init; running := running u;
                   sent := sent u |}
  else fun u => Some (tt, u).

(** [handle_go(command)] *)
Definition handle_go (command : string) : U unit :=
  fun u =>
    match on_engine (ChessEngine.get_best_move 8) u with
    | Some (best_move, u') =>
        match move_to_uci best_move with
        | Some move_str => send (String.append "bestmove "%string move_str) u'
        | None => None
        end
    | None => None
    end.

(** [process_command(command)] *)
Definition process_command (command : string) : U unit :=
  if String.eqb command "uci"%string then
    fun u =>
      match send "id name AdvancedEngine"%string u with
      | Some (_, u1) =>
          match send "id author YourName"%string u1 with
          | Some (_, u2) => send "uciok"%string u2
          | None => None
          end
      | None => None
      end
  else if prefix "position"%string command then handle_position command
  else if prefix "go"%string command then handle_go command
  else if String.eqb command "quit"%string then
    fun u => Some (tt, {| engine := engine u; running := false; sent := sent u |})
  else if String.eqb command "isready"%string then send "readyok"%string
  else if String.eqb command "ucinewgame"%string then fun u => Some (tt, u)
  else fun u => Some (tt, u).

(** [c.isspace()] for a character below 256. *)
Definition isspace (c : ascii) : bool :=
  let n := nat_of_ascii c in
  ((9 <=? n)%nat && (n <=? 13)%nat) || ((28 <=? n)%nat && (n <=? 32)%nat)
  || Nat.eqb n 133 || Nat.eqb n 160.

Fixpoint lstrip (s : string) : string :=
  match s with
  | EmptyString => EmptyString
  | String c rest => if isspace c then lstrip rest else s
  end.

Fixpoint rstrip (s : string) : string :=
  match s with
  | EmptyString => EmptyString
  | String c rest =>
      match rstrip rest with
      | EmptyString => if isspace c then EmptyString else String c EmptyString
      | r => String c r
      end
  end.

(** [s.strip()] *)
Definition strip (s : string) : string := rstrip (lstrip s).

(** [run()], with [input()] reading the given lines and raising
    [EOFError] after the last one. *)
Fixpoint run (lines : list string) : U unit :=
  fun u =>
    if running u then
      match lines with
      | [] => None
      | line :: rest =>
          match process_command (strip line) u with
          | Some (_, u') => run rest u'
          | None => None
          end
      end
    else Some (tt, u).

(** A game as a GUI sends it, in which a white pawn reaches the last
    row: 1. Nf3 g5 2. h4 a6 3. hxg5 h6 4. gxh6 a5 5. h7 a4 6. hxg8=Q a3.
    The engine has no promotion: the pawn stays a pawn on g8. *)
Definition promotion_game : string :=
  "position startpos moves g1f3 g7g5 h2h4 a7a6 h4g5 h7h6 g5h6 a6a5 h6h7 a5a4 h7g8q a4a3".

End UCIEngine.


(* ================================================================== *)
(** * The python-chess engine ([class AiymaChessZero])                 *)
(* ================================================================== *)

Module AiymaChessZero.

(** [chess.PAWN .. chess.KING] *)
Inductive piece_type : Type :=
| PAWN | KNIGHT | BISHOP | ROOK | QUEEN | KING.

(** [chess.Piece]: [color] is [True] for White. *)
Record Piece : Type := mkPiece {
  ptype : piece_type;
  color : bool
}.

(** What the engine uses of a [chess.Board].  The library itself is not
    part of the repository: it is an interface here. *)
Class RulesEngine : Type := {
  Board : Type;
  Move : Type;
  turn : Board -> bool;                       (* [board.turn], True = White *)
  piece_at : Board -> nat -> option Piece;    (* [board.piece_at(square)] *)
  is_checkmate : Board -> bool;
  is_stalemate : Board -> bool;
  is_insufficient_material : Board -> bool;
  is_game_over : Board -> bool;
  legal_moves : Board -> list Move;           (* [list(board.legal_moves)] *)
  push : Board -> Move -> Board;              (* [board.push(move)] *)
  pop : Board -> Board;                       (* [board.pop()] *)
  fen : Board -> String.string                (* [board.fen()] *)
}.

(** [PIECE_VALUES] *)
Definition PIECE_VALUES (t : piece_type) : Z :=
  match t with
  | PAWN => 100
  | KNIGHT => 320
  | BISHOP => 330
  | ROOK => 500
  | QUEEN => 900
  | KING => 20000
  end.

(** [PIECE_SQUARE_TABLES]: a dict with three keys. *)
Definition PIECE_SQUARE_TABLES (t : piece_type) : option (list Z) :=
  match t with
  | PAWN => Some
      [ 0; 5; 5; 0; 5; 10; 50; 0;
        0; 10; -5; 0; 5; 10; 50; 0;
        0; 5; 5; 10; 20; 30; 50; 0;
        5; 5; 10; 25; 35; 40; 50; 0;
        5; 5; 10; 25; 35; 40; 50; 0;
        0; 5; 5; 10; 20; 30; 50; 0;
        0; 10; -5; 0; 5; 10; 50; 0;
        0; 5; 5; 0; 5; 10; 50; 0 ]
  | KNIGHT => Some
      [ -50; -40; -30; -30; -30; -30; -40; -50;
        -40; -20; 0; 0; 0; 0; -20; -40;
        -30; 0; 10; 15; 15; 10; 0; -30;
        -30; 5; 15; 20; 20; 15; 5; -30;
        -30; 0; 15; 20; 20; 15; 0; -30;
        -30; 5; 10; 15; 15; 10; 5; -30;
        -40; -20; 0; 5; 5; 0; -20; -40;
        -50; -40; -30; -30; -30; -30; -40; -50 ]
  | BISHOP => Some
      [ -20; -10; -10; -10; -10; -10; -10; -20;
        -10; 0; 0; 0; 0; 0; 0; -10;
        -10; 0; 5; 10; 10; 5; 0; -10;
        -10; 5; 5; 10; 10; 5; 5; -10;
        -10; 0; 10; 10; 10; 10; 0; -10;
        -10; 10; 10; 10; 10; 10; 10; -10;
        -10; 5; 0; 0; 0; 0; 5; -10;
        -20; -10; -10; -10; -10; -10; -10; -20 ]
  | ROOK | QUEEN | KING => None
  end.

(** [PIECE_SQUARE_TABLES.get(piece_type, [0] * 64)[square]], for a
    square of [chess.SQUARES]. *)
Definition pst_value (t : piece_type) (square : nat) : Z :=
  let table := match PIECE_SQUARE_TABLES t with
               | Some tbl => tbl
               | None => repeat 0 64
               end in
  nth square table 0.

(** [chess.SQUARES] *)
Definition SQUARES : list nat := seq 0 64.

(** The term one square adds to [eval_score]. *)
Definition square_term `{RulesEngine} (board : Board) (square : nat) : Z :=
  match piece_at board square with
  | Some piece =>
      let value := PIECE_VALUES (ptype piece) in
      let pst := pst_value (ptype piece) square in
      if Bool.eqb (color piece) (turn board)
      then value + pst
      else - (value + pst)
  | None => 0
  end.

(** [evaluate_board] *)
Definition evaluate_board `{RulesEngine} (board : Board) : score :=
  if is_checkmate board then
    (if turn board then NegInf else PosInf)
  else if is_stalemate board || is_insufficient_material board then
    Fin 0
  else
    Fin (fold_left (fun eval_score square => eval_score + square_term board square)
                   SQUARES 0).

(** ** The transposition table: a dict keyed by [(fen, depth)] *)

Definition key := (String.string * nat)%type.

Definition key_eqb (k1 k2 : key) : bool :=
  String.eqb (fst k1) (fst k2) && Nat.eqb (snd k1) (snd k2).

Definition table := list (key * score).

(** [self.transposition_table[key]] when [key in self.transposition_table] *)
Fixpoint lookup (t : table) (k : key) : option score :=
  match t with
  | [] => None
  | (k', v) :: rest => if key_eqb k k' then Some v else lookup rest k
  end.

(** [self.transposition_table[key] = v] *)
Fixpoint store (t : table) (k : key) (v : score) : table :=
  match t with
  | [] => [(k, v)]
  | (k', v') :: rest =>
      if key_eqb k k' then (k', v) :: rest else (k', v') :: store rest k v
  end.

(** Every entry of [t] is an entry of [t'], with the same score. *)
Definition extends (t t' : table) : Prop :=
  forall k v, lookup t k = Some v -> lookup t' k = Some v.

(** ** The search: state is the board object and the table *)

Section Search.
Context `{RulesEngine}.

Definition state := (Board * table)%type.

Definition St (A : Type) : Type := state -> A * state.

Definition ret {A} (a : A) : St A := fun s => (a, s).

Definition bind {A B} (m : St A) (k : A -> St B) : St B :=
  fun s => let (a, s') := m s in k a s'.

Notation "x <- m ;; k" := (bind m (fun x => k))
  (at level 61, m at next level, right associativity).
Notation "m ;;; k" := (bind m (fun _ => k))
  (at level 61, right associativity).

Definition board_push (m : Move) : St unit :=
  fun s => (tt, (push (fst s) m, snd s)).

Definition board_pop : St unit :=
  fun s => (tt, (pop (fst s), snd s)).

Definition table_store (k : key) (v : score) : St unit :=
  fun s => (tt, (fst s, store (snd s) k v)).

(** The maximizing loop; [rec] is [self.minimax] at [depth - 1]. *)
Fixpoint max_loop (rec : score -> score -> bool -> St score)
         (moves : list Move) (alpha beta : score) (max_eval : score)
  : St score :=
  match moves with
  | [] => ret max_eval
  | mv :: rest =>
      board_push mv ;;;
      eval <- rec alpha beta false ;;
      board_pop ;;;
      let max_eval' := Score.max max_eval eval in
      let alpha' := Score.max alpha eval in
      if leb beta alpha' then ret max_eval'
      else max_loop rec rest alpha' beta max_eval'
  end.

(** The minimizing loop. *)
Fixpoint min_loop (rec : score -> score -> bool -> St score)
         (moves : list Move) (alpha beta : score) (min_eval : score)
  : St score :=
  match moves with
  | [] => ret min_eval
  | mv :: rest =>
      board_push mv ;;;
      eval <- rec alpha beta true ;;
      board_pop ;;;
      let min_eval' := Score.min min_eval eval in
      let beta' := Score.min beta eval in
      if leb beta' alpha then ret min_eval'
      else min_loop rec rest alpha beta' min_eval'
  end.

(** The leaf case: evaluate, store, return. *)
Definition leaf (k : key) : St score :=
  fun s => let score := evaluate_board (fst s) in
           (score, (fst s, store (snd s) k score)).

(** [minimax(board, depth, alpha, beta, maximizing_player)], for a
    non-negative [depth], run by one thread. *)
Fixpoint minimax (depth : nat) (alpha beta : score) (maximizing_player : bool)
  : St score :=
  fun s =>
    let k := (fen (fst s), depth) in
    match lookup (snd s) k with
    | Some cached => (cached, s)
    | None =>
        match depth with
        | O => leaf k s
        | S d =>
            if is_game_over (fst s) then leaf k s
            else
              let moves := legal_moves (fst s) in
              if maximizing_player then
                (max_eval <- max_loop (minimax d) moves alpha beta NegInf ;;
                 table_store k max_eval ;;;
                 ret max_eval) s
              else
                (min_eval <- min_loop (minimax d) moves alpha beta PosInf ;;
                 table_store k min_eval ;;;
                 ret min_eval) s
        end
    end.

(** [board.pop()] undoes [board.push(move)] for the legal moves of the
    position: what python-chess guarantees. *)
Definition pop_undoes_push : Prop :=
  forall (b : Board) (m : Move), In m (legal_moves b) -> pop (push b m) = b.

(** A search that leaves the board object as it found it. *)
Definition keeps_board (search : St score) : Prop :=
  forall b t, fst (snd (search (b, t))) = b.

(** ** Reference searches for the transparency properties *)

(** The search with the cache disabled: no probe, no store. *)
Fixpoint minimax_nocache (depth : nat) (alpha beta : score)
         (maximizing_player : bool) : St score :=
  fun s =>
    match depth with
    | O => (evaluate_board (fst s), s)
    | S d =>
        if is_game_over (fst s) then (evaluate_board (fst s), s)
        else
          let moves := legal_moves (fst s) in
          if maximizing_player
          then max_loop (minimax_nocache d) moves alpha beta NegInf s
          else min_loop (minimax_nocache d) moves alpha beta PosInf s
    end.

(** The loops with the [if beta <= alpha: break] test removed. *)
Fixpoint full_max_loop (rec : score -> score -> bool -> St score)
         (moves : list Move) (alpha beta : score) (max_eval : score)
  : St score :=
  match moves with
  | [] => ret max_eval
  | mv :: rest =>
      board_push mv ;;;
      eval <- rec alpha beta false ;;
      board_pop ;;;
      full_max_loop rec rest (Score.max alpha eval) beta (Score.max max_eval eval)
  end.

Fixpoint full_min_loop (rec : score -> score -> bool -> St score)
         (moves : list Move) (alpha beta : score) (min_eval : score)
  : St score :=
  match moves with
  | [] => ret min_eval
  | mv :: rest =>
      board_push mv ;;;
      eval <- rec alpha beta true ;;
      board_pop ;;;
      full_min_loop rec rest alpha (Score.min beta eval) (Score.min min_eval eval)
  end.

(** The search with neither table nor cutoff: plain minimax. *)
Fixpoint minimax_plain (depth : nat) (alpha beta : score)
         (maximizing_player : bool) : St score :=
  fun s =>
    match depth with
    | O => (evaluate_board (fst s), s)
    | S d =>
        if is_game_over (fst s) then (evaluate_board (fst s), s)
        else
          let moves := legal_moves (fst s) in
          if maximizing_player
          then full_max_loop (minimax_plain d) moves alpha beta NegInf s
          else full_min_loop (minimax_plain d) moves alpha beta PosInf s
    end.

(** A search that leaves board and table as it found them. *)
Definition leaves_state (search : St score) : Prop :=
  forall b t, snd (search (b, t)) = (b, t).

(** The children, as the loops need them: a fail-soft result of the
    pruned search against the result of the plain one, whatever bounds
    the latter is handed. *)
Definition bounds_plain (rec_ab rec_full : score -> score -> bool -> St score)
  : Prop :=
  forall alpha beta alpha' beta' mx b t,
    (alpha < beta)%score ->
    fail_soft alpha beta (fst (rec_ab alpha beta mx (b, t)))
              (fst (rec_full alpha' beta' mx (b, t))).

(** The search with pruning disabled and the cache left as it is. *)
Fixpoint minimax_noprune (depth : nat) (alpha beta : score)
         (maximizing_player : bool) : St score :=
  fun s =>
    let k := (fen (fst s), depth) in
    match lookup (snd s) k with
    | Some cached => (cached, s)
    | None =>
        match depth with
        | O => leaf k s
        | S d =>
            if is_game_over (fst s) then leaf k s
            else
              let moves := legal_moves (fst s) in
              if maximizing_player then
                (max_eval <- full_max_loop (minimax_noprune d) moves alpha beta NegInf ;;
                 table_store k max_eval ;;;
                 ret max_eval) s
              else
                (min_eval <- full_min_loop (minimax_noprune d) moves alpha beta PosInf ;;
                 table_store k min_eval ;;;
                 ret min_eval) s
        end
    end.

(** ** The root dispatcher

    [executor.submit] hands the pool the bound method and the one shared
    [board] object; when the task body runs is up to the scheduler.  A
    schedule gives, for each submission in order, whether the task runs
    before the main thread executes the [board.pop()] that follows
    ([true]) or only once the main thread waits in [future.result()]
    ([false]).  Tasks are run one at a time: interleavings inside a task
    are not covered.

    [self.depth] is a positive number here, so that the depth a task
    hands to [minimax], [self.depth - 1], is not negative.  (With
    [self.depth <= 0] the test [depth == 0] never holds in the task's
    search, which then only stops where the game is over; that search
    is not modelled.) *)

Definition schedule := list bool.

(** A submitted future: its move and its result once it has run. *)
Definition future := (Move * option score)%type.

(** [self.depth - 1], the depth a task searches to. *)
Definition task_depth (depth : positive) : nat := (Pos.to_nat depth - 1)%nat.

(** The submission loop.  Returns the futures in submission order. *)
Fixpoint submit_loop (depth : positive) (moves : list Move) (sched : schedule)
  : St (list future) :=
  match moves with
  | [] => ret []
  | mv :: rest =>
      board_push mv ;;;
      r <- (if hd true sched
            then (eval <- minimax (task_depth depth) NegInf PosInf false ;;
                  ret (Some eval))
            else ret None) ;;
      board_pop ;;;
      fs <- submit_loop depth rest (tl sched) ;;
      ret ((mv, r) :: fs)
  end.

(** The collection loop: [future.result()] runs a task that has not run
    yet, then the strict comparison keeps or replaces the best move. *)
Fixpoint collect_loop (depth : positive) (futures : list future)
         (best_eval : score) (best_move : option Move)
  : St (option Move) :=
  match futures with
  | [] => ret best_move
  | (mv, r) :: rest =>
      eval <- match r with
              | Some eval => ret eval
              | None => minimax (task_depth depth) NegInf PosInf false
              end ;;
      if gtb eval best_eval
      then collect_loop depth rest eval (Some mv)
      else collect_loop depth rest best_eval best_move
  end.

(** [get_best_move(board)] with [self.depth = depth] and
    [self.threads = threads], under a schedule.  [ThreadPoolExecutor]
    raises [ValueError] for a worker count below 1.  The second
    component of the result counts the tasks submitted. *)
Definition get_best_move (depth : positive) (threads : Z) (sched : schedule)
  : state -> option ((option Move * nat) * state) :=
  fun s =>
    if threads <=? 0 then None
    else
      let moves := legal_moves (fst s) in
      Some ((futures <- submit_loop depth moves sched ;;
             best <- collect_loop depth futures NegInf None ;;
             ret (best, List.length futures)) s).

(** The schedule in which every task runs as soon as it is submitted. *)
Definition eager : schedule := [].

(** The move a call returned, and the table it left behind. *)
Definition returned_move (r : option ((option Move * nat) * state))
  : option (option Move) :=
  option_map (fun x => fst (fst x)) r.

Definition submitted (r : option ((option Move * nat) * state)) : option nat :=
  option_map (fun x => snd (fst x)) r.

Definition table_after (r : option ((option Move * nat) * state)) : table :=
  match r with
  | Some x => snd (snd x)
  | None => []
  end.

(** The reduction of the dispatcher on results that are all available. *)
Fixpoint select_best (results : list (Move * score))
         (best_eval : score) (best_move : option Move) : option Move :=
  match results with
  | [] => best_move
  | (mv, eval) :: rest =>
      if gtb eval best_eval
      then select_best rest eval (Some mv)
      else select_best rest best_eval best_move
  end.

End Search.

End AiymaChessZero.


(* ================================================================== *)
(** * A small rules engine                                             *)
(* ================================================================== *)

(** An object with the methods the engine calls on a board, over a
    hand-made game graph small enough to evaluate.  A board is the stack
    of the nodes entered so far (the move stack of [chess.Board]); a move
    names the node it leads to.  The sides alternate, White moving at
    [root], [p], [q] and [lost]; the leaves hold black rooks and queens
    on the squares a1 and b1 with Black to move; a position has no legal
    move exactly when it is a checkmate.

<<
    root  -> a, b          p  -> c, b          q -> a
    a     -> a1, x         b  -> x, y          c -> c1
    a1    -> r             x  -> qn, qq        y -> qr       c1 -> rr
    r, qn, rr, qr, qq      leaves worth 500, 900, 1000, 1400, 1800
    wmate, bmate           checkmates, White resp. Black to move
    lost  -> l1, l2        l1, l2 -> wmate
    on_w <-> on_b          where the play goes on below the leaves
>>
    The node [x] is reached through [a] and through [b] at the same
    remaining depth: a transposition. *)

Module Toy.
Import AiymaChessZero.
Import String.

Inductive node : Type :=
| root | p | q | a | b | c | a1 | x | y | c1
| r | qn | rr | qr | qq
| wmate | bmate | lost | l1 | l2 | on_w | on_b.

Definition children (n : node) : list node :=
  match n with
  | root => [a; b]
  | p => [c; b]
  | q => [a]
  | a => [a1; x]
  | b => [x; y]
  | c => [c1]
  | a1 => [r]
  | x => [qn; qq]
  | y => [qr]
  | c1 => [rr]
  | r | qn | rr | qr | qq => [on_w]
  | lost => [l1; l2]
  | l1 => [wmate]
  | l2 => [wmate]
  | on_w => [on_b]
  | on_b => [on_w]
  | wmate | bmate => []
  end.

Definition name (n : node) : String.string :=
  match n with
  | root => "root" | p => "p" | q => "q" | a => "a" | b => "b" | c => "c"
  | a1 => "a1" | x => "x" | y => "y" | c1 => "c1"
  | r => "r" | qn => "qn" | rr => "rr" | qr => "qr" | qq => "qq"
  | wmate => "wmate" | bmate => "bmate" | lost => "lost"
  | l1 => "l1" | l2 => "l2" | on_w => "on_w" | on_b => "on_b"
  end%string.

Definition black (t : piece_type) : option Piece :=
  Some {| ptype := t; color := false |}.

Definition pieces (n : node) (square : nat) : option Piece :=
  match n, square with
  | r, O => black ROOK
  | qn, O => black QUEEN
  | rr, O => black ROOK
  | rr, S O => black ROOK
  | qr, O => black QUEEN
  | qr, S O => black ROOK
  | qq, O => black QUEEN
  | qq, S O => black QUEEN
  | _, _ => None
  end.

Definition is_mate (n : node) : bool :=
  match n with
  | wmate | bmate => true
  | _ => false
  end.

(** [True] where White is to move. *)
Definition to_move (n : node) : bool :=
  match n with
  | root | p | q | lost | a1 | x | y | c1 | wmate | on_w => true
  | _ => false
  end.

(** The node on top of the stack. *)
Definition current (s : list node) : node := hd root s.

#[export] Instance rules : RulesEngine := {|
  Board := list node;
  Move := node;
  turn := fun s => to_move (current s);
  piece_at := fun s => pieces (current s);
  is_checkmate := fun s => is_mate (current s);
  is_stalemate := fun _ => false;
  is_insufficient_material := fun _ => false;
  is_game_over := fun s => is_mate (current s);
  legal_moves := fun s => children (current s);
  push := fun s m => m :: s;
  pop := fun s => tl s;
  fen := fun s => name (current s)
|}.

(** A board standing at node [n], nothing on its move stack below. *)
Definition at_node (n : node) : list node := [n].

End Toy.


(* ================================================================== *)
(** * A rules engine that only passes the turn                         *)
(* ================================================================== *)

(** A board is a diagram of 64 squares and the side to move; the one
    legal move passes the turn, and taking it back passes it again.  It
    serves where two positions must differ in the side to move only. *)

Module Diagram.
Import AiymaChessZero.
Import String.

Record position : Type := mkPosition {
  squares : list (option Piece);
  white_turn : bool
}.

Definition letter (sq : option Piece) : ascii :=
  match sq with
  | None => "."
  | Some {| ptype := t; color := c |} =>
      match t, c with
      | PAWN, true => "P" | KNIGHT, true => "N" | BISHOP, true => "B"
      | ROOK, true => "R" | QUEEN, true => "Q" | KING, true => "K"
      | PAWN, false => "p" | KNIGHT, false => "n" | BISHOP, false => "b"
      | ROOK, false => "r" | QUEEN, false => "q" | KING, false => "k"
      end
  end%char.

Definition describe (b : position) : string :=
  String.append (string_of_list_ascii (map letter (squares b)))
                (if white_turn b then " w" else " b")%string.

Definition pass (b : position) : position :=
  {| squares := squares b; white_turn := negb (white_turn b) |}.

#[export] Instance rules : RulesEngine := {|
  Board := position;
  Move := unit;
  turn := white_turn;
  piece_at := fun b square => nth square (squares b) None;
  is_checkmate := fun _ => false;
  is_stalemate := fun _ => false;
  is_insufficient_material := fun _ => false;
  is_game_over := fun _ => false;
  legal_moves := fun _ => [tt];
  push := fun b _ => pass b;
  pop := pass;
  fen := describe
|}.

(** A white knight on c3 (square 18) and a black queen on d8 (square
    59), White to move. *)
Definition knight_and_queen : position :=
  {| squares := repeat None 18 ++ [Some (mkPiece KNIGHT true)]
                ++ repeat None 40 ++ [Some (mkPiece QUEEN false)]
                ++ repeat None 4;
     white_turn := true |}.

End Diagram.


(* ================================================================== *)
(** * Facts about scores                                               *)
(* ================================================================== *)

Lemma score_le_refl (a : score) : (a <= a)%score.
Proof. score_solve. Qed.

Lemma score_le_trans (a b c : score) :
  (a <= b)%score -> (b <= c)%score -> (a <= c)%score.
Proof. score_solve. Qed.

Lemma score_le_max_l (a b : score) : (a <= if gtb b a then b else a)%score.
Proof. score_solve. Qed.

Lemma score_min_le_l (a b : score) : ((if ltb b a then b else a) <= a)%score.
Proof. score_solve. Qed.

Lemma score_gtb_false (a b : score) : gtb a b = false -> (a <= b)%score.
Proof. score_solve. Qed.

Lemma score_lt_trans (a b c : score) :
  (a < b)%score -> (b < c)%score -> (a < c)%score.
Proof. score_solve. Qed.

Lemma score_le_lt_trans (a b c : score) :
  (a <= b)%score -> (b < c)%score -> (a < c)%score.
Proof. score_solve. Qed.

Lemma score_lt_le (a b : score) : (a < b)%score -> (a <= b)%score.
Proof. score_solve. Qed.

Lemma if_fin (c : bool) (x y : Z) :
  (if c then Fin x else Fin y) = Fin (if c then x else y).
Proof. now destruct c. Qed.

Lemma zmax_if (x y : Z) : (if x <? y then y else x) = Z.max x y.
Proof. destruct (Z.ltb_spec x y); lia. Qed.

Lemma zmin_if (x y : Z) : (if y <? x then y else x) = Z.min x y.
Proof. destruct (Z.ltb_spec y x); lia. Qed.

Lemma fin_inj (x y : Z) : Fin x = Fin y <-> x = y.
Proof. split; [now intros [= ->] | now intros ->]. Qed.

Lemma fin_neginf (x : Z) : Fin x = NegInf <-> False.
Proof. split; [discriminate | tauto]. Qed.

Lemma neginf_fin (x : Z) : NegInf = Fin x <-> False.
Proof. split; [discriminate | tauto]. Qed.

Lemma fin_posinf (x : Z) : Fin x = PosInf <-> False.
Proof. split; [discriminate | tauto]. Qed.

Lemma posinf_fin (x : Z) : PosInf = Fin x <-> False.
Proof. split; [discriminate | tauto]. Qed.

Lemma neginf_posinf : NegInf = PosInf <-> False.
Proof. split; [discriminate | tauto]. Qed.

Lemma posinf_neginf : PosInf = NegInf <-> False.
Proof. split; [discriminate | tauto]. Qed.

Lemma false_true : false = true <-> False.
Proof. split; [discriminate | tauto]. Qed.

Lemma true_true : true = true <-> True.
Proof. tauto. Qed.

Ltac score_prune :=
  score_simpl;
  try discriminate;
  repeat match goal with
         | H : false = true -> _ |- _ => clear H
         | H : true = true -> _ |- _ => specialize (H eq_refl)
         | H : ?x = ?x |- _ => clear H
         end;
  try discriminate.

Ltac score_to_Z :=
  repeat (progress (rewrite ?if_fin, ?zmax_if, ?zmin_if in *; score_simpl));
  rewrite ?fin_inj, ?fin_neginf, ?neginf_fin, ?fin_posinf, ?posinf_fin,
          ?neginf_posinf, ?posinf_neginf, ?false_true, ?true_true,
          ?Z.ltb_lt, ?Z.leb_le, ?Z.ltb_ge, ?Z.leb_gt in *.

Ltac inv_solve :=
  unfold fail_soft, max_inv, min_inv; intros;
  repeat match goal with
         | H : _ /\ _ |- _ => destruct H
         end;
  subst;
  repeat match goal with
         | s : score |- _ => destruct s; score_prune
         end;
  repeat split; intros; score_prune;
  try congruence;
  score_to_Z; try tauto; try lia.

Lemma max_inv_init (alpha0 beta : score) :
  (alpha0 < beta)%score -> max_inv alpha0 beta alpha0 NegInf NegInf.
Proof. inv_solve. Qed.

Lemma max_inv_final (alpha0 beta a m M : score) :
  max_inv alpha0 beta a m M -> fail_soft alpha0 beta m M.
Proof. inv_solve. Qed.

Lemma max_inv_step (alpha0 beta a m M rc vc : score) :
  max_inv alpha0 beta a m M ->
  fail_soft a beta rc vc ->
  leb beta (Score.max a rc) = false ->
  max_inv alpha0 beta (Score.max a rc)
          (if gtb rc m then rc else m) (if gtb vc M then vc else M).
Proof. inv_solve. Qed.

Lemma max_inv_break (alpha0 beta a m M rc vc V : score) :
  max_inv alpha0 beta a m M ->
  fail_soft a beta rc vc ->
  leb beta (Score.max a rc) = true ->
  ((if gtb vc M then vc else M) <= V)%score ->
  fail_soft alpha0 beta (if gtb rc m then rc else m) V.
Proof. inv_solve. Qed.

Lemma min_inv_init (alpha beta0 : score) :
  (alpha < beta0)%score -> min_inv alpha beta0 beta0 PosInf PosInf.
Proof. inv_solve. Qed.

Lemma min_inv_final (alpha beta0 b m M : score) :
  min_inv alpha beta0 b m M -> fail_soft alpha beta0 m M.
Proof. inv_solve. Qed.

Lemma min_inv_step (alpha beta0 b m M rc vc : score) :
  min_inv alpha beta0 b m M ->
  fail_soft alpha b rc vc ->
  leb (Score.min b rc) alpha = false ->
  min_inv alpha beta0 (Score.min b rc)
          (if ltb rc m then rc else m) (if ltb vc M then vc else M).
Proof. inv_solve. Qed.

Lemma min_inv_break (alpha beta0 b m M rc vc V : score) :
  min_inv alpha beta0 b m M ->
  fail_soft alpha b rc vc ->
  leb (Score.min b rc) alpha = true ->
  (V <= (if ltb vc M then vc else M))%score ->
  fail_soft alpha beta0 (if ltb rc m then rc else m) V.
Proof. inv_solve. Qed.

Lemma fail_soft_full_window (r v : score) :
  fail_soft NegInf PosInf r v -> r = v.
Proof.
  unfold fail_soft; intros (Hlo & Hmid & Hhi).
  destruct r; score_simpl.
  - specialize (Hlo eq_refl); destruct v; cbn in Hlo; congruence.
  - symmetry; apply Hmid; reflexivity.
  - specialize (Hhi eq_refl); destruct v; cbn in Hhi; congruence.
Qed.

(* ================================================================== *)
(** * Facts about Python indexing                                      *)
(* ================================================================== *)

Module PyFacts.
Import Py.

Section Lists.
Context {A : Type}.
Implicit Types (l : list A) (k j : nat) (v : A).

Lemma norm_index_lt n i k : norm_index n i = Some k -> (k < n)%nat.
Proof.
  unfold norm_index.
  destruct (0 <=? i) eqn:E1, (i <? Z.of_nat n) eqn:E2; cbn;
    destruct (- Z.of_nat n <=? i) eqn:E3, (i <? 0) eqn:E4; cbn;
    intros [= <-]; lia.
Qed.

Lemma length_update l k v : length (update l k v) = length l.
Proof.
  revert k; induction l as [|h t IH]; intros [|k]; cbn; auto.
Qed.

Lemma nth_error_update l k v j :
  nth_error (update l k v) j =
  if Nat.eqb j k
  then match nth_error l k with Some _ => Some v | None => None end
  else nth_error l j.
Proof.
  revert k j; induction l as [|h t IH]; intros [|k] [|j]; cbn; auto;
    destruct (Nat.eqb j k); reflexivity.
Qed.

Lemma nth_error_ext l l' :
  (forall j, nth_error l j = nth_error l' j) -> l = l'.
Proof.
  revert l'; induction l as [|h t IH]; intros [|h' t'] E.
  - reflexivity.
  - specialize (E O); discriminate.
  - specialize (E O); discriminate.
  - f_equal.
    + specialize (E O); cbn in E; congruence.
    + apply IH; intros j; exact (E (S j)).
Qed.

Lemma update_permutation l k v x :
  nth_error l k = Some x ->
  Permutation (x :: update l k v) (v :: l).
Proof.
  revert k; induction l as [|h t IH]; intros [|k]; cbn; try discriminate.
  - intros [= ->]; apply perm_swap.
  - intros E.
    eapply perm_trans; [apply perm_swap|].
    eapply perm_trans; [apply perm_skip, IH, E|].
    apply perm_swap.
Qed.

End Lists.

(** ** Two-level lists *)

Section Grids.
Context {A : Type}.
Implicit Types (g : list (list A)) (i j : nat) (v : A).

Lemma length_upd2 g i j v : length (upd2 g i j v) = length g.
Proof.
  unfold upd2; destruct (nth_error g i); auto using length_update.
Qed.

Lemma get2_upd2 g i j v i' j' :
  get2 (upd2 g i j v) i' j' =
  if Nat.eqb i' i && Nat.eqb j' j
  then match get2 g i j with Some _ => Some v | None => None end
  else get2 g i' j'.
Proof.
  unfold get2, upd2.
  destruct (nth_error g i) as [row|] eqn:Ei.
  - rewrite nth_error_update, Ei.
    destruct (Nat.eqb_spec i' i) as [->|Hne]; cbn.
    + rewrite nth_error_update, Ei; reflexivity.
    + reflexivity.
  - destruct (Nat.eqb_spec i' i) as [->|Hne]; cbn.
    + rewrite Ei; destruct (Nat.eqb j' j); reflexivity.
    + reflexivity.
Qed.

Lemma row_length_upd2 g i j v i' row :
  nth_error g i' = Some row ->
  exists row', nth_error (upd2 g i j v) i' = Some row'
               /\ length row' = length row.
Proof.
  unfold upd2; intros E.
  destruct (nth_error g i) as [row0|] eqn:Ei; [|eauto].
  rewrite nth_error_update, Ei.
  destruct (Nat.eqb_spec i' i) as [->|Hne].
  - rewrite E in Ei; injection Ei as <-.
    eexists; split; [reflexivity|apply length_update].
  - eauto.
Qed.

Lemma locate_upd2 g i j v r c :
  locate (upd2 g i j v) r c = locate g r c.
Proof.
  unfold locate; rewrite length_upd2.
  destruct (norm_index (length g) r) as [k|] eqn:Ek; [|reflexivity].
  destruct (nth_error g k) as [row|] eqn:Erow.
  - destruct (row_length_upd2 g i j v k row Erow) as (row' & -> & ->).
    reflexivity.
  - apply nth_error_None in Erow.
    apply norm_index_lt in Ek; lia.
Qed.

Lemma grid_ext g g' :
  length g = length g' ->
  (forall i j, get2 g i j = get2 g' i j) ->
  g = g'.
Proof.
  intros Hlen E; apply nth_error_ext; intros i.
  destruct (nth_error g i) as [row|] eqn:Ei, (nth_error g' i) as [row'|] eqn:Ei'.
  - f_equal; apply nth_error_ext; intros j.
    specialize (E i j); unfold get2 in E; rewrite Ei, Ei' in E; exact E.
  - apply nth_error_None in Ei'.
    assert (i < length g)%nat by (apply nth_error_Some; congruence); lia.
  - apply nth_error_None in Ei.
    assert (i < length g')%nat by (apply nth_error_Some; congruence); lia.
  - reflexivity.
Qed.

Lemma upd2_permutation g i j v x :
  get2 g i j = Some x ->
  Permutation (x :: concat (upd2 g i j v)) (v :: concat g).
Proof.
  unfold get2, upd2.
  destruct (nth_error g i) as [row|] eqn:Ei; [|discriminate].
  intros Ej.
  revert i Ei; induction g as [|h t IH]; intros [|i]; cbn; try discriminate.
  - intros [= ->].
    change (x :: update row j v ++ concat t)
      with ((x :: update row j v) ++ concat t).
    change (v :: row ++ concat t) with ((v :: row) ++ concat t).
    apply Permutation_app_tail, update_permutation, Ej.
  - intros Ei.
    eapply perm_trans; [apply Permutation_middle|].
    eapply perm_trans; [apply Permutation_app_head, IH, Ei|].
    apply Permutation_sym, Permutation_middle.
Qed.

End Grids.

End PyFacts.


(* ================================================================== *)
(** * The standalone engine: moves on the board                        *)
(* ================================================================== *)

Module ChessEngineFacts.
Import Py PyFacts ChessEngine.

Lemma cell_locate (b : board_t) (r c : Z) :
  cell b r c =
  match locate b r c with
  | Some (i, j) => get2 b i j
  | None => None
  end.
Proof.
  unfold cell, getitem, locate, get2.
  destruct (norm_index (length b) r) as [i|]; [|reflexivity].
  destruct (nth_error b i) as [row|] eqn:Ei; [|reflexivity].
  destruct (norm_index (length row) c) as [j|]; [|reflexivity].
  now rewrite Ei.
Qed.

Lemma set_cell_locate (b : board_t) (r c : Z) (v : piece) :
  set_cell b r c v =
  match locate b r c with
  | Some (i, j) => Some (upd2 b i j v)
  | None => None
  end.
Proof.
  unfold set_cell, getitem, setitem, locate, upd2.
  destruct (norm_index (length b) r) as [i|]; [|reflexivity].
  destruct (nth_error b i) as [row|] eqn:Ei; [|reflexivity].
  destruct (norm_index (length row) c) as [j|]; [|reflexivity].
  now rewrite Ei.
Qed.

(** What a successful [make_move] does, by position. *)
Lemma make_move_inv (mv : move) (e e' : engine) (u : unit) :
  make_move mv e = Some (u, e') ->
  exists i j i' j' x,
    locate (board e) (fst (fst mv)) (snd (fst mv)) = Some (i, j)
    /\ locate (board e) (fst (snd mv)) (snd (snd mv)) = Some (i', j')
    /\ get2 (board e) i j = Some x
    /\ e' = {| board := upd2 (upd2 (board e) i' j' x) i j empty_sq;
               white_to_move := negb (white_to_move e) |}.
Proof.
  destruct mv as [[fr fc] [tr tc]]; cbn [fst snd].
  unfold make_move, bind, read, assign, flip_turn; cbn [fst snd board white_to_move].
  rewrite cell_locate.
  destruct (locate (board e) fr fc) as [[i j]|] eqn:Ef; [|discriminate].
  destruct (get2 (board e) i j) as [x|] eqn:Ex; [|discriminate].
  rewrite set_cell_locate.
  destruct (locate (board e) tr tc) as [[i' j']|] eqn:Et; [|discriminate].
  cbn [board white_to_move].
  rewrite set_cell_locate, locate_upd2, Ef.
  intros [= <- <-].
  exists i, j, i', j', x; auto.
Qed.

Lemma make_move_ok (mv : move) (e : engine) i j i' j' x :
  locate (board e) (fst (fst mv)) (snd (fst mv)) = Some (i, j) ->
  locate (board e) (fst (snd mv)) (snd (snd mv)) = Some (i', j') ->
  get2 (board e) i j = Some x ->
  make_move mv e =
  Some (tt, {| board := upd2 (upd2 (board e) i' j' x) i j empty_sq;
               white_to_move := negb (white_to_move e) |}).
Proof.
  destruct mv as [[fr fc] [tr tc]]; cbn [fst snd].
  intros Ef Et Ex.
  unfold make_move, bind, read, assign, flip_turn; cbn [fst snd board white_to_move].
  rewrite cell_locate, Ef, Ex, set_cell_locate, Et.
  cbn [board white_to_move].
  rewrite set_cell_locate, locate_upd2, Ef.
  reflexivity.
Qed.

Lemma undo_move_ok (mv : move) (captured : piece) (e : engine) i j i' j' y :
  locate (board e) (fst (fst mv)) (snd (fst mv)) = Some (i, j) ->
  locate (board e) (fst (snd mv)) (snd (snd mv)) = Some (i', j') ->
  get2 (board e) i' j' = Some y ->
  undo_move mv captured e =
  Some (tt, {| board := upd2 (upd2 (board e) i j y) i' j' captured;
               white_to_move := negb (white_to_move e) |}).
Proof.
  destruct mv as [[fr fc] [tr tc]]; cbn [fst snd].
  intros Ef Et Ey.
  unfold undo_move, bind, read, assign, flip_turn; cbn [fst snd board white_to_move].
  rewrite cell_locate, Et, Ey, set_cell_locate, Ef.
  cbn [board white_to_move].
  rewrite set_cell_locate, locate_upd2, Et.
  reflexivity.
Qed.

(** Case analysis on the position tests left by [get2_upd2]. *)
Ltac split_positions :=
  repeat match goal with
         | |- context [Nat.eqb ?m ?n] => destruct (Nat.eqb_spec m n); subst
         | H : context [Nat.eqb ?m ?n] |- _ => destruct (Nat.eqb_spec m n); subst
         end;
  cbn [andb] in *.

(** The board after [make_move] then [undo_move], square by square. *)
Lemma make_undo_board (b : board_t) i j i' j' (x captured : piece) :
  get2 b i j = Some x ->
  get2 b i' j' = Some captured ->
  let b2 := upd2 (upd2 b i' j' x) i j empty_sq in
  exists y, get2 b2 i' j' = Some y
            /\ upd2 (upd2 b2 i j y) i' j' captured = b.
Proof.
  intros Ex Ec b2.
  assert (Ey : exists y, get2 b2 i' j' = Some y).
  { subst b2; rewrite !get2_upd2, Ex, Ec.
    split_positions; rewrite ?Ex, ?Ec; eauto. }
  destruct Ey as [y Ey]; exists y; split; [exact Ey|].
  apply grid_ext.
  - subst b2; now rewrite !length_upd2.
  - intros m n.
    revert Ey; subst b2.
    rewrite !get2_upd2, ?Ex, ?Ec.
    split_positions;
      rewrite ?Ex, ?Ec; try congruence;
      intros [= <-]; congruence.
Qed.

(** ** The loop body *)

Lemma visit_inv (search : M result) (mv : move) (e e' : engine) (res : result) :
  visit search mv e = Some (res, e') ->
  exists captured e1 e2,
    cell (board e) (fst (snd mv)) (snd (snd mv)) = Some captured
    /\ make_move mv e = Some (tt, e1)
    /\ search e1 = Some (res, e2)
    /\ undo_move mv captured e2 = Some (tt, e').
Proof.
  unfold visit, bind, read, ret.
  destruct (cell (board e) (fst (snd mv)) (snd (snd mv))) as [captured|] eqn:Ec;
    [|discriminate].
  destruct (make_move mv e) as [[[] e1]|] eqn:Em; [|discriminate].
  destruct (search e1) as [[res1 e2]|] eqn:Es; [|discriminate].
  destruct (undo_move mv captured e2) as [[[] e3]|] eqn:Eu; [|discriminate].
  intros [= <- <-].
  exists captured, e1, e2; repeat split; auto.
Qed.

Lemma visit_intro (search : M result) (mv : move) (e e1 e2 e' : engine)
      (captured : piece) (res : result) :
  cell (board e) (fst (snd mv)) (snd (snd mv)) = Some captured ->
  make_move mv e = Some (tt, e1) ->
  search e1 = Some (res, e2) ->
  undo_move mv captured e2 = Some (tt, e') ->
  visit search mv e = Some (res, e').
Proof.
  intros Ec Em Es Eu.
  unfold visit, bind, read, ret.
  now rewrite Ec, Em, Es, Eu.
Qed.

Lemma max_loop_cons rec mv rest alpha beta max_eval best_move e :
  max_loop rec (mv :: rest) alpha beta max_eval best_move e =
  match visit (rec alpha beta false) mv e with
  | Some (r, e') =>
      let eval := fst r in
      let max_eval' := if gtb eval max_eval then eval else max_eval in
      let best_move' := if gtb eval max_eval then Some mv else best_move in
      let alpha' := Score.max alpha eval in
      if leb beta alpha' then Some ((max_eval', best_move'), e')
      else max_loop rec rest alpha' beta max_eval' best_move' e'
  | None => None
  end.
Proof.
  cbn [max_loop]; unfold visit, bind, read, ret.
  destruct (cell (board e) (fst (snd mv)) (snd (snd mv))) as [captured|];
    [|reflexivity].
  destruct (make_move mv e) as [[[] e1]|]; [|reflexivity].
  destruct (rec alpha beta false e1) as [[res1 e2]|]; [|reflexivity].
  destruct (undo_move mv captured e2) as [[[] e3]|]; [|reflexivity].
  cbn zeta.
  destruct (leb beta (Score.max alpha (fst res1))); reflexivity.
Qed.

Lemma min_loop_cons rec mv rest alpha beta min_eval best_move e :
  min_loop rec (mv :: rest) alpha beta min_eval best_move e =
  match visit (rec alpha beta true) mv e with
  | Some (r, e') =>
      let eval := fst r in
      let min_eval' := if ltb eval min_eval then eval else min_eval in
      let best_move' := if ltb eval min_eval then Some mv else best_move in
      let beta' := Score.min beta eval in
      if leb beta' alpha then Some ((min_eval', best_move'), e')
      else min_loop rec rest alpha beta' min_eval' best_move' e'
  | None => None
  end.
Proof.
  cbn [min_loop]; unfold visit, bind, read, ret.
  destruct (cell (board e) (fst (snd mv)) (snd (snd mv))) as [captured|];
    [|reflexivity].
  destruct (make_move mv e) as [[[] e1]|]; [|reflexivity].
  destruct (rec alpha beta true e1) as [[res1 e2]|]; [|reflexivity].
  destruct (undo_move mv captured e2) as [[[] e3]|]; [|reflexivity].
  cbn zeta.
  destruct (leb (Score.min beta (fst res1)) alpha); reflexivity.
Qed.

Lemma full_max_loop_cons rec mv rest max_eval best_move e :
  full_max_loop rec (mv :: rest) max_eval best_move e =
  match visit (rec false) mv e with
  | Some (r, e') =>
      let eval := fst r in
      full_max_loop rec rest
        (if gtb eval max_eval then eval else max_eval)
        (if gtb eval max_eval then Some mv else best_move) e'
  | None => None
  end.
Proof.
  cbn [full_max_loop]; unfold visit, bind, read, ret.
  destruct (cell (board e) (fst (snd mv)) (snd (snd mv))) as [captured|];
    [|reflexivity].
  destruct (make_move mv e) as [[[] e1]|]; [|reflexivity].
  destruct (rec false e1) as [[res1 e2]|]; [|reflexivity].
  destruct (undo_move mv captured e2) as [[[] e3]|]; reflexivity.
Qed.

Lemma full_min_loop_cons rec mv rest min_eval best_move e :
  full_min_loop rec (mv :: rest) min_eval best_move e =
  match visit (rec true) mv e with
  | Some (r, e') =>
      let eval := fst r in
      full_min_loop rec rest
        (if ltb eval min_eval then eval else min_eval)
        (if ltb eval min_eval then Some mv else best_move) e'
  | None => None
  end.
Proof.
  cbn [full_min_loop]; unfold visit, bind, read, ret.
  destruct (cell (board e) (fst (snd mv)) (snd (snd mv))) as [captured|];
    [|reflexivity].
  destruct (make_move mv e) as [[[] e1]|]; [|reflexivity].
  destruct (rec true e1) as [[res1 e2]|]; [|reflexivity].
  destruct (undo_move mv captured e2) as [[[] e3]|]; reflexivity.
Qed.

(** [undo_move] after [make_move], as the loops use them. *)
Lemma undo_after_make (e e1 : engine) (mv : move) (captured : piece) (u : unit) :
  cell (board e) (fst (snd mv)) (snd (snd mv)) = Some captured ->
  make_move mv e = Some (u, e1) ->
  undo_move mv captured e1 = Some (tt, e).
Proof.
  intros Ec Em.
  destruct (make_move_inv _ _ _ _ Em) as (i & j & i' & j' & x & Ef & Et & Ex & ->).
  rewrite cell_locate, Et in Ec.
  destruct (make_undo_board (board e) i j i' j' x captured Ex Ec) as (y & Ey & Eb).
  erewrite undo_move_ok; cbn [board white_to_move];
    rewrite ?locate_upd2; eauto.
  rewrite Eb, negb_involutive; destruct e; reflexivity.
Qed.

Lemma visit_restores (search : M result) (mv : move) :
  restores search -> restores (visit search mv).
Proof.
  intros Hs e res e' Ev.
  destruct (visit_inv _ _ _ _ _ Ev) as (captured & e1 & e2 & Ec & Em & Es & Eu).
  apply Hs in Es; subst e2.
  rewrite (undo_after_make _ _ _ _ _ Ec Em) in Eu.
  now injection Eu.
Qed.

Lemma max_loop_restores rec :
  (forall alpha beta mx, restores (rec alpha beta mx)) ->
  forall moves alpha beta max_eval best_move,
    restores (max_loop rec moves alpha beta max_eval best_move).
Proof.
  intros Hrec moves; induction moves as [|mv rest IH];
    intros alpha beta max_eval best_move e res e'.
  - cbn; unfold ret; now intros [= _ <-].
  - rewrite max_loop_cons.
    destruct (visit (rec alpha beta false) mv e) as [[r e1]|] eqn:Ev;
      [|discriminate].
    apply visit_restores in Ev; [subst e1|apply Hrec].
    cbn zeta.
    destruct (leb beta (Score.max alpha (fst r))).
    + now intros [= _ <-].
    + apply IH.
Qed.

Lemma min_loop_restores rec :
  (forall alpha beta mx, restores (rec alpha beta mx)) ->
  forall moves alpha beta min_eval best_move,
    restores (min_loop rec moves alpha beta min_eval best_move).
Proof.
  intros Hrec moves; induction moves as [|mv rest IH];
    intros alpha beta min_eval best_move e res e'.
  - cbn; unfold ret; now intros [= _ <-].
  - rewrite min_loop_cons.
    destruct (visit (rec alpha beta true) mv e) as [[r e1]|] eqn:Ev;
      [|discriminate].
    apply visit_restores in Ev; [subst e1|apply Hrec].
    cbn zeta.
    destruct (leb (Score.min beta (fst r)) alpha).
    + now intros [= _ <-].
    + apply IH.
Qed.

(** [alpha_beta] hands the engine back as it received it. *)
Lemma alpha_beta_restores depth alpha beta mx :
  restores (alpha_beta depth alpha beta mx).
Proof.
  revert alpha beta mx; induction depth as [|d IH]; intros alpha beta mx e res e'.
  - cbn; now intros [= _ <-].
  - cbn [alpha_beta]; unfold bind, read.
    destruct (generate_legal_moves e) as [[|mv rest]|]; [| |discriminate].
    + unfold ret; now intros [= _ <-].
    + destruct mx.
      * apply max_loop_restores, IH.
      * apply min_loop_restores, IH.
Qed.

Lemma full_max_loop_restores rec :
  (forall mx, restores (rec mx)) ->
  forall moves max_eval best_move,
    restores (full_max_loop rec moves max_eval best_move).
Proof.
  intros Hrec moves; induction moves as [|mv rest IH];
    intros max_eval best_move e res e'.
  - cbn; unfold ret; now intros [= _ <-].
  - rewrite full_max_loop_cons.
    destruct (visit (rec false) mv e) as [[r e1]|] eqn:Ev; [|discriminate].
    apply visit_restores in Ev; [subst e1|apply Hrec].
    apply IH.
Qed.

Lemma full_min_loop_restores rec :
  (forall mx, restores (rec mx)) ->
  forall moves min_eval best_move,
    restores (full_min_loop rec moves min_eval best_move).
Proof.
  intros Hrec moves; induction moves as [|mv rest IH];
    intros min_eval best_move e res e'.
  - cbn; unfold ret; now intros [= _ <-].
  - rewrite full_min_loop_cons.
    destruct (visit (rec true) mv e) as [[r e1]|] eqn:Ev; [|discriminate].
    apply visit_restores in Ev; [subst e1|apply Hrec].
    apply IH.
Qed.

Lemma full_width_restores depth mx : restores (full_width depth mx).
Proof.
  revert mx; induction depth as [|d IH]; intros mx e res e'.
  - cbn; now intros [= _ <-].
  - cbn [full_width]; unfold bind, read.
    destruct (generate_legal_moves e) as [[|mv rest]|]; [| |discriminate].
    + unfold ret; now intros [= _ <-].
    + destruct mx.
      * apply full_max_loop_restores, IH.
      * apply full_min_loop_restores, IH.
Qed.

(** ** The move generator *)

Lemma norm_index_nat (n k : nat) :
  (k < n)%nat -> norm_index n (Z.of_nat k) = Some k.
Proof.
  intros Hk; unfold norm_index.
  replace (0 <=? Z.of_nat k) with true by (symmetry; apply Z.leb_le; lia).
  replace (Z.of_nat k <? Z.of_nat n) with true by (symmetry; apply Z.ltb_lt; lia).
  cbn; now rewrite Nat2Z.id.
Qed.

Lemma locate_nat (b : board_t) (i j : nat) (row : list piece) (pc : piece) :
  nth_error b i = Some row ->
  nth_error row j = Some pc ->
  locate b (Z.of_nat i) (Z.of_nat j) = Some (i, j).
Proof.
  intros Ei Ej; unfold locate.
  rewrite norm_index_nat by (apply nth_error_Some; congruence).
  rewrite Ei, norm_index_nat by (apply nth_error_Some; congruence).
  reflexivity.
Qed.

Lemma cell_nat (b : board_t) (i j : nat) (row : list piece) (pc : piece) :
  nth_error b i = Some row ->
  nth_error row j = Some pc ->
  cell b (Z.of_nat i) (Z.of_nat j) = Some pc.
Proof.
  intros Ei Ej.
  rewrite cell_locate, (locate_nat _ _ _ _ _ Ei Ej).
  unfold get2; now rewrite Ei.
Qed.

(** The moves of one piece: from its square, to an empty square one
    step ahead, or two from the start row over an empty square. *)
Lemma generate_piece_moves_spec e r c pc ms mv :
  generate_piece_moves e (r, c) pc = Some ms ->
  In mv ms ->
  is_pawn pc = true
  /\ fst mv = (r, c)
  /\ cell (board e) (fst (snd mv)) (snd (snd mv)) = Some empty_sq
  /\ (snd mv = (r + (if isupper pc then -1 else 1), c)
      \/ (r = (if isupper pc then 6 else 1)
          /\ cell (board e) (r + (if isupper pc then -1 else 1)) c = Some empty_sq
          /\ snd mv = (r + 2 * (if isupper pc then -1 else 1), c))).
Proof.
  unfold generate_piece_moves.
  destruct (is_pawn pc); [|intros [= <-] []].
  set (step := if isupper pc then -1 else 1).
  set (start_row := if isupper pc then 6 else 1).
  destruct (cell (board e) (r + step) c) as [x|] eqn:Ex; [|discriminate].
  destruct (Ascii.eqb_spec x empty_sq) as [->|_]; [|intros [= <-] []].
  destruct (Z.eqb_spec r start_row) as [Hr|_].
  - destruct (cell (board e) (r + 2 * step) c) as [y|] eqn:Ey; [|discriminate].
    destruct (Ascii.eqb_spec y empty_sq) as [->|_]; intros [= <-]; cbn.
    + intros [<-|[<-|[]]]; cbn; auto 8.
    + intros [<-|[]]; cbn; auto 8.
  - intros [= <-] [<-|[]]; cbn; auto 8.
Qed.

Lemma row_moves_spec e r row : forall c ms mv,
  row_moves e r c row = Some ms ->
  In mv ms ->
  exists k pc ms',
    nth_error row k = Some pc
    /\ isupper pc = white_to_move e
    /\ generate_piece_moves e (r, c + Z.of_nat k) pc = Some ms'
    /\ In mv ms'.
Proof.
  induction row as [|pc rest IH]; intros c ms mv; cbn [row_moves].
  - intros [= <-] [].
  - destruct (Bool.eqb (isupper pc) (white_to_move e)
              && negb (Ascii.eqb pc empty_sq)) eqn:Ecase.
    + destruct (generate_piece_moves e (r, c) pc) as [ms1|] eqn:E1; [|discriminate].
      destruct (row_moves e r (c + 1) rest) as [ms2|] eqn:E2; [|discriminate].
      intros [= <-] Hin; apply in_app_or in Hin; destruct Hin as [Hin|Hin].
      * exists O, pc, ms1; cbn [nth_error]; rewrite Z.add_0_r.
        apply andb_prop in Ecase; destruct Ecase as [Eup _].
        apply eqb_prop in Eup; auto.
      * destruct (IH _ _ _ E2 Hin) as (k & pc' & ms' & Ek & Eup & Eg & Hin').
        exists (S k), pc', ms'; cbn [nth_error].
        replace (c + Z.of_nat (S k)) with (c + 1 + Z.of_nat k) by lia; auto.
    + intros E2 Hin.
      destruct (IH _ _ _ E2 Hin) as (k & pc' & ms' & Ek & Eup & Eg & Hin').
      exists (S k), pc', ms'; cbn [nth_error].
      replace (c + Z.of_nat (S k)) with (c + 1 + Z.of_nat k) by lia; auto.
Qed.

Lemma rows_moves_spec e rows : forall r ms mv,
  rows_moves e r rows = Some ms ->
  In mv ms ->
  exists i row k pc ms',
    nth_error rows i = Some row
    /\ nth_error row k = Some pc
    /\ isupper pc = white_to_move e
    /\ generate_piece_moves e (r + Z.of_nat i, Z.of_nat k) pc = Some ms'
    /\ In mv ms'.
Proof.
  induction rows as [|row rest IH]; intros r ms mv; cbn [rows_moves].
  - intros [= <-] [].
  - destruct (row_moves e r 0 row) as [ms1|] eqn:E1; [|discriminate].
    destruct (rows_moves e (r + 1) rest) as [ms2|] eqn:E2; [|discriminate].
    intros [= <-] Hin; apply in_app_or in Hin; destruct Hin as [Hin|Hin].
    + destruct (row_moves_spec _ _ _ _ _ _ E1 Hin) as (k & pc & ms' & Ek & Eup & Eg & Hin').
      exists O, row, k, pc, ms'; cbn [nth_error]; rewrite Z.add_0_r.
      rewrite Z.add_0_l in Eg; auto 6.
    + destruct (IH _ _ _ E2 Hin) as (i & row' & k & pc & ms' & Ei & Ek & Eup & Eg & Hin').
      exists (S i), row', k, pc, ms'; cbn [nth_error].
      replace (r + Z.of_nat (S i)) with (r + 1 + Z.of_nat i) by lia; auto 6.
Qed.

(** Every generated move is a pawn push of the side to move. *)
Lemma generated_pawn_push e moves mv :
  generate_legal_moves e = Some moves -> In mv moves -> pawn_push e mv.
Proof.
  unfold generate_legal_moves; intros Eg Hin.
  destruct (rows_moves_spec _ _ _ _ _ Eg Hin)
    as (i & row & k & pc & ms' & Ei & Ek & Eup & Egp & Hin').
  rewrite Z.add_0_l in Egp.
  destruct (generate_piece_moves_spec _ _ _ _ _ _ Egp Hin')
    as (Hpawn & Hfrom & Hto & Hstep).
  destruct mv as [[r c] to_pos]; cbn [fst snd] in *.
  injection Hfrom as -> ->.
  exists pc; repeat split; auto.
  eapply cell_nat; eauto.
Qed.

(** A move from an occupied square to an empty one permutes the squares. *)
Lemma make_move_permutation e mv pc :
  cell (board e) (fst (fst mv)) (snd (fst mv)) = Some pc ->
  cell (board e) (fst (snd mv)) (snd (snd mv)) = Some empty_sq ->
  exists e', make_move mv e = Some (tt, e')
             /\ Permutation (concat (board e')) (concat (board e)).
Proof.
  rewrite !cell_locate.
  destruct (locate (board e) (fst (fst mv)) (snd (fst mv))) as [[i j]|] eqn:Ef;
    [|discriminate].
  destruct (locate (board e) (fst (snd mv)) (snd (snd mv))) as [[i' j']|] eqn:Et;
    [|discriminate].
  intros Epc Eempty.
  eexists; split; [eapply make_move_ok; eauto|]; cbn [board].
  assert (E1 : get2 (upd2 (board e) i' j' pc) i j = Some pc).
  { rewrite get2_upd2, Eempty.
    destruct (Nat.eqb i i' && Nat.eqb j j'); auto. }
  pose proof (upd2_permutation _ _ _ pc _ Eempty) as P1.
  pose proof (upd2_permutation _ _ _ empty_sq _ E1) as P2.
  eapply Permutation_cons_inv.
  eapply perm_trans; [exact P2|exact P1].
Qed.

Lemma search_path_permutation e e' :
  search_path e e' -> Permutation (concat (board e)) (concat (board e')).
Proof.
  induction 1 as [e|e moves mv e1 e2 Eg Hin Em _ IH].
  - apply Permutation_refl.
  - eapply perm_trans; [|exact IH].
    pose proof (generated_pawn_push _ _ _ Eg Hin) as Hp.
    destruct mv as [[r c] to_pos]; destruct Hp as (pc & Epc & _ & _ & Eto & _).
    destruct (make_move_permutation e (r, c, to_pos) pc Epc Eto) as (e1' & Em' & P).
    pose proof (eq_trans (eq_sym Em) Em') as E; injection E as ->.
    now apply Permutation_sym.
Qed.

(** ** Pruning against the full-width search *)

Lemma full_max_loop_ge rec moves :
  forall max_eval best_move e V bmV e',
    full_max_loop rec moves max_eval best_move e = Some ((V, bmV), e') ->
    (max_eval <= V)%score.
Proof.
  induction moves as [|mv rest IH]; intros max_eval best_move e V bmV e'.
  - cbn; unfold ret; intros [= <- _ _]; apply score_le_refl.
  - rewrite full_max_loop_cons.
    destruct (visit (rec false) mv e) as [[r e1]|]; [|discriminate].
    cbn zeta; intros E; apply IH in E.
    eapply score_le_trans; [apply score_le_max_l|exact E].
Qed.

Lemma full_min_loop_le rec moves :
  forall min_eval best_move e V bmV e',
    full_min_loop rec moves min_eval best_move e = Some ((V, bmV), e') ->
    (V <= min_eval)%score.
Proof.
  induction moves as [|mv rest IH]; intros min_eval best_move e V bmV e'.
  - cbn; unfold ret; intros [= <- _ _]; apply score_le_refl.
  - rewrite full_min_loop_cons.
    destruct (visit (rec true) mv e) as [[r e1]|]; [|discriminate].
    cbn zeta; intros E; apply IH in E.
    eapply score_le_trans; [exact E|apply score_min_le_l].
Qed.

Lemma visit_refines rec_ab rec_full alpha beta mx mv e v bm :
  refines rec_ab rec_full ->
  restores (rec_full mx) ->
  (alpha < beta)%score ->
  visit (rec_full mx) mv e = Some ((v, bm), e) ->
  exists r bm', visit (rec_ab alpha beta mx) mv e = Some ((r, bm'), e)
                /\ fail_soft alpha beta r v.
Proof.
  intros Href Hres Hab Ev.
  destruct (visit_inv _ _ _ _ _ Ev) as (captured & e1 & e2 & Ec & Em & Es & Eu).
  pose proof (Hres _ _ _ Es); subst e2.
  destruct (Href alpha beta mx e1 v bm Hab Es) as (r & bm' & Er & Hfs).
  exists r, bm'; split; [|exact Hfs].
  eapply visit_intro; eauto.
Qed.

Lemma max_loop_sound rec_ab rec_full :
  refines rec_ab rec_full ->
  (forall mx, restores (rec_full mx)) ->
  forall moves alpha0 beta a m M bm bmF e V bmV,
    max_inv alpha0 beta a m M ->
    full_max_loop rec_full moves M bmF e = Some ((V, bmV), e) ->
    exists r bm', max_loop rec_ab moves a beta m bm e = Some ((r, bm'), e)
                  /\ fail_soft alpha0 beta r V.
Proof.
  intros Href Hres moves; induction moves as [|mv rest IH];
    intros alpha0 beta a m M bm bmF e V bmV Hinv.
  - cbn; unfold ret; intros [= <- _].
    exists m, bm; split; [reflexivity|eapply max_inv_final; eauto].
  - rewrite full_max_loop_cons.
    destruct (visit (rec_full false) mv e) as [[[vc bmc] e1]|] eqn:Ev;
      [|discriminate].
    pose proof (visit_restores _ mv (Hres false) _ _ _ Ev); subst e1.
    cbn [fst]; cbv zeta; intros Efull.
    assert (Hab : (a < beta)%score) by (destruct Hinv as (_ & ? & _); assumption).
    destruct (visit_refines _ _ a beta false mv e vc bmc Href (Hres false) Hab Ev)
      as (rc & bmr & Evab & Hfs).
    rewrite max_loop_cons, Evab; cbn [fst]; cbv zeta.
    destruct (leb beta (Score.max a rc)) eqn:Ecut.
    + eexists _, _; split; [reflexivity|].
      eapply max_inv_break; eauto.
      eapply full_max_loop_ge; eauto.
    + eapply IH; [|exact Efull].
      apply max_inv_step; assumption.
Qed.

Lemma min_loop_sound rec_ab rec_full :
  refines rec_ab rec_full ->
  (forall mx, restores (rec_full mx)) ->
  forall moves alpha beta0 b m M bm bmF e V bmV,
    min_inv alpha beta0 b m M ->
    full_min_loop rec_full moves M bmF e = Some ((V, bmV), e) ->
    exists r bm', min_loop rec_ab moves alpha b m bm e = Some ((r, bm'), e)
                  /\ fail_soft alpha beta0 r V.
Proof.
  intros Href Hres moves; induction moves as [|mv rest IH];
    intros alpha beta0 b m M bm bmF e V bmV Hinv.
  - cbn; unfold ret; intros [= <- _].
    exists m, bm; split; [reflexivity|eapply min_inv_final; eauto].
  - rewrite full_min_loop_cons.
    destruct (visit (rec_full true) mv e) as [[[vc bmc] e1]|] eqn:Ev;
      [|discriminate].
    pose proof (visit_restores _ mv (Hres true) _ _ _ Ev); subst e1.
    cbn [fst]; cbv zeta; intros Efull.
    assert (Hab : (alpha < b)%score) by (destruct Hinv as (_ & ? & _); assumption).
    destruct (visit_refines _ _ alpha b true mv e vc bmc Href (Hres true) Hab Ev)
      as (rc & bmr & Evab & Hfs).
    rewrite min_loop_cons, Evab; cbn [fst]; cbv zeta.
    destruct (leb (Score.min b rc) alpha) eqn:Ecut.
    + eexists _, _; split; [reflexivity|].
      eapply min_inv_break; eauto.
      eapply full_min_loop_le; eauto.
    + eapply IH; [|exact Efull].
      apply min_inv_step; assumption.
Qed.

(** Fail-soft alpha-beta against the full-width search, any window. *)
Lemma alpha_beta_refines depth : refines (alpha_beta depth) (full_width depth).
Proof.
  induction depth as [|d IH]; intros alpha beta mx e v bm Hab.
  - cbn; intros [= <- <-].
    eexists _, _; split; [reflexivity|].
    unfold fail_soft; repeat split; auto using score_le_refl.
  - cbn [alpha_beta full_width]; unfold bind, read.
    destruct (generate_legal_moves e) as [[|mv rest]|]; [| |discriminate].
    + unfold ret; intros [= <- <-].
      eexists _, _; split; [reflexivity|].
      unfold fail_soft; repeat split; auto using score_le_refl.
    + destruct mx; intros Efull.
      * eapply max_loop_sound; eauto using full_width_restores, max_inv_init.
      * eapply min_loop_sound; eauto using full_width_restores, min_inv_init.
Qed.

(** The pruned search from the full window returns the score of the
    full-width search whenever the latter returns. *)
Lemma alpha_beta_full_width depth mx e v bm e' :
  full_width depth mx e = Some ((v, bm), e') ->
  exists bm', alpha_beta depth NegInf PosInf mx e = Some ((v, bm'), e).
Proof.
  intros Efull.
  pose proof (full_width_restores _ _ _ _ _ Efull); subst e'.
  destruct (alpha_beta_refines depth NegInf PosInf mx e v bm eq_refl Efull)
    as (r & bm' & Eab & Hfs).
  apply fail_soft_full_window in Hfs; subst r.
  eauto.
Qed.


(** The standalone engine, which has no cache: for every position, depth
    and side, the pruned search started from the full window returns the
    score of the full-width search. *)
Theorem alpha_beta_equals_full_width depth mx e v bm e' :
  full_width depth mx e = Some ((v, bm), e') ->
  exists bm', alpha_beta depth NegInf PosInf mx e = Some ((v, bm'), e).
Proof. apply alpha_beta_full_width. Qed.

Lemma alpha_beta_equals_full_width_witness :
  full_width 3 true init = Some ((Fin 0, Some ((6, 0), (5, 0))), init)
  /\ exists bm', alpha_beta 3 NegInf PosInf true init = Some ((Fin 0, bm'), init).
Proof.
  assert (Hf : full_width 3 true init = Some ((Fin 0, Some ((6, 0), (5, 0))), init))
    by (vm_compute; reflexivity).
  split; [exact Hf|exact (alpha_beta_equals_full_width _ _ _ _ _ _ Hf)].
Defined.

(** Without a legal move the standalone engine returns no move either,
    at every depth. *)
Lemma get_best_move_no_moves (depth : nat) (e : engine) :
  generate_legal_moves e = Some [] ->
  get_best_move depth e = Some (None, e).
Proof.
  intros Hnone; unfold get_best_move, bind, ret.
  destruct depth as [|d]; cbn [alpha_beta]; [reflexivity|].
  unfold bind, read, ret; now rewrite Hnone.
Qed.

(** ** The claims about the board *)

(** C7. [make_move] and [undo_move] are exact inverses: when the
    destination of [mv] holds [captured_piece], every completed
    [make_move(mv)] followed by [undo_move(mv, captured_piece)] returns
    the engine (board array and side-to-move flag) to exactly its prior
    value; and [make_move] completes whenever the origin is a square of
    the board as well. *)
Theorem make_move_undo_move_inverse (e : engine) (mv : move) (captured_piece : piece) :
  cell (board e) (fst (snd mv)) (snd (snd mv)) = Some captured_piece ->
  (forall e', make_move mv e = Some (tt, e') ->
              undo_move mv captured_piece e' = Some (tt, e))
  /\ (forall x, cell (board e) (fst (fst mv)) (snd (fst mv)) = Some x ->
                exists e', make_move mv e = Some (tt, e')).
Proof.
  intros Ec; split.
  - intros e' Em; eapply undo_after_make; eauto.
  - intros x Ex; rewrite cell_locate in Ec, Ex.
    destruct (locate (board e) (fst (fst mv)) (snd (fst mv))) as [[i j]|] eqn:Ef;
      [|discriminate].
    destruct (locate (board e) (fst (snd mv)) (snd (snd mv))) as [[i' j']|] eqn:Et;
      [|discriminate].
    eexists; eapply make_move_ok; eauto.
Qed.

(** The a-pawn takes the black a-pawn from the start position, and is
    put back. *)
Lemma make_move_undo_move_inverse_witness :
  cell (board init) 1 0 = Some "p"%char
  /\ exists e', make_move ((6, 0), (1, 0)) init = Some (tt, e')
                /\ undo_move ((6, 0), (1, 0)) "p"%char e' = Some (tt, init).
Proof.
  assert (Hc : cell (board init) 1 0 = Some "p"%char) by reflexivity.
  split; [exact Hc|].
  destruct (make_move_undo_move_inverse init ((6, 0), (1, 0)) "p"%char Hc)
    as [Hundo Hmake].
  destruct (Hmake "P"%char eq_refl) as [e' Em].
  exists e'; split; [exact Em|exact (Hundo e' Em)].
Defined.

(** What the generator does guarantee.  Every move returned by
    [generate_legal_moves] takes a pawn of the side to move one index
    step ahead, or two from the start row over an empty square, onto an
    empty square; making it succeeds and permutes the squares of the
    board, so the multiset of pieces is the same all along a search
    path. *)
Theorem generated_moves_are_pawn_pushes (e : engine) (moves : list move) :
  generate_legal_moves e = Some moves ->
  (forall mv, In mv moves ->
      pawn_push e mv
      /\ exists e', make_move mv e = Some (tt, e')
                    /\ Permutation (concat (board e')) (concat (board e)))
  /\ (forall e', search_path e e' ->
                 Permutation (concat (board e)) (concat (board e'))).
Proof.
  intros Eg; split.
  - intros mv Hin.
    pose proof (generated_pawn_push _ _ _ Eg Hin) as Hp.
    split; [exact Hp|].
    destruct mv as [[r c] to_pos]; destruct Hp as (pc & Epc & _ & _ & Eto & _).
    exact (make_move_permutation e (r, c, to_pos) pc Epc Eto).
  - apply search_path_permutation.
Qed.

(** The sixteen pushes of the start position; the king's pawn two
    squares forward is one of them. *)
Lemma generated_moves_are_pawn_pushes_witness :
  generate_legal_moves init
  = Some [ ((6, 0), (5, 0)); ((6, 0), (4, 0)); ((6, 1), (5, 1)); ((6, 1), (4, 1));
           ((6, 2), (5, 2)); ((6, 2), (4, 2)); ((6, 3), (5, 3)); ((6, 3), (4, 3));
           ((6, 4), (5, 4)); ((6, 4), (4, 4)); ((6, 5), (5, 5)); ((6, 5), (4, 5));
           ((6, 6), (5, 6)); ((6, 6), (4, 6)); ((6, 7), (5, 7)); ((6, 7), (4, 7)) ]
  /\ pawn_push init ((6, 4), (4, 4))
  /\ exists e', make_move ((6, 4), (4, 4)) init = Some (tt, e')
                /\ Permutation (concat (board e')) (concat (board init)).
Proof.
  assert (Hg : generate_legal_moves init
               = Some [ ((6, 0), (5, 0)); ((6, 0), (4, 0)); ((6, 1), (5, 1)); ((6, 1), (4, 1));
                        ((6, 2), (5, 2)); ((6, 2), (4, 2)); ((6, 3), (5, 3)); ((6, 3), (4, 3));
                        ((6, 4), (5, 4)); ((6, 4), (4, 4)); ((6, 5), (5, 5)); ((6, 5), (4, 5));
                        ((6, 6), (5, 6)); ((6, 6), (4, 6)); ((6, 7), (5, 7)); ((6, 7), (4, 7)) ])
    by (vm_compute; reflexivity).
  split; [exact Hg|].
  destruct (generated_moves_are_pawn_pushes init _ Hg) as [Hmv _].
  apply Hmv; do 9 right; left; reflexivity.
Defined.

End ChessEngineFacts.


(* ================================================================== *)
(** * The python-chess engine: evaluation, search and dispatch         *)
(* ================================================================== *)

Module AiymaFacts.
Import AiymaChessZero.

Section WithRules.
Context `{RulesEngine}.

(** ** The evaluator *)

Lemma evaluate_board_checkmate (board : Board) :
  is_checkmate board = true ->
  evaluate_board board = if turn board then NegInf else PosInf.
Proof. unfold evaluate_board; now intros ->. Qed.

Lemma evaluate_board_finite (board : Board) :
  is_checkmate board = false -> exists z, evaluate_board board = Fin z.
Proof.
  unfold evaluate_board; intros ->.
  destruct (is_stalemate board || is_insufficient_material board); eauto.
Qed.

(** ** The board object across a search *)

Lemma max_loop_keeps rec moves b :
  (forall m, In m moves -> pop (push b m) = b) ->
  (forall alpha beta mx, keeps_board (rec alpha beta mx)) ->
  forall alpha beta max_eval t,
    fst (snd (max_loop rec moves alpha beta max_eval (b, t))) = b.
Proof.
  intros Hpop Hrec; induction moves as [|mv rest IH]; intros alpha beta max_eval t.
  - reflexivity.
  - cbn [max_loop]; unfold bind, board_push, board_pop; cbn [fst snd].
    pose proof (Hrec alpha beta false (push b mv) t) as Hb.
    destruct (rec alpha beta false (push b mv, t)) as [eval [b1 t1]].
    cbn [fst snd] in *; subst b1.
    rewrite Hpop by (left; reflexivity).
    destruct (leb beta (Score.max alpha eval)).
    + reflexivity.
    + apply IH; intros m Hm; apply Hpop; right; exact Hm.
Qed.

Lemma min_loop_keeps rec moves b :
  (forall m, In m moves -> pop (push b m) = b) ->
  (forall alpha beta mx, keeps_board (rec alpha beta mx)) ->
  forall alpha beta min_eval t,
    fst (snd (min_loop rec moves alpha beta min_eval (b, t))) = b.
Proof.
  intros Hpop Hrec; induction moves as [|mv rest IH]; intros alpha beta min_eval t.
  - reflexivity.
  - cbn [min_loop]; unfold bind, board_push, board_pop; cbn [fst snd].
    pose proof (Hrec alpha beta true (push b mv) t) as Hb.
    destruct (rec alpha beta true (push b mv, t)) as [eval [b1 t1]].
    cbn [fst snd] in *; subst b1.
    rewrite Hpop by (left; reflexivity).
    destruct (leb (Score.min beta eval) alpha).
    + reflexivity.
    + apply IH; intros m Hm; apply Hpop; right; exact Hm.
Qed.

Lemma minimax_keeps_board :
  pop_undoes_push ->
  forall depth alpha beta mx, keeps_board (minimax depth alpha beta mx).
Proof.
  intros Hpop depth; induction depth as [|d IH]; intros alpha beta mx b t.
  - cbn [minimax fst snd].
    destruct (lookup t (fen b, O)); reflexivity.
  - cbn [minimax fst snd].
    destruct (lookup t (fen b, S d)); [reflexivity|].
    destruct (is_game_over b); [reflexivity|].
    destruct mx; unfold bind, table_store, ret.
    + pose proof (max_loop_keeps (minimax d) (legal_moves b) b (Hpop b) IH
                                 alpha beta NegInf t) as Hb.
      destruct (max_loop (minimax d) (legal_moves b) alpha beta NegInf (b, t))
        as [v [b1 t1]]; exact Hb.
    + pose proof (min_loop_keeps (minimax d) (legal_moves b) b (Hpop b) IH
                                 alpha beta PosInf t) as Hb.
      destruct (min_loop (minimax d) (legal_moves b) alpha beta PosInf (b, t))
        as [v [b1 t1]]; exact Hb.
Qed.

(** ** Pruning without the table

    With the probe and the stores taken out, the cutoff is harmless: the
    search from the full window returns the plain minimax value.  The
    proof is the one of the standalone engine, on this engine's loops. *)

Lemma max_loop_leaves rec moves b :
  (forall m, In m moves -> pop (push b m) = b) ->
  (forall alpha beta mx, leaves_state (rec alpha beta mx)) ->
  forall alpha beta max_eval t,
    snd (max_loop rec moves alpha beta max_eval (b, t)) = (b, t).
Proof.
  intros Hpop Hrec; induction moves as [|mv rest IH]; intros alpha beta max_eval t.
  - reflexivity.
  - cbn [max_loop]; unfold bind, board_push, board_pop; cbn [fst snd].
    pose proof (Hrec alpha beta false (push b mv) t) as Hs.
    destruct (rec alpha beta false (push b mv, t)) as [eval [b1 t1]].
    cbn [fst snd] in *; injection Hs as -> ->.
    rewrite Hpop by (left; reflexivity).
    destruct (leb beta (Score.max alpha eval)).
    + reflexivity.
    + apply IH; intros m Hm; apply Hpop; right; exact Hm.
Qed.

Lemma min_loop_leaves rec moves b :
  (forall m, In m moves -> pop (push b m) = b) ->
  (forall alpha beta mx, leaves_state (rec alpha beta mx)) ->
  forall alpha beta min_eval t,
    snd (min_loop rec moves alpha beta min_eval (b, t)) = (b, t).
Proof.
  intros Hpop Hrec; induction moves as [|mv rest IH]; intros alpha beta min_eval t.
  - reflexivity.
  - cbn [min_loop]; unfold bind, board_push, board_pop; cbn [fst snd].
    pose proof (Hrec alpha beta true (push b mv) t) as Hs.
    destruct (rec alpha beta true (push b mv, t)) as [eval [b1 t1]].
    cbn [fst snd] in *; injection Hs as -> ->.
    rewrite Hpop by (left; reflexivity).
    destruct (leb (Score.min beta eval) alpha).
    + reflexivity.
    + apply IH; intros m Hm; apply Hpop; right; exact Hm.
Qed.

Lemma full_max_loop_leaves rec moves b :
  (forall m, In m moves -> pop (push b m) = b) ->
  (forall alpha beta mx, leaves_state (rec alpha beta mx)) ->
  forall alpha beta max_eval t,
    snd (full_max_loop rec moves alpha beta max_eval (b, t)) = (b, t).
Proof.
  intros Hpop Hrec; induction moves as [|mv rest IH]; intros alpha beta max_eval t.
  - reflexivity.
  - cbn [full_max_loop]; unfold bind, board_push, board_pop; cbn [fst snd].
    pose proof (Hrec alpha beta false (push b mv) t) as Hs.
    destruct (rec alpha beta false (push b mv, t)) as [eval [b1 t1]].
    cbn [fst snd] in *; injection Hs as -> ->.
    rewrite Hpop by (left; reflexivity).
    apply IH; intros m Hm; apply Hpop; right; exact Hm.
Qed.

Lemma plain_min_loop_leaves rec moves b :
  (forall m, In m moves -> pop (push b m) = b) ->
  (forall alpha beta mx, leaves_state (rec alpha beta mx)) ->
  forall alpha beta min_eval t,
    snd (full_min_loop rec moves alpha beta min_eval (b, t)) = (b, t).
Proof.
  intros Hpop Hrec; induction moves as [|mv rest IH]; intros alpha beta min_eval t.
  - reflexivity.
  - cbn [full_min_loop]; unfold bind, board_push, board_pop; cbn [fst snd].
    pose proof (Hrec alpha beta true (push b mv) t) as Hs.
    destruct (rec alpha beta true (push b mv, t)) as [eval [b1 t1]].
    cbn [fst snd] in *; injection Hs as -> ->.
    rewrite Hpop by (left; reflexivity).
    apply IH; intros m Hm; apply Hpop; right; exact Hm.
Qed.

Lemma minimax_nocache_leaves :
  pop_undoes_push ->
  forall depth alpha beta mx, leaves_state (minimax_nocache depth alpha beta mx).
Proof.
  intros Hpop depth; induction depth as [|d IH]; intros alpha beta mx b t.
  - reflexivity.
  - cbn [minimax_nocache fst snd].
    destruct (is_game_over b); [reflexivity|].
    destruct mx.
    + apply max_loop_leaves; [apply Hpop|apply IH].
    + apply min_loop_leaves; [apply Hpop|apply IH].
Qed.

Lemma minimax_plain_leaves :
  pop_undoes_push ->
  forall depth alpha beta mx, leaves_state (minimax_plain depth alpha beta mx).
Proof.
  intros Hpop depth; induction depth as [|d IH]; intros alpha beta mx b t.
  - reflexivity.
  - cbn [minimax_plain fst snd].
    destruct (is_game_over b); [reflexivity|].
    destruct mx.
    + apply full_max_loop_leaves; [apply Hpop|apply IH].
    + apply plain_min_loop_leaves; [apply Hpop|apply IH].
Qed.

Lemma plain_max_loop_ge rec moves b :
  (forall m, In m moves -> pop (push b m) = b) ->
  (forall alpha beta mx, leaves_state (rec alpha beta mx)) ->
  forall alpha beta max_eval t,
    (max_eval <= fst (full_max_loop rec moves alpha beta max_eval (b, t)))%score.
Proof.
  intros Hpop Hrec; induction moves as [|mv rest IH]; intros alpha beta max_eval t.
  - apply score_le_refl.
  - cbn [full_max_loop]; unfold bind, board_push, board_pop; cbn [fst snd].
    pose proof (Hrec alpha beta false (push b mv) t) as Hs.
    destruct (rec alpha beta false (push b mv, t)) as [eval [b1 t1]].
    cbn [fst snd] in *; injection Hs as -> ->.
    rewrite Hpop by (left; reflexivity).
    eapply score_le_trans; [apply (score_le_max_l max_eval eval)|].
    apply IH; intros m Hm; apply Hpop; right; exact Hm.
Qed.

Lemma plain_min_loop_le rec moves b :
  (forall m, In m moves -> pop (push b m) = b) ->
  (forall alpha beta mx, leaves_state (rec alpha beta mx)) ->
  forall alpha beta min_eval t,
    (fst (full_min_loop rec moves alpha beta min_eval (b, t)) <= min_eval)%score.
Proof.
  intros Hpop Hrec; induction moves as [|mv rest IH]; intros alpha beta min_eval t.
  - apply score_le_refl.
  - cbn [full_min_loop]; unfold bind, board_push, board_pop; cbn [fst snd].
    pose proof (Hrec alpha beta true (push b mv) t) as Hs.
    destruct (rec alpha beta true (push b mv, t)) as [eval [b1 t1]].
    cbn [fst snd] in *; injection Hs as -> ->.
    rewrite Hpop by (left; reflexivity).
    eapply score_le_trans; [|apply (score_min_le_l min_eval eval)].
    apply IH; intros m Hm; apply Hpop; right; exact Hm.
Qed.

Lemma max_loop_bounds rec_ab rec_full moves b :
  (forall m, In m moves -> pop (push b m) = b) ->
  (forall alpha beta mx, leaves_state (rec_ab alpha beta mx)) ->
  (forall alpha beta mx, leaves_state (rec_full alpha beta mx)) ->
  bounds_plain rec_ab rec_full ->
  forall alpha0 beta a m M alpha' beta' t,
    max_inv alpha0 beta a m M ->
    fail_soft alpha0 beta
              (fst (max_loop rec_ab moves a beta m (b, t)))
              (fst (full_max_loop rec_full moves alpha' beta' M (b, t))).
Proof.
  intros Hpop Hab Hfull Href; induction moves as [|mv rest IH];
    intros alpha0 beta a m M alpha' beta' t Hinv.
  - cbn; eapply max_inv_final; eauto.
  - assert (Hlt : (a < beta)%score) by (destruct Hinv as (_ & ? & _); assumption).
    pose proof (Href a beta alpha' beta' false (push b mv) t Hlt) as Hfs.
    pose proof (plain_max_loop_ge rec_full rest b
                  (fun m0 Hm => Hpop m0 (or_intror Hm)) Hfull) as Hge.
    cbn [max_loop full_max_loop]; unfold bind, board_push, board_pop;
      cbn [fst snd].
    pose proof (Hab a beta false (push b mv) t) as Hs1.
    pose proof (Hfull alpha' beta' false (push b mv) t) as Hs2.
    destruct (rec_ab a beta false (push b mv, t)) as [rc [b1 t1]].
    destruct (rec_full alpha' beta' false (push b mv, t)) as [vc [b2 t2]].
    cbn [fst snd] in *; injection Hs1 as -> ->; injection Hs2 as -> ->.
    rewrite Hpop by (left; reflexivity).
    destruct (leb beta (Score.max a rc)) eqn:Ecut.
    + cbn [fst ret]; unfold ret; cbn [fst].
      eapply max_inv_break; eauto.
    + apply IH; [intros m0 Hm; apply Hpop; right; exact Hm|].
      apply max_inv_step; assumption.
Qed.

Lemma min_loop_bounds rec_ab rec_full moves b :
  (forall m, In m moves -> pop (push b m) = b) ->
  (forall alpha beta mx, leaves_state (rec_ab alpha beta mx)) ->
  (forall alpha beta mx, leaves_state (rec_full alpha beta mx)) ->
  bounds_plain rec_ab rec_full ->
  forall alpha beta0 bb m M alpha' beta' t,
    min_inv alpha beta0 bb m M ->
    fail_soft alpha beta0
              (fst (min_loop rec_ab moves alpha bb m (b, t)))
              (fst (full_min_loop rec_full moves alpha' beta' M (b, t))).
Proof.
  intros Hpop Hab Hfull Href; induction moves as [|mv rest IH];
    intros alpha beta0 bb m M alpha' beta' t Hinv.
  - cbn; eapply min_inv_final; eauto.
  - assert (Hlt : (alpha < bb)%score) by (destruct Hinv as (_ & ? & _); assumption).
    pose proof (Href alpha bb alpha' beta' true (push b mv) t Hlt) as Hfs.
    pose proof (plain_min_loop_le rec_full rest b
                  (fun m0 Hm => Hpop m0 (or_intror Hm)) Hfull) as Hle.
    cbn [min_loop full_min_loop]; unfold bind, board_push, board_pop;
      cbn [fst snd].
    pose proof (Hab alpha bb true (push b mv) t) as Hs1.
    pose proof (Hfull alpha' beta' true (push b mv) t) as Hs2.
    destruct (rec_ab alpha bb true (push b mv, t)) as [rc [b1 t1]].
    destruct (rec_full alpha' beta' true (push b mv, t)) as [vc [b2 t2]].
    cbn [fst snd] in *; injection Hs1 as -> ->; injection Hs2 as -> ->.
    rewrite Hpop by (left; reflexivity).
    destruct (leb (Score.min bb rc) alpha) eqn:Ecut.
    + unfold ret; cbn [fst].
      eapply min_inv_break; eauto.
    + apply IH; [intros m0 Hm; apply Hpop; right; exact Hm|].
      apply min_inv_step; assumption.
Qed.

Lemma minimax_nocache_bounds :
  pop_undoes_push ->
  forall depth, bounds_plain (minimax_nocache depth) (minimax_plain depth).
Proof.
  intros Hpop depth; induction depth as [|d IH];
    intros alpha beta alpha' beta' mx b t Hlt.
  - cbn; unfold fail_soft; repeat split; auto using score_le_refl.
  - cbn [minimax_nocache minimax_plain fst snd].
    destruct (is_game_over b).
    + cbn; unfold fail_soft; repeat split; auto using score_le_refl.
    + destruct mx.
      * apply max_loop_bounds;
          auto using minimax_nocache_leaves, minimax_plain_leaves, max_inv_init.
      * apply min_loop_bounds;
          auto using minimax_nocache_leaves, minimax_plain_leaves, min_inv_init.
Qed.

(** With the table taken out, the pruned search from the full window
    returns the plain minimax value, for every position, depth and
    side. *)
Theorem pruning_without_table_is_exact :
  pop_undoes_push ->
  forall depth mx b t,
    fst (minimax_nocache depth NegInf PosInf mx (b, t))
    = fst (minimax_plain depth NegInf PosInf mx (b, t)).
Proof.
  intros Hpop depth mx b t.
  apply fail_soft_full_window.
  apply minimax_nocache_bounds; [exact Hpop|reflexivity].
Qed.

(** ** The reduction of the dispatcher *)

(** The reduction either keeps what it started with, every score being
    at most the starting one, or returns the first move whose score is
    the greatest: strictly above the starting score and above the scores
    before it, at least the scores after it. *)
Lemma select_best_first_best (results : list (Move * score)) :
  forall best_eval best_move,
    (select_best results best_eval best_move = best_move
     /\ forall mv eval, In (mv, eval) results -> (eval <= best_eval)%score)
    \/ exists pre mv eval post,
        results = pre ++ (mv, eval) :: post
        /\ select_best results best_eval best_move = Some mv
        /\ (best_eval < eval)%score
        /\ (forall mv' eval', In (mv', eval') pre -> (eval' < eval)%score)
        /\ (forall mv' eval', In (mv', eval') post -> (eval' <= eval)%score).
Proof.
  induction results as [|[mv eval] rest IH]; intros best_eval best_move.
  - left; split; [reflexivity|intros ? ? []].
  - cbn [select_best]; destruct (gtb eval best_eval) eqn:Egt.
    + right; destruct (IH eval (Some mv)) as [[Esel Hle]|Hlater].
      * exists [], mv, eval, rest; repeat split; auto.
        intros ? ? [].
      * destruct Hlater as (pre & mv1 & eval1 & post & -> & Esel & Hlt & Hpre & Hpost).
        exists ((mv, eval) :: pre), mv1, eval1, post; repeat split; auto.
        -- eapply score_lt_trans; [exact Egt|exact Hlt].
        -- intros mv' eval' [[= <- <-]|Hin]; eauto.
    + apply score_gtb_false in Egt.
      destruct (IH best_eval best_move) as [[Esel Hle]|Hlater].
      * left; split; [exact Esel|].
        intros mv' eval' [[= <- <-]|Hin]; eauto.
      * right.
        destruct Hlater as (pre & mv1 & eval1 & post & -> & Esel & Hlt & Hpre & Hpost).
        exists ((mv, eval) :: pre), mv1, eval1, post; repeat split; auto.
        intros mv' eval' [[= <- <-]|Hin]; eauto using score_le_lt_trans.
Qed.

(** Scores of [-inf] never replace the initial [None]. *)
Lemma select_best_all_neginf (results : list (Move * score)) :
  (forall mv eval, In (mv, eval) results -> eval = NegInf) ->
  select_best results NegInf None = None.
Proof.
  intros Hall.
  destruct (select_best_first_best results NegInf None)
    as [[Esel _]|(pre & mv & eval & post & -> & _ & Hlt & _)]; [exact Esel|].
  rewrite (Hall mv eval) in Hlt by (apply in_elt).
  discriminate.
Qed.

(** When every task has run before the results are collected, the
    collection loop is the reduction. *)
Lemma collect_loop_done (depth : positive) (results : list (Move * score)) :
  forall best_eval best_move s,
    collect_loop depth (map (fun x => (fst x, Some (snd x))) results)
                 best_eval best_move s
    = (select_best results best_eval best_move, s).
Proof.
  induction results as [|[mv eval] rest IH]; intros best_eval best_move s.
  - reflexivity.
  - cbn [map collect_loop fst snd]; unfold bind, ret.
    destruct (gtb eval best_eval) eqn:Egt; cbn [select_best]; rewrite Egt;
      apply IH.
Qed.

(** When every task runs as it is submitted, the submission loop hands
    the collection loop one finished result per move, in the order of
    the moves. *)
Lemma submit_loop_eager (depth : positive) (moves : list Move) :
  forall s, exists results s',
    submit_loop depth moves eager s
    = (map (fun x => (fst x, Some (snd x))) results, s')
    /\ map fst results = moves.
Proof.
  induction moves as [|mv rest IH]; intros s.
  - exists [], s; split; reflexivity.
  - cbn [submit_loop]; unfold bind, board_push, board_pop, ret, eager;
      cbn [hd tl fst snd].
    destruct (minimax (task_depth depth) NegInf PosInf false (push (fst s) mv, snd s))
      as [eval s1].
    destruct (IH (pop (fst s1), snd s1)) as (results & s' & Esub & Emoves).
    unfold eager in Esub; rewrite Esub.
    exists ((mv, eval) :: results), s'; split; [reflexivity|].
    cbn [map fst]; now rewrite Emoves.
Qed.

(** Under that schedule [get_best_move] is the reduction over the legal
    moves in their order. *)
Lemma get_best_move_eager (depth : positive) (threads : Z) (s : state) :
  0 < threads ->
  exists results s',
    get_best_move depth threads eager s
    = Some ((select_best results NegInf None, List.length results), s')
    /\ map fst results = legal_moves (fst s).
Proof.
  intros Hthreads; unfold get_best_move.
  replace (threads <=? 0) with false by (symmetry; apply Z.leb_gt; lia).
  destruct (submit_loop_eager depth (legal_moves (fst s)) s)
    as (results & s' & Esub & Emoves).
  exists results, s'; split; [|exact Emoves].
  unfold bind, ret; rewrite Esub, collect_loop_done.
  now rewrite length_map.
Qed.

(** ** The claims about the evaluator and the dispatcher *)

(** C2, as amended.  A checkmate is scored from White's side, not from
    the side to move: [-inf], strictly below the evaluation of every
    position that is not a checkmate, when White is to move and mated;
    [+inf], strictly above all of them, when Black is. *)
Theorem checkmate_scored_from_whites_side (board : Board) :
  is_checkmate board = true ->
  evaluate_board board = (if turn board then NegInf else PosInf)
  /\ forall other, is_checkmate other = false ->
       if turn board
       then (evaluate_board board < evaluate_board other)%score
       else (evaluate_board other < evaluate_board board)%score.
Proof.
  intros Hmate.
  rewrite (evaluate_board_checkmate _ Hmate); split; [reflexivity|].
  intros other Hother.
  destruct (evaluate_board_finite _ Hother) as [z ->].
  destruct (turn board); reflexivity.
Qed.

(** C6. With no legal root move, [get_best_move] returns [None]: the
    loops run zero times, so no task is submitted to the pool, nothing
    is raised, and the board and the table are left as they were,
    whatever the depth and the schedule, for a pool of at least one
    worker. *)
Theorem no_legal_move_no_move_available
        (depth : positive) (threads : Z) (sched : schedule) (b : Board) (t : table) :
  0 < threads ->
  legal_moves b = [] ->
  get_best_move depth threads sched (b, t) = Some ((None, 0%nat), (b, t)).
Proof.
  intros Hthreads Hnone; unfold get_best_move; cbn [fst snd].
  replace (threads <=? 0) with false by (symmetry; apply Z.leb_gt; lia).
  rewrite Hnone; reflexivity.
Qed.

End WithRules.

End AiymaFacts.


(* ================================================================== *)
(** * The engine on the small rules engine                             *)
(* ================================================================== *)

Module ToyFacts.
Import AiymaChessZero AiymaFacts Toy.

(** The small rules engine keeps the contract of the library: [pop]
    undoes [push], and a position has no legal move exactly when the
    game is over. *)
Lemma toy_pop_undoes_push : @pop_undoes_push rules.
Proof. intros s m _; reflexivity. Qed.

Lemma toy_game_over (s : list node) :
  legal_moves s = [] <-> is_game_over s = true.
Proof.
  cbn; destruct (current s); cbn; split; intros E; try reflexivity;
    discriminate.
Qed.

(** On the small rules engine, without the table, pruned and plain
    search of [root] agree on the minimax value 1400. *)
Lemma toy_pruning_without_table :
  fst (minimax_nocache 3 NegInf PosInf true (at_node root, [])) = Fin 1400
  /\ fst (minimax_plain 3 NegInf PosInf true (at_node root, [])) = Fin 1400.
Proof.
  assert (Hplain : fst (minimax_plain 3 NegInf PosInf true (at_node root, []))
                   = Fin 1400) by (vm_compute; reflexivity).
  split; [|exact Hplain].
  rewrite <- Hplain.
  exact (@pruning_without_table_is_exact rules toy_pop_undoes_push
           3%nat true (at_node root) []).
Qed.

(** C2, the claim as stated fails: [bmate] is a checkmate with Black to
    move, [rr] is not a checkmate, and the evaluation of [bmate] is not
    below that of [rr]. *)
Lemma checkmated_black_not_below_others :
  is_checkmate (at_node bmate) = true
  /\ turn (at_node bmate) = false
  /\ is_checkmate (at_node rr) = false
  /\ ~ (evaluate_board (at_node bmate) < evaluate_board (at_node rr))%score.
Proof.
  split; [reflexivity|split; [reflexivity|split; [reflexivity|]]].
  vm_compute; discriminate.
Qed.

Lemma checkmate_scored_from_whites_side_witness :
  is_checkmate (at_node bmate) = true
  /\ evaluate_board (at_node bmate) = PosInf
  /\ (evaluate_board (at_node rr) < evaluate_board (at_node bmate))%score.
Proof.
  destruct (@checkmate_scored_from_whites_side rules (at_node bmate) eq_refl)
    as [Hinf Hother].
  split; [reflexivity|split].
  - exact Hinf.
  - exact (Hother (at_node rr) eq_refl).
Defined.

Lemma no_legal_move_no_move_available_witness :
  0 < 4
  /\ legal_moves (at_node wmate) = []
  /\ get_best_move 10 4 eager (at_node wmate, [])
     = Some ((None, 0%nat), (at_node wmate, [])).
Proof.
  split; [reflexivity|split; [reflexivity|]].
  exact (@no_legal_move_no_move_available rules 10 4 eager (at_node wmate) []
           eq_refl eq_refl).
Defined.

(** C1. What the code does where the claim fails: in [minimax] a score
    cut short by [beta <= alpha] is stored in the table as if it were
    exact.  From the empty table and the full window, the search of
    [root] to depth 3 returns 900 with the cutoff and 1400 with the
    cutoff removed: [x] is cut off below [a] after its first move and
    stored as 900, and that entry answers the probe of [x] below [b]. *)
Theorem pruning_changes_the_cached_score :
  fst (minimax 3 NegInf PosInf true (at_node root, [])) = Fin 900
  /\ fst (minimax_noprune 3 NegInf PosInf true (at_node root, [])) = Fin 1400.
Proof. split; vm_compute; reflexivity. Qed.

(** C3. What the code does where the claim fails: the same search
    returns 900 with the table and 1400 without it; the table holds 900
    for [x] at depth 1, whose search without the table returns 1800. *)
Theorem cache_changes_the_score :
  fst (minimax 3 NegInf PosInf true (at_node root, [])) = Fin 900
  /\ fst (minimax_nocache 3 NegInf PosInf true (at_node root, [])) = Fin 1400
  /\ lookup (snd (snd (minimax 3 NegInf PosInf true (at_node root, []))))
            (fen (at_node x), 1%nat) = Some (Fin 900)
  /\ fst (minimax_nocache 1 NegInf PosInf true (at_node x, [])) = Fin 1800.
Proof. split; [|split; [|split]]; vm_compute; reflexivity. Qed.

(** C4. What the code does where the claim fails: the table of
    piece-square tables has no entry for rook, queen and king, their
    bonus is 0 on every square, and a position with two rooks is scored
    by material alone. *)
Theorem rook_queen_king_have_no_table :
  (PIECE_SQUARE_TABLES ROOK = None
   /\ PIECE_SQUARE_TABLES QUEEN = None
   /\ PIECE_SQUARE_TABLES KING = None)
  /\ (forall square,
         pst_value ROOK square = 0
         /\ pst_value QUEEN square = 0
         /\ pst_value KING square = 0)
  /\ evaluate_board (at_node rr) = Fin (PIECE_VALUES ROOK + PIECE_VALUES ROOK).
Proof.
  split; [split; [reflexivity|split; reflexivity]|split].
  - intros square; unfold pst_value; cbn [PIECE_SQUARE_TABLES].
    rewrite nth_repeat; auto.
  - vm_compute; reflexivity.
Qed.

(** C8. What the code does where the claim fails: for the one position
    [p], depth 3 and four workers, [get_best_move] returns [b] on a
    fresh engine and [c] on an engine that has searched [q] before (the
    table then holds the cut-off score of [x]); and on a fresh engine it
    returns [c] when the pool runs the tasks only after the submission
    loop, because they then all search the shared board as the loop
    left it. *)
Theorem best_move_depends_on_cache_and_schedule :
  let fresh : table := [] in
  let used : table := table_after (get_best_move 3 4 eager (at_node q, fresh)) in
  returned_move (get_best_move 3 4 eager (at_node p, fresh)) = Some (Some b)
  /\ returned_move (get_best_move 3 4 eager (at_node p, used)) = Some (Some c)
  /\ returned_move (get_best_move 3 4 [false; false] (at_node p, fresh))
     = Some (Some c).
Proof. split; [|split]; vm_compute; reflexivity. Qed.

End ToyFacts.


(* ================================================================== *)
(** * Claims about both engines                                        *)
(* ================================================================== *)

(** C5. What the code does where the claim fails: the best move starts
    as [None] and is replaced only by a score strictly above [-inf], so
    when every move scores [-inf] no move is returned although legal
    moves exist.  In the standalone engine, at the depth 8 of
    [handle_go], the one legal move of [stuck_position] scores [-inf];
    in the dispatcher, at the default depth 10, both moves of [lost]
    do. *)
Theorem all_moves_lost_returns_no_move :
  (ChessEngine.generate_legal_moves ChessEngine.stuck_position
   = Some [((1, 0), (0, 0))]
   /\ ChessEngine.alpha_beta 8 NegInf PosInf true ChessEngine.stuck_position
      = Some ((NegInf, None), ChessEngine.stuck_position)
   /\ ChessEngine.get_best_move 8 ChessEngine.stuck_position
      = Some (None, ChessEngine.stuck_position))
  /\ (@AiymaChessZero.legal_moves Toy.rules (Toy.at_node Toy.lost)
      = [Toy.l1; Toy.l2]
      /\ AiymaChessZero.returned_move
           (@AiymaChessZero.get_best_move Toy.rules 10 4 AiymaChessZero.eager
                                          (Toy.at_node Toy.lost, []))
         = Some None
      /\ AiymaChessZero.submitted
           (@AiymaChessZero.get_best_move Toy.rules 10 4 AiymaChessZero.eager
                                          (Toy.at_node Toy.lost, []))
         = Some 2%nat).
Proof.
  split; [split; [|split]|split; [|split]]; vm_compute; reflexivity.
Qed.

(** C9. The search leaves the position unchanged.  [minimax] returns the
    board object as it received it, for every depth, window, side and
    table, provided [pop] undoes [push]; [alpha_beta], whenever it
    returns, returns the engine (board and side to move) as it received
    it, the early exit of the cutoff included. *)
Theorem search_leaves_position_unchanged :
  (forall (R : AiymaChessZero.RulesEngine),
      AiymaChessZero.pop_undoes_push ->
      forall depth alpha beta mx b t,
        fst (snd (AiymaChessZero.minimax depth alpha beta mx (b, t))) = b)
  /\ (forall depth alpha beta mx e res e',
         ChessEngine.alpha_beta depth alpha beta mx e = Some (res, e') ->
         e' = e).
Proof.
  split.
  - intros R Hpop depth alpha beta mx b t.
    apply AiymaFacts.minimax_keeps_board, Hpop.
  - intros depth alpha beta mx e res e'.
    apply ChessEngineFacts.alpha_beta_restores.
Qed.

Lemma search_leaves_position_unchanged_witness :
  @AiymaChessZero.pop_undoes_push Toy.rules
  /\ fst (snd (@AiymaChessZero.minimax Toy.rules 3 NegInf PosInf true
                                       (Toy.at_node Toy.root, [])))
     = Toy.at_node Toy.root
  /\ exists res e',
      ChessEngine.alpha_beta 3 NegInf PosInf true ChessEngine.init = Some (res, e')
      /\ e' = ChessEngine.init.
Proof.
  assert (Hab : ChessEngine.alpha_beta 3 NegInf PosInf true ChessEngine.init
                = Some ((Fin 0, Some ((6, 0), (5, 0))), ChessEngine.init))
    by (vm_compute; reflexivity).
  destruct search_leaves_position_unchanged as [Hminimax Halpha].
  split; [|split].
  - exact ToyFacts.toy_pop_undoes_push.
  - exact (Hminimax Toy.rules ToyFacts.toy_pop_undoes_push
                    3%nat NegInf PosInf true (Toy.at_node Toy.root) []).
  - eexists _, _; split; [exact Hab|].
    exact (Halpha _ _ _ _ _ _ _ Hab).
Defined.


(* ================================================================== *)
(** * More about the standalone engine                                 *)
(* ================================================================== *)

Module ChessEngineMore.
Import Py PyFacts ChessEngine ChessEngineFacts.

(** ** The evaluation along the search *)

Lemma fold_values_concat (rows : list (list piece)) : forall acc,
  fold_left (fun score row =>
               fold_left (fun score p => score + PIECE_VALUES_get p) row score)
            rows acc
  = fold_left (fun score p => score + PIECE_VALUES_get p) (concat rows) acc.
Proof.
  induction rows as [|row rest IH]; intros acc; cbn [concat fold_left].
  - reflexivity.
  - now rewrite IH, fold_left_app.
Qed.

Lemma fold_values_permutation (l l' : list piece) :
  Permutation l l' ->
  forall acc,
    fold_left (fun score p => score + PIECE_VALUES_get p) l acc
    = fold_left (fun score p => score + PIECE_VALUES_get p) l' acc.
Proof.
  induction 1 as [|x l l' _ IH|x y l|l l' l'' _ IH1 _ IH2]; intros acc;
    cbn [fold_left].
  - reflexivity.
  - apply IH.
  - f_equal; lia.
  - now rewrite IH1.
Qed.

(** The evaluation depends on the multiset of squares only. *)
Lemma evaluate_permutation (e e' : engine) :
  Permutation (concat (board e)) (concat (board e')) ->
  evaluate e = evaluate e'.
Proof.
  intros P; unfold evaluate.
  rewrite !fold_values_concat.
  now apply fold_values_permutation.
Qed.

Lemma evaluate_on_path (e e' : engine) :
  search_path e e' -> evaluate e' = evaluate e.
Proof.
  intros Hpath; symmetry.
  apply evaluate_permutation, search_path_permutation, Hpath.
Qed.

Lemma generated_move_keeps_evaluation (e e1 : engine) moves mv :
  generate_legal_moves e = Some moves ->
  In mv moves ->
  make_move mv e = Some (tt, e1) ->
  evaluate e1 = evaluate e.
Proof.
  intros Eg Hin Em.
  apply evaluate_on_path.
  eapply path_step; eauto using path_here.
Qed.

(** X1. The evaluation is the same at every position of a search path:
    the generated moves only permute the squares. *)
Theorem evaluate_constant_on_search_path (e e' : engine) :
  search_path e e' -> evaluate e' = evaluate e.
Proof. apply evaluate_on_path. Qed.

Lemma evaluate_constant_on_search_path_witness :
  exists e1 e2,
    search_path init e2
    /\ make_move ((6, 4), (4, 4)) init = Some (tt, e1)
    /\ make_move ((1, 4), (3, 4)) e1 = Some (tt, e2)
    /\ evaluate e2 = evaluate init.
Proof.
  destruct (make_move ((6, 4), (4, 4)) init) as [[[] e1]|] eqn:E1;
    [|vm_compute in E1; discriminate].
  destruct (make_move ((1, 4), (3, 4)) e1) as [[[] e2]|] eqn:E2;
    [|revert E2; injection E1 as <-; vm_compute; discriminate].
  assert (Hpath : search_path init e2).
  { eapply path_step with (mv := ((6, 4), (4, 4))); [reflexivity| |exact E1|].
    - vm_compute; tauto.
    - injection E1 as <-.
      eapply path_step with (mv := ((1, 4), (3, 4))); [reflexivity| |exact E2|].
      + vm_compute; tauto.
      + apply path_here. }
  exists e1, e2; split; [exact Hpath|split; [reflexivity|split; [exact E2|]]].
  exact (evaluate_constant_on_search_path init e2 Hpath).
Defined.

(** ** The scores and the moves a search returns *)

Lemma max_loop_flat rec moves e :
  (forall alpha beta mx, restores (rec alpha beta mx)) ->
  (forall mv e1 alpha beta mx r e2,
      In mv moves -> make_move mv e = Some (tt, e1) ->
      rec alpha beta mx e1 = Some (r, e2) -> flat_score e (fst r)) ->
  forall alpha beta max_eval best_move res e',
    flat_score e max_eval ->
    max_loop rec moves alpha beta max_eval best_move e = Some (res, e') ->
    flat_score e (fst res).
Proof.
  intros Hres; induction moves as [|mv rest IH];
    intros Hrec alpha beta max_eval best_move res e' Hflat.
  - cbn; unfold ret; now intros [= <- _].
  - rewrite max_loop_cons.
    destruct (visit (rec alpha beta false) mv e) as [[r e1]|] eqn:Ev;
      [|discriminate].
    pose proof (visit_restores _ mv (Hres alpha beta false) _ _ _ Ev); subst e1.
    destruct (visit_inv _ _ _ _ _ Ev) as (captured & e1 & e2 & _ & Em & Es & _).
    assert (Hr : flat_score e (fst r))
      by (eapply Hrec; [left; reflexivity|exact Em|exact Es]).
    assert (Hnew : flat_score e (if gtb (fst r) max_eval then fst r else max_eval))
      by (destruct (gtb (fst r) max_eval); assumption).
    cbv zeta; destruct (leb beta (Score.max alpha (fst r))).
    + now intros [= <- _].
    + apply IH; [|exact Hnew].
      intros mv' e1' a b mx r' e2' Hin; apply Hrec; right; exact Hin.
Qed.

Lemma min_loop_flat rec moves e :
  (forall alpha beta mx, restores (rec alpha beta mx)) ->
  (forall mv e1 alpha beta mx r e2,
      In mv moves -> make_move mv e = Some (tt, e1) ->
      rec alpha beta mx e1 = Some (r, e2) -> flat_score e (fst r)) ->
  forall alpha beta min_eval best_move res e',
    flat_score e min_eval ->
    min_loop rec moves alpha beta min_eval best_move e = Some (res, e') ->
    flat_score e (fst res).
Proof.
  intros Hres; induction moves as [|mv rest IH];
    intros Hrec alpha beta min_eval best_move res e' Hflat.
  - cbn; unfold ret; now intros [= <- _].
  - rewrite min_loop_cons.
    destruct (visit (rec alpha beta true) mv e) as [[r e1]|] eqn:Ev;
      [|discriminate].
    pose proof (visit_restores _ mv (Hres alpha beta true) _ _ _ Ev); subst e1.
    destruct (visit_inv _ _ _ _ _ Ev) as (captured & e1 & e2 & _ & Em & Es & _).
    assert (Hr : flat_score e (fst r))
      by (eapply Hrec; [left; reflexivity|exact Em|exact Es]).
    assert (Hnew : flat_score e (if ltb (fst r) min_eval then fst r else min_eval))
      by (destruct (ltb (fst r) min_eval); assumption).
    cbv zeta; destruct (leb (Score.min beta (fst r)) alpha).
    + now intros [= <- _].
    + apply IH; [|exact Hnew].
      intros mv' e1' a b mx r' e2' Hin; apply Hrec; right; exact Hin.
Qed.

Lemma alpha_beta_flat depth : forall alpha beta mx e res e',
  alpha_beta depth alpha beta mx e = Some (res, e') ->
  flat_score e (fst res).
Proof.
  induction depth as [|d IH]; intros alpha beta mx e res e'.
  - cbn; intros [= <- _]; left; reflexivity.
  - cbn [alpha_beta]; unfold bind, read.
    destruct (generate_legal_moves e) as [[|mv rest]|] eqn:Eg; [| |discriminate].
    + unfold ret; intros [= <- _]; destruct mx; cbn; unfold flat_score; auto.
    + assert (Hrec : forall mv' e1 a b mx' r e2,
                 In mv' (mv :: rest) -> make_move mv' e = Some (tt, e1) ->
                 alpha_beta d a b mx' e1 = Some (r, e2) -> flat_score e (fst r)).
      { intros mv' e1 a b mx' r e2 Hin Em Er.
        apply IH in Er.
        unfold flat_score in *.
        now rewrite <- (generated_move_keeps_evaluation _ _ _ _ Eg Hin Em). }
      destruct mx.
      * apply max_loop_flat; [intros; apply alpha_beta_restores|exact Hrec|].
        unfold flat_score; auto.
      * apply min_loop_flat; [intros; apply alpha_beta_restores|exact Hrec|].
        unfold flat_score; auto.
Qed.

(** X2. Whatever the depth and the window, the score [alpha_beta]
    returns is the evaluation of the position it was called on, or one
    of the two infinities: no line of play changes the material. *)
Theorem alpha_beta_score_is_flat depth alpha beta mx e v best_move e' :
  alpha_beta depth alpha beta mx e = Some ((v, best_move), e') ->
  v = Fin (evaluate e) \/ v = NegInf \/ v = PosInf.
Proof. intros E; exact (alpha_beta_flat _ _ _ _ _ _ _ E). Qed.

Lemma alpha_beta_score_is_flat_witness :
  alpha_beta 3 NegInf PosInf true init = Some ((Fin 0, Some ((6, 0), (5, 0))), init)
  /\ (Fin 0 = Fin (evaluate init) \/ Fin 0 = NegInf \/ Fin 0 = PosInf).
Proof.
  assert (Hab : alpha_beta 3 NegInf PosInf true init
                = Some ((Fin 0, Some ((6, 0), (5, 0))), init))
    by (vm_compute; reflexivity).
  split; [exact Hab|].
  exact (alpha_beta_score_is_flat _ _ _ _ _ _ _ _ Hab).
Defined.

Lemma max_loop_best rec moves : forall alpha beta max_eval best_move e v bm e',
  max_loop rec moves alpha beta max_eval best_move e = Some ((v, bm), e') ->
  bm = best_move \/ exists mv, bm = Some mv /\ In mv moves.
Proof.
  induction moves as [|mv rest IH]; intros alpha beta max_eval best_move e v bm e'.
  - cbn; unfold ret; intros [= _ <- _]; now left.
  - rewrite max_loop_cons.
    destruct (visit (rec alpha beta false) mv e) as [[r e1]|]; [|discriminate].
    cbv zeta.
    assert (Hnew : (if gtb (fst r) max_eval then Some mv else best_move) = best_move
                   \/ (if gtb (fst r) max_eval then Some mv else best_move) = Some mv)
      by (destruct (gtb (fst r) max_eval); auto).
    destruct (leb beta (Score.max alpha (fst r))).
    + intros [= _ <- _].
      destruct Hnew as [->| ->]; [now left|right; exists mv; split; [reflexivity|now left]].
    + intros E; apply IH in E.
      destruct E as [->|(mv' & -> & Hin)].
      * destruct Hnew as [->| ->]; [now left|right; exists mv; split; [reflexivity|now left]].
      * right; exists mv'; split; [reflexivity|now right].
Qed.

Lemma min_loop_best rec moves : forall alpha beta min_eval best_move e v bm e',
  min_loop rec moves alpha beta min_eval best_move e = Some ((v, bm), e') ->
  bm = best_move \/ exists mv, bm = Some mv /\ In mv moves.
Proof.
  induction moves as [|mv rest IH]; intros alpha beta min_eval best_move e v bm e'.
  - cbn; unfold ret; intros [= _ <- _]; now left.
  - rewrite min_loop_cons.
    destruct (visit (rec alpha beta true) mv e) as [[r e1]|]; [|discriminate].
    cbv zeta.
    assert (Hnew : (if ltb (fst r) min_eval then Some mv else best_move) = best_move
                   \/ (if ltb (fst r) min_eval then Some mv else best_move) = Some mv)
      by (destruct (ltb (fst r) min_eval); auto).
    destruct (leb (Score.min beta (fst r)) alpha).
    + intros [= _ <- _].
      destruct Hnew as [->| ->]; [now left|right; exists mv; split; [reflexivity|now left]].
    + intros E; apply IH in E.
      destruct E as [->|(mv' & -> & Hin)].
      * destruct Hnew as [->| ->]; [now left|right; exists mv; split; [reflexivity|now left]].
      * right; exists mv'; split; [reflexivity|now right].
Qed.

Lemma alpha_beta_best_move depth alpha beta mx e v mv e' :
  alpha_beta depth alpha beta mx e = Some ((v, Some mv), e') ->
  exists moves,
    generate_legal_moves e = Some moves /\ In mv moves /\ pawn_push e mv.
Proof.
  destruct depth as [|d]; [cbn; discriminate|].
  cbn [alpha_beta]; unfold bind, read.
  destruct (generate_legal_moves e) as [moves|] eqn:Eg; [|discriminate].
  intros E.
  assert (Hin : In mv moves).
  { destruct moves as [|mv0 rest]; [cbn in E; unfold ret in E; discriminate|].
    destruct mx.
    - apply max_loop_best in E; destruct E as [E|(mv' & [= ->] & Hin)];
        [discriminate|exact Hin].
    - apply min_loop_best in E; destruct E as [E|(mv' & [= ->] & Hin)];
        [discriminate|exact Hin]. }
  exists moves; split; [reflexivity|split; [exact Hin|]].
  eapply generated_pawn_push; eauto.
Qed.



(** ** What [make_move] and [undo_move] do to the board *)

Lemma locate_in_grid (b : board_t) r c i j :
  locate b r c = Some (i, j) -> exists x, get2 b i j = Some x.
Proof.
  unfold locate, get2.
  destruct (norm_index (length b) r) as [k|]; [|discriminate].
  destruct (nth_error b k) as [row|] eqn:Erow; [|discriminate].
  destruct (norm_index (length row) c) as [k'|] eqn:Ek'; [|discriminate].
  intros [= <- <-]; rewrite Erow.
  apply norm_index_lt in Ek'.
  destruct (nth_error row k') eqn:E; eauto.
  apply nth_error_None in E; lia.
Qed.

Lemma cell_none_locate (b : board_t) r c :
  cell b r c = None <-> locate b r c = None.
Proof.
  rewrite cell_locate.
  destruct (locate b r c) as [[i j]|] eqn:El; [|tauto].
  destruct (locate_in_grid _ _ _ _ _ El) as [x ->]; split; discriminate.
Qed.

Lemma make_move_fails (mv : move) (e : engine) :
  make_move mv e = None
  <-> cell (board e) (fst (fst mv)) (snd (fst mv)) = None
      \/ cell (board e) (fst (snd mv)) (snd (snd mv)) = None.
Proof.
  split.
  - intros Em.
    destruct (cell (board e) (fst (fst mv)) (snd (fst mv))) as [x|] eqn:Ef; [|now left].
    destruct (cell (board e) (fst (snd mv)) (snd (snd mv))) as [y|] eqn:Et; [|now right].
    rewrite cell_locate in Ef, Et.
    destruct (locate (board e) (fst (fst mv)) (snd (fst mv))) as [[i j]|] eqn:Lf;
      [|discriminate].
    destruct (locate (board e) (fst (snd mv)) (snd (snd mv))) as [[i' j']|] eqn:Lt;
      [|discriminate].
    rewrite (make_move_ok mv e i j i' j' x Lf Lt Ef) in Em; discriminate.
  - intros H.
    destruct (make_move mv e) as [[[] e']|] eqn:Em; [|reflexivity].
    destruct (make_move_inv _ _ _ _ Em) as (i & j & i' & j' & x & Lf & Lt & Ex & _).
    rewrite !cell_none_locate in H; destruct H as [H|H]; congruence.
Qed.

Lemma undo_move_fails (mv : move) (captured : piece) (e : engine) :
  undo_move mv captured e = None
  <-> cell (board e) (fst (fst mv)) (snd (fst mv)) = None
      \/ cell (board e) (fst (snd mv)) (snd (snd mv)) = None.
Proof.
  split.
  - intros Em.
    destruct (cell (board e) (fst (fst mv)) (snd (fst mv))) as [x|] eqn:Ef; [|now left].
    destruct (cell (board e) (fst (snd mv)) (snd (snd mv))) as [y|] eqn:Et; [|now right].
    rewrite cell_locate in Ef, Et.
    destruct (locate (board e) (fst (fst mv)) (snd (fst mv))) as [[i j]|] eqn:Lf;
      [|discriminate].
    destruct (locate (board e) (fst (snd mv)) (snd (snd mv))) as [[i' j']|] eqn:Lt;
      [|discriminate].
    rewrite (undo_move_ok mv captured e i j i' j' y Lf Lt Et) in Em; discriminate.
  - intros H.
    destruct mv as [[fr fc] [tr tc]]; cbn [fst snd] in *.
    unfold undo_move, bind, read, assign, flip_turn; cbn [fst snd board white_to_move].
    destruct (cell (board e) tr tc) as [y|] eqn:Et; [|reflexivity].
    destruct H as [H|H]; [|discriminate].
    rewrite set_cell_locate.
    apply cell_none_locate in H; now rewrite H.
Qed.

(** X4. [make_move] and [undo_move] raise [IndexError] exactly when the
    origin or the destination of the move is not a square of the board,
    that is when a row or column index lies outside [-len, len). *)
Theorem moves_fail_off_the_board (mv : move) (captured_piece : piece) (e : engine) :
  (make_move mv e = None
   <-> cell (board e) (fst (fst mv)) (snd (fst mv)) = None
       \/ cell (board e) (fst (snd mv)) (snd (snd mv)) = None)
  /\ (undo_move mv captured_piece e = None
      <-> cell (board e) (fst (fst mv)) (snd (fst mv)) = None
          \/ cell (board e) (fst (snd mv)) (snd (snd mv)) = None).
Proof. split; [apply make_move_fails|apply undo_move_fails]. Qed.

Lemma update_same {A} (l : list A) k x :
  nth_error l k = Some x -> update l k x = l.
Proof.
  revert k; induction l as [|h t IH]; intros [|k]; cbn; try discriminate.
  - now intros [= ->].
  - intros E; now rewrite IH.
Qed.

Lemma map_update {A B} (f : A -> B) (l : list A) k v :
  map f (update l k v) = update (map f l) k (f v).
Proof.
  revert k; induction l as [|h t IH]; intros [|k]; cbn; auto.
  now rewrite IH.
Qed.

Lemma shape_upd2 (b : board_t) i j v : shape (upd2 b i j v) = shape b.
Proof.
  unfold shape, upd2.
  destruct (nth_error b i) as [row|] eqn:Ei; [|reflexivity].
  rewrite map_update, length_update.
  apply update_same.
  now rewrite nth_error_map, Ei.
Qed.

Lemma standard_shape_spec (b : board_t) :
  standard_shape b <-> shape b = repeat 8%nat 8.
Proof.
  unfold standard_shape, shape; split.
  - intros [Hlen Hrows].
    do 9 (destruct b as [|? b]; try discriminate).
    repeat match goal with
           | H : Forall _ (_ :: _) |- _ => inversion H; clear H; subst
           end.
    cbn; congruence.
  - intros E.
    do 9 (destruct b as [|? b]; try discriminate).
    cbn in E; injection E as E0 E1 E2 E3 E4 E5 E6 E7.
    split; [reflexivity|repeat constructor; assumption].
Qed.

Lemma make_move_shape (mv : move) (e e' : engine) (u : unit) :
  make_move mv e = Some (u, e') -> shape (board e') = shape (board e).
Proof.
  intros Em.
  destruct (make_move_inv _ _ _ _ Em) as (i & j & i' & j' & x & _ & _ & _ & ->).
  cbn [board]; now rewrite !shape_upd2.
Qed.

Lemma undo_move_shape (mv : move) (captured : piece) (e e' : engine) (u : unit) :
  undo_move mv captured e = Some (u, e') -> shape (board e') = shape (board e).
Proof.
  destruct mv as [[fr fc] [tr tc]].
  unfold undo_move, bind, read, assign, flip_turn; cbn [fst snd board white_to_move].
  destruct (cell (board e) tr tc) as [y|]; [|discriminate].
  rewrite set_cell_locate.
  destruct (locate (board e) fr fc) as [[i j]|]; [|discriminate].
  cbn [board white_to_move]; rewrite set_cell_locate.
  destruct (locate (upd2 (board e) i j y) tr tc) as [[i' j']|]; [|discriminate].
  intros [= _ <-]; cbn [board]; now rewrite !shape_upd2.
Qed.

(** X5. Neither [make_move] nor [undo_move] changes the shape of the
    board: the number of rows and the length of each row stay as they
    were, so an 8x8 board stays 8x8. *)
Theorem moves_keep_the_shape (mv : move) (captured_piece : piece) (e e' : engine) :
  make_move mv e = Some (tt, e') \/ undo_move mv captured_piece e = Some (tt, e') ->
  shape (board e') = shape (board e)
  /\ (standard_shape (board e) -> standard_shape (board e')).
Proof.
  intros H.
  assert (E : shape (board e') = shape (board e))
    by (destruct H as [H|H]; [eapply make_move_shape|eapply undo_move_shape]; eauto).
  split; [exact E|].
  rewrite !standard_shape_spec; congruence.
Qed.

Lemma init_standard_shape : standard_shape (board init).
Proof. split; [reflexivity|repeat constructor]. Qed.

Lemma moves_keep_the_shape_witness :
  exists e',
    make_move ((6, 4), (4, 4)) init = Some (tt, e')
    /\ shape (board e') = shape (board init)
    /\ standard_shape (board e').
Proof.
  destruct (make_move ((6, 4), (4, 4)) init) as [[[] e1]|] eqn:E1;
    [|vm_compute in E1; discriminate].
  exists e1; split; [reflexivity|].
  destruct (moves_keep_the_shape ((6, 4), (4, 4)) "."%char init e1 (or_introl E1))
    as [Hshape Hstd].
  split; [exact Hshape|exact (Hstd init_standard_shape)].
Defined.

(** The board after a completed [make_move], read at any square. *)
Lemma cell_after_make_move (mv : move) (e e' : engine) (u : unit) :
  make_move mv e = Some (u, e') ->
  exists i j i' j' x,
    locate (board e) (fst (fst mv)) (snd (fst mv)) = Some (i, j)
    /\ locate (board e) (fst (snd mv)) (snd (snd mv)) = Some (i', j')
    /\ cell (board e) (fst (fst mv)) (snd (fst mv)) = Some x
    /\ white_to_move e' = negb (white_to_move e)
    /\ forall r c a k,
        locate (board e) r c = Some (a, k) ->
        cell (board e') r c
        = if Nat.eqb a i && Nat.eqb k j then Some empty_sq
          else if Nat.eqb a i' && Nat.eqb k j' then Some x
               else cell (board e) r c.
Proof.
  intros Em.
  destruct (make_move_inv _ _ _ _ Em) as (i & j & i' & j' & x & Lf & Lt & Ex & ->).
  exists i, j, i', j', x; cbn [board white_to_move].
  split; [exact Lf|split; [exact Lt|split; [|split; [reflexivity|]]]].
  - now rewrite cell_locate, Lf.
  - intros r c a k La.
    destruct (locate_in_grid _ _ _ _ _ Lt) as [y Ey].
    rewrite !cell_locate, !locate_upd2, La, !get2_upd2, Ey.
    destruct (Nat.eqb a i && Nat.eqb k j) eqn:E1.
    + assert (Hik : Nat.eqb i i' && Nat.eqb j j' = true \/ Nat.eqb i i' && Nat.eqb j j' = false)
        by (destruct (Nat.eqb i i' && Nat.eqb j j'); auto).
      destruct Hik as [-> | ->]; [reflexivity|now rewrite Ex].
    + reflexivity.
Qed.

(** X6. A completed [make_move] passes the turn, leaves the origin
    empty, puts the moved piece on the destination unless origin and
    destination are the same square (then the piece is gone), and
    changes no other square. *)
Theorem make_move_effect (mv : move) (e e' : engine) :
  make_move mv e = Some (tt, e') ->
  let from_sq := locate (board e) (fst (fst mv)) (snd (fst mv)) in
  let to_sq := locate (board e) (fst (snd mv)) (snd (snd mv)) in
  white_to_move e' = negb (white_to_move e)
  /\ cell (board e') (fst (fst mv)) (snd (fst mv)) = Some empty_sq
  /\ (from_sq <> to_sq ->
      cell (board e') (fst (snd mv)) (snd (snd mv))
      = cell (board e) (fst (fst mv)) (snd (fst mv)))
  /\ (from_sq = to_sq ->
      cell (board e') (fst (snd mv)) (snd (snd mv)) = Some empty_sq)
  /\ (forall r c,
         locate (board e) r c <> from_sq ->
         locate (board e) r c <> to_sq ->
         cell (board e') r c = cell (board e) r c).
Proof.
  intros Em; cbv zeta.
  destruct (cell_after_make_move _ _ _ _ Em)
    as (i & j & i' & j' & x & Lf & Lt & Ex & Hturn & Hcell).
  rewrite Lf, Lt, Ex.
  split; [exact Hturn|split; [|split; [|split]]].
  - rewrite (Hcell _ _ _ _ Lf), !Nat.eqb_refl; reflexivity.
  - intros Hne; rewrite (Hcell _ _ _ _ Lt), !Nat.eqb_refl.
    destruct (Nat.eqb_spec i' i) as [->|]; [|reflexivity].
    destruct (Nat.eqb_spec j' j) as [->|]; [congruence|reflexivity].
  - intros [= -> ->]; rewrite (Hcell _ _ _ _ Lt), !Nat.eqb_refl; reflexivity.
  - intros r c Hf Ht.
    destruct (locate (board e) r c) as [[a k]|] eqn:La.
    + rewrite (Hcell _ _ _ _ La).
      destruct (Nat.eqb_spec a i) as [->|]; cbn [andb].
      * destruct (Nat.eqb_spec k j) as [->|]; [congruence|].
        destruct (Nat.eqb_spec i i') as [->|]; cbn [andb]; [|reflexivity].
        destruct (Nat.eqb_spec k j') as [->|]; [congruence|reflexivity].
      * destruct (Nat.eqb_spec a i') as [->|]; cbn [andb]; [|reflexivity].
        destruct (Nat.eqb_spec k j') as [->|]; [congruence|reflexivity].
    + apply cell_none_locate in La as Hc; rewrite Hc.
      apply cell_none_locate.
      destruct (make_move_inv _ _ _ _ Em) as (? & ? & ? & ? & ? & _ & _ & _ & ->).
      cbn [board]; now rewrite !locate_upd2.
Qed.

(** The null move e2e2 from the start position removes the e-pawn. *)
Lemma make_move_effect_witness :
  exists e',
    make_move ((6, 4), (6, 4)) init = Some (tt, e')
    /\ white_to_move e' = false
    /\ cell (board e') 6 4 = Some empty_sq
    /\ cell (board e') 6 3 = Some "P"%char.
Proof.
  destruct (make_move ((6, 4), (6, 4)) init) as [[[] e1]|] eqn:E1;
    [|vm_compute in E1; discriminate].
  exists e1; split; [reflexivity|].
  destruct (make_move_effect _ _ _ E1) as (Hturn & Hfrom & _ & Hsame & Hother).
  split; [exact Hturn|split; [exact (Hsame eq_refl)|]].
  rewrite (Hother 6 3); [reflexivity| |]; vm_compute; discriminate.
Defined.

(** ** When the move generator raises *)

Lemma row_moves_raises e r row : forall c,
  row_moves e r c row = None <->
  exists k pc,
    nth_error row k = Some pc
    /\ isupper pc = white_to_move e
    /\ generate_piece_moves e (r, c + Z.of_nat k) pc = None.
Proof.
  induction row as [|pc rest IH]; intros c; cbn [row_moves].
  - split; [discriminate|intros (k & pc & E & _); destruct k; discriminate].
  - destruct (Bool.eqb (isupper pc) (white_to_move e)
              && negb (Ascii.eqb pc empty_sq)) eqn:Ecase.
    + apply andb_prop in Ecase as [Eup _]; apply eqb_prop in Eup.
      destruct (generate_piece_moves e (r, c) pc) as [ms1|] eqn:E1.
      * destruct (row_moves e r (c + 1) rest) as [ms2|] eqn:E2.
        -- split; [discriminate|].
           intros ([|k] & pc' & Ek & Eup' & Eg); cbn [nth_error] in Ek.
           ++ injection Ek as <-; rewrite Z.add_0_r in Eg; congruence.
           ++ assert (row_moves e r (c + 1) rest = None) as Hn; [|congruence].
              apply IH; exists k, pc'; repeat split; auto.
              now replace (c + 1 + Z.of_nat k) with (c + Z.of_nat (S k)) by lia.
        -- split; [intros _|reflexivity].
           apply IH in E2; destruct E2 as (k & pc' & Ek & Eup' & Eg).
           exists (S k), pc'; repeat split; auto.
           now replace (c + Z.of_nat (S k)) with (c + 1 + Z.of_nat k) by lia.
      * split; [intros _|reflexivity].
        exists O, pc; rewrite Z.add_0_r; auto.
    + rewrite IH; split.
      * intros (k & pc' & Ek & Eup' & Eg).
        exists (S k), pc'; repeat split; auto.
        now replace (c + Z.of_nat (S k)) with (c + 1 + Z.of_nat k) by lia.
      * intros ([|k] & pc' & Ek & Eup' & Eg); cbn [nth_error] in Ek.
        -- injection Ek as <-; rewrite Z.add_0_r in Eg.
           (* the piece fails the test of the loop: it is an empty square *)
           exfalso.
           rewrite Eup', eqb_reflx in Ecase; cbn in Ecase.
           apply negb_false_iff in Ecase.
           destruct (Ascii.eqb_spec pc empty_sq) as [->|]; [|discriminate].
           cbn in Eg; discriminate.
        -- exists k, pc'; repeat split; auto.
           now replace (c + 1 + Z.of_nat k) with (c + Z.of_nat (S k)) by lia.
Qed.

Lemma rows_moves_raises e rows : forall r,
  rows_moves e r rows = None <->
  exists i row k pc,
    nth_error rows i = Some row
    /\ nth_error row k = Some pc
    /\ isupper pc = white_to_move e
    /\ generate_piece_moves e (r + Z.of_nat i, Z.of_nat k) pc = None.
Proof.
  induction rows as [|row rest IH]; intros r; cbn [rows_moves].
  - split; [discriminate|intros (i & ? & ? & ? & E & _); destruct i; discriminate].
  - destruct (row_moves e r 0 row) as [ms1|] eqn:E1.
    + assert (Hrow : ~ exists k pc, nth_error row k = Some pc
                                    /\ isupper pc = white_to_move e
                                    /\ generate_piece_moves e (r, 0 + Z.of_nat k) pc = None)
        by (rewrite <- row_moves_raises; congruence).
      destruct (rows_moves e (r + 1) rest) as [ms2|] eqn:E2.
      * split; [discriminate|].
        intros ([|i] & row' & k & pc & Ei & Ek & Eup & Eg); cbn [nth_error] in Ei.
        -- injection Ei as <-; exfalso; apply Hrow.
           exists k, pc; rewrite Z.add_0_r in Eg; auto.
        -- assert (rows_moves e (r + 1) rest = None) as Hn; [|congruence].
           apply IH; exists i, row', k, pc; repeat split; auto.
           now replace (r + 1 + Z.of_nat i) with (r + Z.of_nat (S i)) by lia.
      * split; [intros _|reflexivity].
        apply IH in E2; destruct E2 as (i & row' & k & pc & Ei & Ek & Eup & Eg).
        exists (S i), row', k, pc; repeat split; auto.
        now replace (r + Z.of_nat (S i)) with (r + 1 + Z.of_nat i) by lia.
    + split; [intros _|reflexivity].
      apply row_moves_raises in E1; destruct E1 as (k & pc & Ek & Eup & Eg).
      exists O, row, k, pc; rewrite Z.add_0_r; rewrite Z.add_0_l in Eg; auto.
Qed.

Lemma norm_index_in_range (n : nat) (i : Z) :
  - Z.of_nat n <= i < Z.of_nat n -> exists k, norm_index n i = Some k.
Proof.
  intros Hi; unfold norm_index.
  destruct (0 <=? i) eqn:E1, (i <? Z.of_nat n) eqn:E2; cbn; eauto.
  - apply Z.ltb_ge in E2; lia.
  - destruct (- Z.of_nat n <=? i) eqn:E3, (i <? 0) eqn:E4; cbn; eauto.
    + apply Z.ltb_ge in E4; apply Z.leb_gt in E1; lia.
    + apply Z.leb_gt in E3; lia.
    + apply Z.leb_gt in E3; lia.
  - apply Z.ltb_ge in E2; apply Z.leb_gt in E1; lia.
Qed.

Lemma norm_index_beyond (n : nat) (i : Z) :
  Z.of_nat n <= i -> norm_index n i = None.
Proof.
  intros Hi; unfold norm_index.
  replace (i <? Z.of_nat n) with false by (symmetry; apply Z.ltb_ge; lia).
  replace (i <? 0) with false by (symmetry; apply Z.ltb_ge; lia).
  now rewrite !andb_false_r.
Qed.

(** On an 8x8 board every index pair within [-8, 8) is a square. *)
Lemma cell_on_standard_board (b : board_t) (r c : Z) :
  standard_shape b -> -8 <= r < 8 -> -8 <= c < 8 ->
  exists x, cell b r c = Some x.
Proof.
  intros [Hlen Hrows] Hr Hc.
  destruct (cell b r c) as [x|] eqn:E; [eauto|exfalso].
  apply cell_none_locate in E; unfold locate in E; rewrite Hlen in E.
  destruct (norm_index_in_range 8 r Hr) as [i Ei]; rewrite Ei in E.
  destruct (nth_error b i) as [row|] eqn:Erow.
  - assert (Hrow : length row = 8%nat).
    { rewrite Forall_forall in Hrows; apply Hrows.
      eapply nth_error_In; eauto. }
    rewrite Hrow in E.
    destruct (norm_index_in_range 8 c Hc) as [j Ej]; rewrite Ej in E; discriminate.
  - apply nth_error_None in Erow; apply norm_index_lt in Ei; lia.
Qed.

Lemma cell_below_standard_board (b : board_t) (c : Z) :
  standard_shape b -> cell b 8 c = None.
Proof.
  intros [Hlen _]; unfold cell, getitem; rewrite Hlen.
  now rewrite (norm_index_beyond 8 8).
Qed.

Lemma is_pawn_cases (pc : piece) :
  is_pawn pc = true -> pc = "P"%char \/ pc = "p"%char.
Proof.
  unfold is_pawn; intros H; apply orb_prop in H.
  destruct H as [H|H]; apply Ascii.eqb_eq in H; auto.
Qed.

(** One piece of an 8x8 board makes the generator raise only if it is a
    black pawn on the last row. *)
Lemma generate_piece_moves_raises (e : engine) (i k : nat) (pc : piece) :
  standard_shape (board e) ->
  (i < 8)%nat -> (k < 8)%nat ->
  generate_piece_moves e (Z.of_nat i, Z.of_nat k) pc = None ->
  pc = "p"%char /\ i = 7%nat.
Proof.
  intros Hstd Hi Hk; unfold generate_piece_moves.
  destruct (is_pawn pc) eqn:Ep; [|discriminate].
  destruct (is_pawn_cases _ Ep) as [-> | ->]; cbn [isupper nat_of_ascii].
  - change (isupper "P"%char) with true; cbv iota.
    destruct (cell_on_standard_board (board e) (Z.of_nat i + -1) (Z.of_nat k) Hstd)
      as [x ->]; [lia|lia|].
    destruct (Ascii.eqb x empty_sq); [|discriminate].
    destruct (Z.eqb_spec (Z.of_nat i) 6) as [E6|]; [|discriminate].
    destruct (cell_on_standard_board (board e) (Z.of_nat i + 2 * -1) (Z.of_nat k) Hstd)
      as [y ->]; [lia|lia|].
    destruct (Ascii.eqb y empty_sq); discriminate.
  - change (isupper "p"%char) with false; cbv iota.
    destruct (Nat.eq_dec i 7) as [->|Hne]; [auto|].
    destruct (cell_on_standard_board (board e) (Z.of_nat i + 1) (Z.of_nat k) Hstd)
      as [x ->]; [lia|lia|].
    destruct (Ascii.eqb x empty_sq); [|discriminate].
    destruct (Z.eqb_spec (Z.of_nat i) 1) as [E1|]; [|discriminate].
    destruct (cell_on_standard_board (board e) (Z.of_nat i + 2 * 1) (Z.of_nat k) Hstd)
      as [y ->]; [lia|lia|].
    destruct (Ascii.eqb y empty_sq); discriminate.
Qed.

Lemma standard_positions (b : board_t) (i k : nat) (row : list piece) (pc : piece) :
  standard_shape b ->
  nth_error b i = Some row -> nth_error row k = Some pc ->
  (i < 8)%nat /\ (k < 8)%nat.
Proof.
  intros [Hlen Hrows] Ei Ek.
  assert (Hrow : length row = 8%nat).
  { rewrite Forall_forall in Hrows; apply Hrows; eapply nth_error_In; eauto. }
  split.
  - rewrite <- Hlen; apply nth_error_Some; congruence.
  - rewrite <- Hrow; apply nth_error_Some; congruence.
Qed.

Lemma generator_raises_iff (e : engine) :
  standard_shape (board e) ->
  (generate_legal_moves e = None
   <-> white_to_move e = false
       /\ exists c : nat, cell (board e) 7 (Z.of_nat c) = Some "p"%char).
Proof.
  intros Hstd; unfold generate_legal_moves; rewrite rows_moves_raises; split.
  - intros (i & row & k & pc & Ei & Ek & Eup & Eg); rewrite Z.add_0_l in Eg.
    destruct (standard_positions _ _ _ _ _ Hstd Ei Ek) as [Hi Hk].
    destruct (generate_piece_moves_raises e i k pc Hstd Hi Hk Eg) as [-> ->].
    split; [now rewrite <- Eup|].
    exists k; exact (cell_nat _ _ _ _ _ Ei Ek).
  - intros [Hturn [c Ec]].
    rewrite cell_locate in Ec.
    destruct (locate (board e) 7 (Z.of_nat c)) as [[i j]|] eqn:El; [|discriminate].
    assert (Hi : i = 7%nat).
    { unfold locate in El; destruct Hstd as [Hlen _]; rewrite Hlen in El.
      change (norm_index 8 7) with (Some 7%nat) in El; cbv beta iota in El.
      destruct (nth_error (board e) 7) as [row|]; [|discriminate].
      destruct (norm_index (length row) (Z.of_nat c)); [|discriminate].
      now injection El. }
    subst i; unfold get2 in Ec.
    destruct (nth_error (board e) 7) as [row|] eqn:Erow; [|discriminate].
    exists 7%nat, row, j, "p"%char; repeat split; auto.
    unfold generate_piece_moves; cbn [is_pawn Ascii.eqb orb].
    change (is_pawn "p"%char) with true; change (isupper "p"%char) with false; cbv iota.
    change (0 + Z.of_nat 7 + 1) with 8.
    now rewrite cell_below_standard_board.
Qed.

(** X7. On an 8x8 board [generate_legal_moves] raises [IndexError]
    exactly when Black is to move and a black pawn stands on the last
    row (row 7): the pawn looks one row further, at [board[8]]. *)
Theorem generator_raises_on_black_pawn_on_last_row (e : engine) :
  standard_shape (board e) ->
  (generate_legal_moves e = None
   <-> white_to_move e = false
       /\ exists c : nat, cell (board e) 7 (Z.of_nat c) = Some "p"%char).
Proof. apply generator_raises_iff. Qed.

(** After [position startpos moves e7e1] the black e-pawn stands on the
    last row with Black to move, and the generator raises. *)
Lemma generator_raises_on_black_pawn_on_last_row_witness :
  exists e1,
    make_move ((1, 4), (7, 4)) init = Some (tt, e1)
    /\ standard_shape (board e1)
    /\ generate_legal_moves e1 = None.
Proof.
  destruct (make_move ((1, 4), (7, 4)) init) as [[[] e1]|] eqn:E1;
    [|vm_compute in E1; discriminate].
  assert (Hstd : standard_shape (board e1)).
  { apply standard_shape_spec; rewrite (make_move_shape _ _ _ _ E1); reflexivity. }
  exists e1; split; [reflexivity|split; [exact Hstd|]].
  apply (generator_raises_on_black_pawn_on_last_row e1 Hstd).
  injection E1 as <-; split; [reflexivity|exists 4%nat; reflexivity].
Defined.

(** ** A white pawn on row 0 *)

Lemma row_moves_complete e r row : forall c ms k pc ms' mv,
  row_moves e r c row = Some ms ->
  nth_error row k = Some pc ->
  isupper pc = white_to_move e ->
  pc <> empty_sq ->
  generate_piece_moves e (r, c + Z.of_nat k) pc = Some ms' ->
  In mv ms' -> In mv ms.
Proof.
  induction row as [|pc0 rest IH]; intros c ms k pc ms' mv; cbn [row_moves].
  - destruct k; discriminate.
  - intros E Ek Eup Hne Eg Hin.
    destruct k as [|k]; cbn [nth_error] in Ek.
    + injection Ek as ->; rewrite Z.add_0_r in Eg.
      rewrite Eup, eqb_reflx in E.
      destruct (Ascii.eqb_spec pc empty_sq) as [|_]; [contradiction|].
      cbn [negb andb] in E; rewrite Eg in E.
      destruct (row_moves e r (c + 1) rest); [|discriminate].
      injection E as <-; apply in_or_app; now left.
    + replace (c + Z.of_nat (S k)) with (c + 1 + Z.of_nat k) in Eg by lia.
      destruct (Bool.eqb (isupper pc0) (white_to_move e)
                && negb (Ascii.eqb pc0 empty_sq)).
      * destruct (generate_piece_moves e (r, c) pc0); [|discriminate].
        destruct (row_moves e r (c + 1) rest) as [ms2|] eqn:E2; [|discriminate].
        injection E as <-; apply in_or_app; right.
        eapply IH; eauto.
      * eapply IH; eauto.
Qed.

Lemma rows_moves_complete e rows : forall r ms i row k pc ms' mv,
  rows_moves e r rows = Some ms ->
  nth_error rows i = Some row ->
  nth_error row k = Some pc ->
  isupper pc = white_to_move e ->
  pc <> empty_sq ->
  generate_piece_moves e (r + Z.of_nat i, Z.of_nat k) pc = Some ms' ->
  In mv ms' -> In mv ms.
Proof.
  induction rows as [|row0 rest IH]; intros r ms i row k pc ms' mv; cbn [rows_moves].
  - destruct i; discriminate.
  - intros E Ei Ek Eup Hne Eg Hin.
    destruct (row_moves e r 0 row0) as [ms1|] eqn:E1; [|discriminate].
    destruct (rows_moves e (r + 1) rest) as [ms2|] eqn:E2; [|discriminate].
    injection E as <-; apply in_or_app.
    destruct i as [|i]; cbn [nth_error] in Ei.
    + injection Ei as ->; left; rewrite Z.add_0_r in Eg.
      eapply row_moves_complete; eauto.
    + right.
      replace (r + Z.of_nat (S i)) with (r + 1 + Z.of_nat i) in Eg by lia.
      eapply IH; eauto.
Qed.

Lemma cell_minus_one (b : board_t) (c : Z) :
  standard_shape b -> cell b (-1) c = cell b 7 c.
Proof.
  intros [Hlen _]; unfold cell, getitem; rewrite Hlen; reflexivity.
Qed.

Lemma cell_of_nat_inv (b : board_t) (i k : nat) (pc : piece) :
  standard_shape b -> (i < 8)%nat -> (k < 8)%nat ->
  cell b (Z.of_nat i) (Z.of_nat k) = Some pc ->
  locate b (Z.of_nat i) (Z.of_nat k) = Some (i, k)
  /\ exists row, nth_error b i = Some row /\ nth_error row k = Some pc.
Proof.
  intros [Hlen Hrows] Hi Hk Ec.
  destruct (nth_error b i) as [row|] eqn:Ei;
    [|apply nth_error_None in Ei; lia].
  assert (Hrow : length row = 8%nat).
  { rewrite Forall_forall in Hrows; apply Hrows; eapply nth_error_In; eauto. }
  destruct (nth_error row k) as [x|] eqn:Ek;
    [|apply nth_error_None in Ek; lia].
  rewrite (cell_nat _ _ _ _ _ Ei Ek) in Ec; injection Ec as ->.
  split; [eapply locate_nat; eauto|eauto].
Qed.

(** X8. On an 8x8 board with White to move, a white pawn on row 0 whose
    column is empty on row 7 is given the move to row [-1]; Python reads
    [board[-1]] as the last row, so making the move puts the pawn on
    row 7. *)
Theorem white_pawn_wraps_around (e : engine) (c : nat) :
  standard_shape (board e) ->
  white_to_move e = true ->
  (c < 8)%nat ->
  cell (board e) 0 (Z.of_nat c) = Some "P"%char ->
  cell (board e) 7 (Z.of_nat c) = Some empty_sq ->
  exists moves e',
    generate_legal_moves e = Some moves
    /\ In ((0, Z.of_nat c), (-1, Z.of_nat c)) moves
    /\ make_move ((0, Z.of_nat c), (-1, Z.of_nat c)) e = Some (tt, e')
    /\ cell (board e') 7 (Z.of_nat c) = Some "P"%char
    /\ cell (board e') 0 (Z.of_nat c) = Some empty_sq.
Proof.
  intros Hstd Hturn Hc Epawn Eempty.
  destruct (generate_legal_moves e) as [moves|] eqn:Eg;
    [|apply generator_raises_iff in Eg; [destruct Eg; congruence|exact Hstd]].
  destruct (cell_of_nat_inv _ 0 c _ Hstd ltac:(lia) Hc Epawn)
    as (L0 & row0 & Erow0 & Ek0).
  destruct (cell_of_nat_inv _ 7 c _ Hstd ltac:(lia) Hc Eempty)
    as (L7 & row7 & Erow7 & Ek7).
  change (Z.of_nat 0) with 0 in L0; change (Z.of_nat 7) with 7 in L7.
  assert (Egp : generate_piece_moves e (0 + Z.of_nat 0, Z.of_nat c) "P"%char
                = Some [((0, Z.of_nat c), (-1, Z.of_nat c))]).
  { unfold generate_piece_moves.
    change (is_pawn "P"%char) with true; change (isupper "P"%char) with true.
    cbv iota; change (0 + Z.of_nat 0 + -1) with (-1).
    rewrite (cell_minus_one _ _ Hstd), Eempty.
    reflexivity. }
  assert (Hin : In ((0, Z.of_nat c), (-1, Z.of_nat c)) moves).
  { eapply (rows_moves_complete e (board e) 0 moves 0%nat row0 c "P"%char);
      eauto; [discriminate|now left]. }
  assert (Lm : locate (board e) (-1) (Z.of_nat c) = Some (7%nat, c)).
  { destruct Hstd as [Hlen _]; revert L7; unfold locate; rewrite Hlen; trivial. }
  pose proof (make_move_ok ((0, Z.of_nat c), (-1, Z.of_nat c)) e
                           0%nat c 7%nat c "P"%char L0 Lm) as Em.
  cbn [fst snd] in Em.
  assert (Eg0 : get2 (board e) 0 c = Some "P"%char)
    by (unfold get2; now rewrite Erow0).
  specialize (Em Eg0).
  eexists moves, _; split; [reflexivity|split; [exact Hin|split; [exact Em|]]].
  destruct (cell_after_make_move _ _ _ _ Em)
    as (i & j & i' & j' & x & Lf & Lt & Ex & _ & Hcell).
  cbn [fst snd] in Lf, Lt, Ex.
  rewrite L0 in Lf; injection Lf as <- <-.
  rewrite Lm in Lt; injection Lt as <- <-.
  rewrite Epawn in Ex; injection Ex as <-.
  split.
  - rewrite (Hcell _ _ _ _ L7); cbn [Nat.eqb andb].
    now rewrite Nat.eqb_refl.
  - rewrite (Hcell _ _ _ _ L0); cbn [Nat.eqb andb].
    now rewrite Nat.eqb_refl.
Qed.

(** ** Which generated moves stay on the board *)

(** On an 8x8 board only the row indices from -8 to 7 name a square. *)
Lemma cell_row_in_range (b : board_t) (r c : Z) (x : piece) :
  standard_shape b -> cell b r c = Some x -> -8 <= r < 8.
Proof.
  intros [Hlen _] Hcell.
  destruct (Z_lt_ge_dec r (-8)) as [Hlow|Hlow];
    [|destruct (Z_lt_ge_dec r 8) as [Hup|Hup]; [lia|]]; exfalso;
    revert Hcell; unfold cell, getitem, norm_index; rewrite Hlen;
    change (Z.of_nat 8) with 8.
  - replace (0 <=? r) with false by (symmetry; apply Z.leb_gt; lia).
    replace (- (8) <=? r) with false by (symmetry; apply Z.leb_gt; lia).
    cbn [andb]; discriminate.
  - replace (r <? 8) with false by (symmetry; apply Z.ltb_ge; lia).
    replace (r <? 0) with false by (symmetry; apply Z.ltb_ge; lia).
    rewrite !andb_false_r; cbn; discriminate.
Qed.

(** On an 8x8 board every generated move starts on a square of the
    board and is a pawn push between two squares of the board, with one
    exception: the step of a white pawn that stands on row 0, which
    goes to index [-1]. *)
Lemma generated_move_squares (e : engine) (moves : list move) (mv : move) :
  standard_shape (board e) ->
  generate_legal_moves e = Some moves ->
  In mv moves ->
  on_board (fst mv)
  /\ (board_pawn_push e mv
      \/ (white_to_move e = true
          /\ fst (fst mv) = 0
          /\ snd mv = (-1, snd (fst mv)))).
Proof.
  intros Hstd Eg Hin.
  pose proof (generated_pawn_push _ _ _ Eg Hin) as Hpush.
  unfold generate_legal_moves in Eg.
  destruct (rows_moves_spec _ _ _ _ _ Eg Hin)
    as (i & row & k & pc & ms' & Ei & Ek & Eup & Egp & Hin').
  rewrite Z.add_0_l in Egp.
  destruct (generate_piece_moves_spec _ _ _ _ _ _ Egp Hin')
    as (Hpawn & Hfrom & Hto & Hstep).
  destruct (standard_positions _ _ _ _ _ Hstd Ei Ek) as [Hi Hk].
  pose proof (cell_row_in_range _ _ _ _ Hstd Hto) as Hrow.
  assert (Hon : on_board (fst mv)) by (rewrite Hfrom; unfold on_board; cbn [fst snd]; lia).
  split; [exact Hon|].
  destruct mv as [from_pos to_pos]; cbn [fst snd] in *; subst from_pos.
  unfold board_pawn_push, on_board; cbn [fst snd].
  destruct (isupper pc) eqn:Eupper.
  - destruct Hstep as [->|(Hr & _ & ->)]; cbn [fst snd] in *.
    + destruct (Nat.eq_dec i 0) as [->|Hne].
      * right; repeat split; auto.
      * left; split; [exact Hpush|lia].
    + left; split; [exact Hpush|lia].
  - left; split; [exact Hpush|].
    destruct Hstep as [->|(Hr & _ & ->)]; cbn [fst snd] in *; lia.
Qed.

End ChessEngineMore.


(* ================================================================== *)
(** * More about the python-chess engine                               *)
(* ================================================================== *)

Module AiymaMore.
Import AiymaChessZero AiymaFacts.

(** ** The table *)

Lemma key_eqb_spec (k1 k2 : key) : reflect (k1 = k2) (key_eqb k1 k2).
Proof.
  destruct k1 as [f1 d1], k2 as [f2 d2]; unfold key_eqb; cbn [fst snd].
  destruct (String.eqb_spec f1 f2) as [->|Hf]; cbn [andb].
  - destruct (Nat.eqb_spec d1 d2) as [->|Hd]; constructor; congruence.
  - constructor; congruence.
Qed.

Lemma lookup_store_same (t : table) (k : key) (v : score) :
  lookup (store t k v) k = Some v.
Proof.
  induction t as [|[k' v'] rest IH]; cbn [store lookup].
  - now destruct (key_eqb_spec k k).
  - destruct (key_eqb k k') eqn:E; cbn [lookup]; rewrite E; auto.
Qed.

Lemma lookup_store_other (t : table) (k k2 : key) (v : score) :
  k2 <> k -> lookup (store t k v) k2 = lookup t k2.
Proof.
  intros Hne; induction t as [|[k' v'] rest IH]; cbn [store lookup].
  - destruct (key_eqb_spec k2 k); [contradiction|reflexivity].
  - destruct (key_eqb_spec k k') as [<-|Hk]; cbn [lookup].
    + destruct (key_eqb_spec k2 k); [contradiction|reflexivity].
    + now rewrite IH.
Qed.

Lemma extends_refl (t : table) : extends t t.
Proof. intros k v E; exact E. Qed.

Lemma extends_trans (t1 t2 t3 : table) :
  extends t1 t2 -> extends t2 t3 -> extends t1 t3.
Proof. intros H12 H23 k v E; auto. Qed.

(** Storing under a key the table does not hold keeps every entry. *)
Lemma extends_store (t : table) (k : key) (v : score) :
  lookup t k = None -> extends t (store t k v).
Proof.
  intros Hnone k2 v2 E.
  rewrite lookup_store_other; [exact E|congruence].
Qed.

Section WithRules.
Context `{RulesEngine}.

(** ** The evaluator and the side to move *)

Lemma square_term_flips (b b' : Board) (square : nat) :
  piece_at b' square = piece_at b square ->
  turn b' = negb (turn b) ->
  square_term b' square = - square_term b square.
Proof.
  unfold square_term; intros -> ->.
  destruct (piece_at b square) as [piece|]; [|reflexivity].
  destruct (color piece), (turn b); cbn; lia.
Qed.

Lemma fold_square_terms_flip (b b' : Board) (squares : list nat) :
  (forall square, square_term b' square = - square_term b square) ->
  forall acc,
    fold_left (fun eval_score square => eval_score + square_term b' square)
              squares (- acc)
    = - fold_left (fun eval_score square => eval_score + square_term b square)
                  squares acc.
Proof.
  intros Hflip; induction squares as [|sq rest IH]; intros acc; cbn [fold_left].
  - reflexivity.
  - rewrite <- IH; f_equal; rewrite Hflip; lia.
Qed.

(** X9. The heuristic score is relative to the side to move: two
    positions that are not terminal and differ only in the side to move
    get opposite scores. *)
Theorem evaluate_board_flips_with_turn (b b' : Board) :
  (forall square, piece_at b' square = piece_at b square) ->
  turn b' = negb (turn b) ->
  is_checkmate b = false -> is_checkmate b' = false ->
  is_stalemate b || is_insufficient_material b = false ->
  is_stalemate b' || is_insufficient_material b' = false ->
  exists z, evaluate_board b = Fin z /\ evaluate_board b' = Fin (- z).
Proof.
  intros Hpieces Hturn Hm Hm' Hd Hd'.
  unfold evaluate_board; rewrite Hm, Hm', Hd, Hd'.
  eexists; split; [reflexivity|]; f_equal.
  change 0 with (- 0) at 1.
  apply fold_square_terms_flip.
  intros square; apply square_term_flips; auto.
Qed.

(** ** What a search leaves in the table *)

Lemma max_loop_extends rec :
  (forall alpha beta mx s, extends (snd s) (snd (snd (rec alpha beta mx s)))) ->
  forall moves alpha beta max_eval s,
    extends (snd s) (snd (snd (max_loop rec moves alpha beta max_eval s))).
Proof.
  intros Hrec moves; induction moves as [|mv rest IH]; intros alpha beta max_eval s.
  - apply extends_refl.
  - cbn [max_loop]; unfold bind, board_push, board_pop; cbn [fst snd].
    pose proof (Hrec alpha beta false (push (fst s) mv, snd s)) as H1.
    destruct (rec alpha beta false (push (fst s) mv, snd s)) as [eval [b1 t1]].
    cbn [fst snd] in *.
    destruct (leb beta (Score.max alpha eval)); [exact H1|].
    eapply extends_trans; [exact H1|].
    exact (IH (Score.max alpha eval) beta (Score.max max_eval eval) (pop b1, t1)).
Qed.

Lemma min_loop_extends rec :
  (forall alpha beta mx s, extends (snd s) (snd (snd (rec alpha beta mx s)))) ->
  forall moves alpha beta min_eval s,
    extends (snd s) (snd (snd (min_loop rec moves alpha beta min_eval s))).
Proof.
  intros Hrec moves; induction moves as [|mv rest IH]; intros alpha beta min_eval s.
  - apply extends_refl.
  - cbn [min_loop]; unfold bind, board_push, board_pop; cbn [fst snd].
    pose proof (Hrec alpha beta true (push (fst s) mv, snd s)) as H1.
    destruct (rec alpha beta true (push (fst s) mv, snd s)) as [eval [b1 t1]].
    cbn [fst snd] in *.
    destruct (leb (Score.min beta eval) alpha); [exact H1|].
    eapply extends_trans; [exact H1|].
    exact (IH alpha (Score.min beta eval) (Score.min min_eval eval) (pop b1, t1)).
Qed.

Lemma minimax_extends depth : forall alpha beta mx s,
  extends (snd s) (snd (snd (minimax depth alpha beta mx s))).
Proof.
  induction depth as [|d IH]; intros alpha beta mx [b t]; cbn [minimax fst snd].
  - destruct (lookup t (fen b, O)) eqn:El; [apply extends_refl|].
    now apply extends_store.
  - destruct (lookup t (fen b, S d)) eqn:El; [apply extends_refl|].
    destruct (is_game_over b); [now apply extends_store|].
    assert (Hstore : forall (r : score * state),
               extends t (snd (snd r)) ->
               extends t (store (snd (snd r)) (fen b, S d) (fst r))).
    { intros r Hr k v E.
      rewrite lookup_store_other; [auto|congruence]. }
    destruct mx; unfold bind, table_store, ret.
    + pose proof (max_loop_extends (minimax d) IH (legal_moves b)
                                   alpha beta NegInf (b, t)) as Hl.
      destruct (max_loop (minimax d) (legal_moves b) alpha beta NegInf (b, t))
        as [v [b1 t1]]; exact (Hstore (v, (b1, t1)) Hl).
    + pose proof (min_loop_extends (minimax d) IH (legal_moves b)
                                   alpha beta PosInf (b, t)) as Hl.
      destruct (min_loop (minimax d) (legal_moves b) alpha beta PosInf (b, t))
        as [v [b1 t1]]; exact (Hstore (v, (b1, t1)) Hl).
Qed.

Lemma minimax_records depth alpha beta mx b t :
  lookup (snd (snd (minimax depth alpha beta mx (b, t)))) (fen b, depth)
  = Some (fst (minimax depth alpha beta mx (b, t))).
Proof.
  destruct depth as [|d]; cbn [minimax fst snd].
  - destruct (lookup t (fen b, O)) eqn:El; [exact El|apply lookup_store_same].
  - destruct (lookup t (fen b, S d)) eqn:El; [exact El|].
    destruct (is_game_over b); [apply lookup_store_same|].
    destruct mx; unfold bind, table_store, ret.
    + destruct (max_loop (minimax d) (legal_moves b) alpha beta NegInf (b, t))
        as [v [b1 t1]]; apply lookup_store_same.
    + destruct (min_loop (minimax d) (legal_moves b) alpha beta PosInf (b, t))
        as [v [b1 t1]]; apply lookup_store_same.
Qed.

(** X10. When [minimax] returns, the table holds the returned score
    under the position and depth it was called with, whether the score
    came from the table, from the evaluator or from the loop. *)
Theorem minimax_records_its_result depth alpha beta mx (b : Board) (t : table) :
  lookup (snd (snd (minimax depth alpha beta mx (b, t)))) (fen b, depth)
  = Some (fst (minimax depth alpha beta mx (b, t))).
Proof. apply minimax_records. Qed.

(** X11. A search never changes or removes an entry of the table: every
    entry present before [minimax] is present after it with the same
    score.  The table only grows. *)
Theorem minimax_only_adds_entries depth alpha beta mx (s : state) (k : key) (v : score) :
  lookup (snd s) k = Some v ->
  lookup (snd (snd (minimax depth alpha beta mx s))) k = Some v.
Proof. apply minimax_extends. Qed.

(** X12. Once a position has been searched to some depth, a second
    search of it to that depth returns the first score and changes
    nothing, whatever window and side it is given. *)
Theorem minimax_repeats_its_first_answer
        depth alpha beta mx alpha' beta' mx' (b : Board) (t : table) :
  pop_undoes_push ->
  minimax depth alpha' beta' mx' (snd (minimax depth alpha beta mx (b, t)))
  = minimax depth alpha beta mx (b, t).
Proof.
  intros Hpop.
  pose proof (minimax_keeps_board Hpop depth alpha beta mx b t) as Hb.
  pose proof (minimax_records depth alpha beta mx b t) as Hl.
  destruct (minimax depth alpha beta mx (b, t)) as [v [b1 t1]].
  cbn [fst snd] in *; subst b1.
  destruct depth; cbn [minimax fst snd]; now rewrite Hl.
Qed.

(** ** The dispatcher under any schedule *)

Lemma submit_loop_lists_moves depth moves : forall sched s,
  map fst (fst (submit_loop depth moves sched s)) = moves.
Proof.
  induction moves as [|mv rest IH]; intros sched s.
  - reflexivity.
  - cbn [submit_loop]; unfold bind, board_push, board_pop, ret; cbn [fst snd].
    destruct (hd true sched).
    + destruct (minimax (task_depth depth) NegInf PosInf false (push (fst s) mv, snd s))
        as [a s2].
      specialize (IH (tl sched) (pop (fst s2), snd s2)).
      destruct (submit_loop depth rest (tl sched) (pop (fst s2), snd s2))
        as [fs s3].
      cbn [fst map] in *; now f_equal.
    + cbn [fst snd].
      specialize (IH (tl sched) (pop (push (fst s) mv), snd s)).
      destruct (submit_loop depth rest (tl sched)
                            (pop (push (fst s) mv), snd s)) as [fs s3].
      cbn [fst map] in *; now f_equal.
Qed.

Lemma collect_loop_choice depth futures : forall best_eval best_move s,
  fst (collect_loop depth futures best_eval best_move s) = best_move
  \/ exists mv, fst (collect_loop depth futures best_eval best_move s) = Some mv
                /\ In mv (map fst futures).
Proof.
  induction futures as [|[mv r] rest IH]; intros best_eval best_move s.
  - now left.
  - cbn [collect_loop map fst]; unfold bind.
    destruct (match r with
              | Some eval => ret eval
              | None => minimax (task_depth depth) NegInf PosInf false
              end s) as [eval s1].
    destruct (gtb eval best_eval).
    + destruct (IH eval (Some mv) s1) as [E|(mv' & E & Hin)].
      * right; exists mv; split; [exact E|now left].
      * right; exists mv'; split; [exact E|now right].
    + destruct (IH best_eval best_move s1) as [E|(mv' & E & Hin)].
      * now left.
      * right; exists mv'; split; [exact E|now right].
Qed.

(** X13. With [self.depth] at least 1 (so that no task searches below
    depth 0), a pool of at least one worker and under any schedule,
    [get_best_move] submits exactly one task per legal move, and the
    move it returns, if any, is one of the legal moves of the position. *)
Theorem dispatcher_returns_a_legal_move
        (depth : positive) (threads : Z) (sched : schedule) (s : state) :
  0 < threads ->
  exists best s',
    get_best_move depth threads sched s
    = Some ((best, List.length (legal_moves (fst s))), s')
    /\ forall mv, best = Some mv -> In mv (legal_moves (fst s)).
Proof.
  intros Hthreads; unfold get_best_move.
  replace (threads <=? 0) with false by (symmetry; apply Z.leb_gt; lia).
  unfold bind, ret.
  pose proof (submit_loop_lists_moves depth (legal_moves (fst s)) sched s) as Hmoves.
  destruct (submit_loop depth (legal_moves (fst s)) sched s) as [futures s1].
  cbn [fst] in Hmoves.
  pose proof (collect_loop_choice depth futures NegInf None s1) as Hbest.
  destruct (collect_loop depth futures NegInf None s1) as [best s2].
  cbn [fst] in Hbest.
  exists best, s2; split.
  - now rewrite <- Hmoves, length_map.
  - intros mv ->.
    destruct Hbest as [E|(mv' & [= ->] & Hin)]; [discriminate|].
    now rewrite <- Hmoves.
Qed.

Lemma submit_loop_keeps depth moves (b : Board) :
  pop_undoes_push ->
  (forall m, In m moves -> pop (push b m) = b) ->
  forall sched t,
    fst (snd (submit_loop depth moves sched (b, t))) = b
    /\ extends t (snd (snd (submit_loop depth moves sched (b, t)))).
Proof.
  intros Hpop; induction moves as [|mv rest IH]; intros Hmoves sched t.
  - split; [reflexivity|apply extends_refl].
  - cbn [submit_loop]; unfold bind, board_push, board_pop, ret; cbn [fst snd].
    assert (Hrest : forall m, In m rest -> pop (push b m) = b)
      by (intros m Hm; apply Hmoves; now right).
    destruct (hd true sched).
    + pose proof (minimax_keeps_board Hpop (task_depth depth) NegInf PosInf false
                                      (push b mv) t) as Hb.
      pose proof (minimax_extends (task_depth depth) NegInf PosInf false (push b mv, t))
        as Ht.
      destruct (minimax (task_depth depth) NegInf PosInf false (push b mv, t))
        as [a [b1 t1]].
      cbn [fst snd] in *; subst b1.
      rewrite Hmoves by now left.
      destruct (IH Hrest (tl sched) t1) as [Hb' Ht'].
      destruct (submit_loop depth rest (tl sched) (b, t1)) as [fs s3].
      cbn [fst snd] in *; split; [exact Hb'|eapply extends_trans; eauto].
    + cbn [fst snd]; rewrite Hmoves by now left.
      destruct (IH Hrest (tl sched) t) as [Hb' Ht'].
      destruct (submit_loop depth rest (tl sched) (b, t)) as [fs s3].
      cbn [fst snd] in *; split; assumption.
Qed.

Lemma collect_loop_keeps depth futures (b : Board) :
  pop_undoes_push ->
  forall best_eval best_move t,
    fst (snd (collect_loop depth futures best_eval best_move (b, t))) = b
    /\ extends t (snd (snd (collect_loop depth futures best_eval best_move (b, t)))).
Proof.
  intros Hpop; induction futures as [|[mv r] rest IH]; intros best_eval best_move t.
  - split; [reflexivity|apply extends_refl].
  - cbn [collect_loop]; unfold bind.
    assert (Hstep : exists eval t1,
               match r with
               | Some eval => ret eval
               | None => minimax (task_depth depth) NegInf PosInf false
               end (b, t) = (eval, (b, t1)) /\ extends t t1).
    { destruct r as [eval|].
      - exists eval, t; split; [reflexivity|apply extends_refl].
      - pose proof (minimax_keeps_board Hpop (task_depth depth) NegInf PosInf false b t) as Hb.
        pose proof (minimax_extends (task_depth depth) NegInf PosInf false (b, t)) as Ht.
        destruct (minimax (task_depth depth) NegInf PosInf false (b, t)) as [a [b1 t1]].
        cbn [fst snd] in *; subst b1; eauto. }
    destruct Hstep as (eval & t1 & -> & Ht1).
    destruct (gtb eval best_eval).
    + destruct (IH eval (Some mv) t1) as [Hb' Ht'].
      split; [exact Hb'|eapply extends_trans; eauto].
    + destruct (IH best_eval best_move t1) as [Hb' Ht'].
      split; [exact Hb'|eapply extends_trans; eauto].
Qed.

(** X14. With [self.depth] at least 1 and when [pop] undoes [push],
    [get_best_move] hands the board back as it received it and keeps
    every entry the table held, under any schedule of the tasks. *)
Theorem dispatcher_restores_the_board
        (depth : positive) (threads : Z) (sched : schedule) (b : Board) (t : table)
        (r : option Move * nat) (b' : Board) (t' : table) :
  pop_undoes_push ->
  get_best_move depth threads sched (b, t) = Some (r, (b', t')) ->
  b' = b /\ extends t t'.
Proof.
  intros Hpop; unfold get_best_move.
  destruct (threads <=? 0); [discriminate|].
  unfold bind, ret; cbn [fst].
  destruct (submit_loop_keeps depth (legal_moves b) b Hpop (Hpop b) sched t)
    as [Hb1 Ht1].
  destruct (submit_loop depth (legal_moves b) sched (b, t)) as [futures [b1 t1]].
  cbn [fst snd] in *; subst b1.
  destruct (collect_loop_keeps depth futures b Hpop NegInf None t1) as [Hb2 Ht2].
  destruct (collect_loop depth futures NegInf None (b, t1)) as [best [b2 t2]].
  cbn [fst snd] in *; subst b2.
  intros [= _ <- <-]; split; [reflexivity|eapply extends_trans; eauto].
Qed.

End WithRules.

End AiymaMore.


(* ================================================================== *)
(** * The protocol adapter: notation, commands and the main loop       *)
(* ================================================================== *)

Module UCIFacts.
Import ChessEngine ChessEngineFacts ChessEngineMore UCIEngine.
Import String.

(** ** Move notation *)

Lemma chr_ord (c : ascii) : chr (ord c) = Some c.
Proof.
  unfold chr, ord.
  pose proof (nat_ascii_bounded c) as Hb.
  replace (0 <=? Z.of_nat (nat_of_ascii c)) with true
    by (symmetry; apply Z.leb_le; lia).
  replace (Z.of_nat (nat_of_ascii c) <? 256) with true
    by (symmetry; apply Z.ltb_lt; lia).
  cbn [andb]; now rewrite Nat2Z.id, ascii_nat_embedding.
Qed.

Lemma ord_chr (n : Z) (c : ascii) : chr n = Some c -> ord c = n.
Proof.
  unfold chr, ord.
  destruct (0 <=? n) eqn:E0; [|discriminate].
  destruct (n <? 256) eqn:E1; [|discriminate].
  cbn [andb]; intros [= <-].
  apply Z.leb_le in E0; apply Z.ltb_lt in E1.
  rewrite nat_ascii_embedding by lia; lia.
Qed.

(** A digit character prints back as itself. *)
Lemma str_of_digit_char (c : ascii) (d : Z) :
  int_of_char c = Some d -> str_of_int d = String c EmptyString.
Proof.
  destruct c as [[] [] [] [] [] [] [] []]; vm_compute;
    try discriminate; intros [= <-]; reflexivity.
Qed.

(** A number from 0 to 9 prints as one digit character. *)
Lemma digit_char_of_int (d : Z) :
  0 <= d <= 9 ->
  exists c, str_of_int d = String c EmptyString /\ int_of_char c = Some d.
Proof.
  intros Hd.
  assert (Hcases : d = 0 \/ d = 1 \/ d = 2 \/ d = 3 \/ d = 4
                   \/ d = 5 \/ d = 6 \/ d = 7 \/ d = 8 \/ d = 9) by lia.
  repeat (destruct Hcases as [->|Hcases]; [eexists; split; reflexivity|]).
  subst d; eexists; split; reflexivity.
Qed.

(** X15. Whenever [uci_to_move] accepts a string, [move_to_uci] of the
    move gives back its first four characters: the two notations agree,
    and anything after the fourth character (a promotion letter) is
    dropped. *)
Theorem parsed_move_prints_back (move_str : string) (mv : move) :
  uci_to_move move_str = Some mv ->
  move_to_uci (Some mv) = Some (substring 0 4 move_str).
Proof.
  unfold uci_to_move.
  destruct move_str as [|c0 [|c1 [|c2 [|c3 rest]]]]; cbn [get]; try discriminate.
  destruct (int_of_char c1) as [d1|] eqn:E1; [|discriminate].
  destruct (int_of_char c3) as [d3|] eqn:E3; [|discriminate].
  intros E.
  assert (Emv : mv = ((8 - d1, ord c0 - ord "a"), (8 - d3, ord c2 - ord "a")))
    by congruence.
  subst mv; clear E; unfold move_to_uci; cbv beta iota delta [fst snd].
  replace (ord c0 - ord "a" + ord "a") with (ord c0) by lia.
  replace (ord c2 - ord "a" + ord "a") with (ord c2) by lia.
  rewrite !chr_ord.
  replace (8 - (8 - d1)) with d1 by lia.
  replace (8 - (8 - d3)) with d3 by lia.
  rewrite (str_of_digit_char _ _ E1), (str_of_digit_char _ _ E3).
  cbn [append substring]; destruct rest; reflexivity.
Qed.

Lemma parsed_move_prints_back_witness :
  uci_to_move "e7e8q"%string = Some ((1, 4), (0, 4))
  /\ move_to_uci (Some ((1, 4), (0, 4))) = Some "e7e8"%string.
Proof.
  split; [reflexivity|].
  exact (parsed_move_prints_back "e7e8q"%string ((1, 4), (0, 4)) eq_refl).
Defined.

(** X16. A move whose rows lie between -1 and 8 and whose columns lie
    between -97 and 158 is printed by [move_to_uci] as a string that
    [uci_to_move] reads back as the same move; this covers every square
    of the board and the wrapped-around row -1. *)
Theorem printed_move_parses_back (mv : move) :
  -1 <= fst (fst mv) <= 8 -> -1 <= fst (snd mv) <= 8 ->
  -97 <= snd (fst mv) <= 158 -> -97 <= snd (snd mv) <= 158 ->
  exists move_str,
    move_to_uci (Some mv) = Some move_str
    /\ uci_to_move move_str = Some mv.
Proof.
  destruct mv as [[r1 c1] [r2 c2]]; cbn [fst snd]; intros Hr1 Hr2 Hc1 Hc2.
  unfold move_to_uci; cbn [fst snd].
  destruct (chr (c1 + ord "a")) as [f|] eqn:Ef.
  2:{ unfold chr in Ef; change (ord "a") with 97 in Ef.
      replace (0 <=? c1 + 97) with true in Ef by (symmetry; apply Z.leb_le; lia).
      replace (c1 + 97 <? 256) with true in Ef by (symmetry; apply Z.ltb_lt; lia).
      discriminate. }
  destruct (chr (c2 + ord "a")) as [t|] eqn:Et.
  2:{ unfold chr in Et; change (ord "a") with 97 in Et.
      replace (0 <=? c2 + 97) with true in Et by (symmetry; apply Z.leb_le; lia).
      replace (c2 + 97 <? 256) with true in Et by (symmetry; apply Z.ltb_lt; lia).
      discriminate. }
  destruct (digit_char_of_int (8 - r1)) as (a1 & Es1 & Ei1); [lia|].
  destruct (digit_char_of_int (8 - r2)) as (a2 & Es2 & Ei2); [lia|].
  rewrite Es1, Es2; cbn [append].
  eexists; split; [reflexivity|].
  unfold uci_to_move; cbn [get]; rewrite Ei1, Ei2.
  rewrite (ord_chr _ _ Ef), (ord_chr _ _ Et).
  repeat f_equal; lia.
Qed.

Lemma printed_move_parses_back_witness :
  exists move_str,
    move_to_uci (Some ((0, 0), (-1, 0))) = Some move_str
    /\ uci_to_move move_str = Some ((0, 0), (-1, 0)).
Proof.
  apply (printed_move_parses_back ((0, 0), (-1, 0))); cbn; lia.
Defined.

(** ** [go] *)

Lemma get_best_move_spec (depth : nat) (e e' : ChessEngine.engine)
      (best : option move) :
  get_best_move depth e = Some (best, e') ->
  e' = e /\ forall mv, best = Some mv -> pawn_push e mv.
Proof.
  unfold get_best_move, ChessEngine.bind, ChessEngine.ret.
  destruct (alpha_beta depth Score.NegInf Score.PosInf true e)
    as [[[v bm] e1]|] eqn:Eab; [|discriminate].
  cbn [snd]; intros [= <- <-].
  split; [exact (alpha_beta_restores _ _ _ _ _ _ _ Eab)|].
  intros mv ->.
  destruct (alpha_beta_best_move _ _ _ _ _ _ _ _ Eab) as (moves & _ & _ & Hp).
  exact Hp.
Qed.

Lemma handle_go_spec (command : string) (u : uci) :
  (generate_legal_moves (engine u) = Some [] -> handle_go command u = None)
  /\ (forall u', handle_go command u = Some (tt, u') ->
        engine u' = engine u
        /\ running u' = running u
        /\ exists mv move_str,
            pawn_push (engine u) mv
            /\ move_to_uci (Some mv) = Some move_str
            /\ sent u' = sent u ++ [append (append "bestmove " move_str)
                                           (String "010" EmptyString)]).
Proof.
  unfold handle_go, on_engine; split.
  - intros Hnone.
    now rewrite (get_best_move_no_moves 8 _ Hnone).
  - intros u'.
    destruct (get_best_move 8 (engine u)) as [[best e1]|] eqn:Eg; [|discriminate].
    destruct (get_best_move_spec _ _ _ _ Eg) as [-> Hbest].
    destruct (move_to_uci best) as [move_str|] eqn:Em; [|discriminate].
    destruct best as [mv|]; [|discriminate].
    unfold send; cbn [engine running sent]; intros [= <-]; cbn [engine running sent].
    split; [reflexivity|split; [reflexivity|]].
    exists mv, move_str; auto.
Qed.



(** ** [position] *)

Lemma replay_spec (moves : list string) : forall e e' u,
  replay moves e = Some (u, e') ->
  shape (board e') = shape (board e)
  /\ white_to_move e'
     = if Nat.even (List.length moves) then white_to_move e
       else negb (white_to_move e).
Proof.
  induction moves as [|m rest IH]; intros e e' u; cbn [replay].
  - unfold ChessEngine.ret; intros [= _ <-]; split; reflexivity.
  - destruct (uci_to_move m) as [mv|]; [|discriminate].
    destruct (make_move mv e) as [[[] e1]|] eqn:Em; [|discriminate].
    intros Er; destruct (IH _ _ _ Er) as [Hs Ht].
    destruct (cell_after_make_move _ _ _ _ Em)
      as (? & ? & ? & ? & ? & _ & _ & _ & Hturn & _).
    split; [rewrite Hs; eapply make_move_shape; eauto|].
    rewrite Ht, Hturn.
    change (List.length (m :: rest)) with (S (List.length rest)).
    rewrite Nat.even_succ, <- Nat.negb_even.
    destruct (Nat.even (List.length rest)); [reflexivity|apply negb_involutive].
Qed.

Lemma handle_position_spec (command : string) (u u' : uci) :
  handle_position command u = Some (tt, u') ->
  running u' = running u /\ sent u' = sent u
  /\ let parts := split_space command in
     if existsb (String.eqb "startpos") parts
     then replay (after_moves parts) ChessEngine.init = Some (tt, engine u')
          /\ standard_shape (board (engine u'))
          /\ white_to_move (engine u') = Nat.even (List.length (after_moves parts))
     else engine u' = engine u.
Proof.
  unfold handle_position; cbv zeta.
  destruct (existsb (String.eqb "startpos") (split_space command)).
  - unfold on_engine; cbn [engine running sent].
    destruct (replay (after_moves (split_space command)) ChessEngine.init)
      as [[[] e1]|] eqn:Er; [|discriminate].
    intros [= <-]; cbn [engine running sent].
    destruct (replay_spec _ _ _ _ Er) as [Hs Ht].
    split; [reflexivity|split; [reflexivity|split; [reflexivity|split]]].
    + apply standard_shape_spec; rewrite Hs; reflexivity.
    + rewrite Ht; cbn [white_to_move ChessEngine.init].
      destruct (Nat.even (List.length (after_moves (split_space command)))); reflexivity.
  - intros [= <-]; auto.
Qed.

(** X18. A [position] command that returns leaves the output and the
    running flag alone.  Without the word [startpos] it changes nothing
    at all; with it, the engine holds the start position after the moves
    that follow the word [moves], the board is 8x8, and White is to move
    exactly when the number of those moves is even. *)
Theorem position_command_effect (command : string) (u u' : uci) :
  handle_position command u = Some (tt, u') ->
  running u' = running u /\ sent u' = sent u
  /\ let parts := split_space command in
     if existsb (String.eqb "startpos") parts
     then replay (after_moves parts) ChessEngine.init = Some (tt, engine u')
          /\ standard_shape (board (engine u'))
          /\ white_to_move (engine u') = Nat.even (List.length (after_moves parts))
     else engine u' = engine u.
Proof. apply handle_position_spec. Qed.

Lemma position_command_effect_witness :
  exists u',
    handle_position "position startpos moves e2e4 e7e5 g1f3" init = Some (tt, u')
    /\ standard_shape (board (engine u'))
    /\ white_to_move (engine u') = false.
Proof.
  destruct (handle_position "position startpos moves e2e4 e7e5 g1f3" init)
    as [[[] u1]|] eqn:E; [|vm_compute in E; discriminate].
  exists u1; split; [reflexivity|].
  destruct (position_command_effect _ _ _ E) as (_ & _ & Hpos).
  change (existsb (String.eqb "startpos")
                  (split_space "position startpos moves e2e4 e7e5 g1f3"))
    with true in Hpos; cbv zeta iota in Hpos.
  destruct Hpos as (_ & Hstd & Hturn); split; [exact Hstd|exact Hturn].
Defined.

(** ** Commands and the main loop *)

Lemma process_command_spec (command : string) (u u' : uci) :
  process_command command u = Some (tt, u') ->
  running u' = (if String.eqb command "quit" then false else running u)
  /\ (prefix "position" command = false -> engine u' = engine u)
  /\ (exists out, sent u' = sent u ++ out)
  /\ (standard_shape (board (engine u)) -> standard_shape (board (engine u'))).
Proof.
  unfold process_command.
  destruct (String.eqb_spec command "uci") as [->|_].
  { unfold send; cbn [engine running sent]; intros [= <-]; cbn [engine running sent].
    split; [reflexivity|split; [reflexivity|split; [|trivial]]].
    rewrite <- !app_assoc; eauto. }
  destruct (prefix "position" command) eqn:Epos.
  { intros E; destruct (handle_position_spec _ _ _ E) as (Hr & Hs & Hpos).
    cbv zeta in Hpos.
    destruct (String.eqb_spec command "quit") as [->|_]; [discriminate|].
    split; [exact Hr|split; [discriminate|split]].
    - exists []; now rewrite app_nil_r.
    - destruct (existsb (String.eqb "startpos") (split_space command)).
      + now destruct Hpos as (_ & Hstd & _).
      + now rewrite Hpos. }
  destruct (prefix "go" command) eqn:Ego.
  { intros E; destruct (proj2 (handle_go_spec command u) u' E)
      as (He & Hr & mv & move_str & _ & _ & Hs).
    destruct (String.eqb_spec command "quit") as [->|_]; [discriminate|].
    rewrite He; split; [exact Hr|split; [reflexivity|split; [eauto|trivial]]]. }
  destruct (String.eqb_spec command "quit") as [->|_].
  { intros [= <-]; cbn [engine running sent].
    split; [reflexivity|split; [reflexivity|split; [|trivial]]].
    exists []; now rewrite app_nil_r. }
  destruct (String.eqb command "isready").
  { unfold send; intros [= <-]; cbn [engine running sent].
    split; [reflexivity|split; [reflexivity|split; [eauto|trivial]]]. }
  destruct (String.eqb command "ucinewgame"); intros [= <-];
    (split; [reflexivity|split; [reflexivity|split; [|trivial]]]);
    exists []; now rewrite app_nil_r.
Qed.

(** X19. A command that returns keeps everything written before it,
    clears the running flag only if it is [quit], changes the position
    only if it starts with [position], and keeps an 8x8 board 8x8. *)
Theorem command_frame (command : string) (u u' : uci) :
  process_command command u = Some (tt, u') ->
  running u' = (if String.eqb command "quit" then false else running u)
  /\ (prefix "position" command = false -> engine u' = engine u)
  /\ (exists out, sent u' = sent u ++ out)
  /\ (standard_shape (board (engine u)) -> standard_shape (board (engine u'))).
Proof. apply process_command_spec. Qed.

Lemma command_frame_witness :
  exists u',
    process_command "isready" init = Some (tt, u')
    /\ running u' = true
    /\ engine u' = engine init
    /\ exists out, sent u' = sent init ++ out.
Proof.
  destruct (process_command "isready" init) as [[[] u1]|] eqn:E;
    [|vm_compute in E; discriminate].
  exists u1; split; [reflexivity|].
  destruct (command_frame _ _ _ E) as (Hr & He & Hs & _).
  split; [exact Hr|split; [exact (He eq_refl)|exact Hs]].
Defined.

Lemma run_stops (lines : list string) (u : uci) :
  running u = false -> run lines u = Some (tt, u).
Proof. intros Hr; destruct lines; cbn [run]; now rewrite Hr. Qed.

Lemma run_after_quit (line : string) (rest : list string) (u : uci) :
  strip line = "quit"%string ->
  run (line :: rest) u = run [line] u.
Proof.
  intros Hq; cbn [run]; rewrite Hq.
  destruct (running u); [|reflexivity].
  change (process_command "quit" u)
    with (Some (tt, {| engine := engine u; running := false; sent := sent u |})).
  cbv beta iota; now rewrite run_stops.
Qed.

(** X20. The main loop reads nothing after a [quit] line: the lines
    that follow it make no difference to the outcome. *)
Theorem run_stops_at_quit (before after : list string) (line : string) (u : uci) :
  strip line = "quit"%string ->
  run (before ++ line :: after) u = run (before ++ [line]) u.
Proof.
  intros Hq; revert u; induction before as [|l rest IH]; intros u.
  - now apply run_after_quit.
  - cbn [app run].
    destruct (running u); [|reflexivity].
    destruct (process_command (strip l) u) as [[[] u1]|]; [apply IH|reflexivity].
Qed.

Lemma run_stops_at_quit_witness :
  strip "  quit "%string = "quit"%string
  /\ run (["isready"%string; "position startpos moves e2e4"%string]
          ++ "  quit "%string :: ["go"%string; "uci"%string]) init
     = run (["isready"%string; "position startpos moves e2e4"%string]
            ++ ["  quit "%string]) init.
Proof.
  split; [reflexivity|].
  exact (run_stops_at_quit ["isready"; "position startpos moves e2e4"]%string
                           ["go"; "uci"]%string "  quit "%string init eq_refl).
Defined.

(** X21. Started with the running flag set, the main loop never returns
    unless some line is [quit] once stripped: it ends in an exception,
    [EOFError] at the latest. *)
Theorem run_needs_quit (lines : list string) (u : uci) :
  running u = true ->
  Forall (fun line => strip line <> "quit"%string) lines ->
  run lines u = None.
Proof.
  intros Hr Hlines; revert u Hr; induction Hlines as [|l rest Hl _ IH]; intros u Hr.
  - cbn [run]; now rewrite Hr.
  - cbn [run]; rewrite Hr.
    destruct (process_command (strip l) u) as [[[] u1]|] eqn:E; [|reflexivity].
    apply IH.
    destruct (process_command_spec _ _ _ E) as (Hr1 & _).
    rewrite Hr1, Hr.
    destruct (String.eqb_spec (strip l) "quit"); [contradiction|reflexivity].
Qed.

Lemma run_needs_quit_witness :
  running init = true
  /\ Forall (fun line => strip line <> "quit"%string) ["uci"; "isready"]%string
  /\ run ["uci"; "isready"]%string init = None.
Proof.
  assert (Hlines : Forall (fun line => strip line <> "quit"%string)
                          ["uci"; "isready"]%string)
    by (repeat constructor; vm_compute; discriminate).
  split; [reflexivity|split; [exact Hlines|]].
  exact (run_needs_quit _ init eq_refl Hlines).
Defined.

(** ** A pawn on the last row *)

(** C10. What the code does where the claim fails: [generate_piece_moves]
    computes the square ahead as [r + step] without a bound on the row.
    After the game [promotion_game] a white pawn stands on g8 (row 0)
    and g1 is empty; with White to move the first generated move is
    from row 0 to row index [-1], which is no pawn push between squares
    of the board; [make_move] reads the index as the last row and puts
    the pawn on g1, and the engine answers [go] with [bestmove g8g9]. *)
Theorem promoted_pawn_leaves_the_board :
  exists u e',
    handle_position promotion_game UCIEngine.init = Some (tt, u)
    /\ white_to_move (engine u) = true
    /\ cell (board (engine u)) 0 6 = Some "P"%char
    /\ generate_legal_moves (engine u)
       = Some [ ((0, 6), (-1, 6));
                ((6, 1), (5, 1)); ((6, 1), (4, 1)); ((6, 2), (5, 2)); ((6, 2), (4, 2));
                ((6, 3), (5, 3)); ((6, 3), (4, 3)); ((6, 4), (5, 4)); ((6, 4), (4, 4));
                ((6, 6), (5, 6)); ((6, 6), (4, 6)) ]
    /\ ~ board_pawn_push (engine u) ((0, 6), (-1, 6))
    /\ make_move ((0, 6), (-1, 6)) (engine u) = Some (tt, e')
    /\ cell (board e') 0 6 = Some empty_sq
    /\ cell (board e') 7 6 = Some "P"%char
    /\ option_map (fun r => sent (snd r))
                  (run [promotion_game; "go"; "quit"]%string UCIEngine.init)
       = Some [append "bestmove g8g9" (String "010" EmptyString)].
Proof.
  eexists; eexists.
  split; [vm_compute; reflexivity|].
  split; [vm_compute; reflexivity|].
  split; [vm_compute; reflexivity|].
  split; [vm_compute; reflexivity|].
  split; [intros (_ & _ & [Hrow _]); cbn [fst snd] in Hrow; lia|].
  split; [vm_compute; reflexivity|].
  split; [vm_compute; reflexivity|].
  split; [vm_compute; reflexivity|].
  vm_compute; reflexivity.
Qed.

End UCIFacts.


(* ================================================================== *)
(** * The added properties on concrete positions                       *)
(* ================================================================== *)

Module MoreExamples.
Import String.
Import ChessEngine AiymaChessZero.

(** After [position startpos moves a1a3 h7h6 a2a8 h6h5] the white
    a-pawn stands on row 0 above an empty a1: the generator offers the
    move to row -1, which lands on a1. *)
Lemma white_pawn_wraps_around_witness :
  exists e moves e',
    UCIEngine.replay ["a1a3"; "h7h6"; "a2a8"; "h6h5"]%string ChessEngine.init
    = Some (tt, e)
    /\ generate_legal_moves e = Some moves
    /\ In ((0, 0), (-1, 0)) moves
    /\ make_move ((0, 0), (-1, 0)) e = Some (tt, e')
    /\ cell (board e') 7 0 = Some "P"%char
    /\ cell (board e') 0 0 = Some empty_sq.
Proof.
  destruct (UCIEngine.replay ["a1a3"; "h7h6"; "a2a8"; "h6h5"]%string ChessEngine.init)
    as [[[] e]|] eqn:E; [|vm_compute in E; discriminate].
  assert (He : standard_shape (board e) /\ white_to_move e = true
               /\ cell (board e) 0 (Z.of_nat 0) = Some "P"%char
               /\ cell (board e) 7 (Z.of_nat 0) = Some empty_sq).
  { revert E; vm_compute; intros [= <-].
    split; [split; [reflexivity|repeat constructor]|].
    split; [reflexivity|split; reflexivity]. }
  destruct He as (Hstd & Hturn & Hpawn & Hempty).
  destruct (ChessEngineMore.white_pawn_wraps_around e 0 Hstd Hturn
              ltac:(repeat constructor) Hpawn Hempty)
    as (moves & e' & Hg & Hin & Hm & H7 & H0).
  exists e, moves, e'; auto 10.
Defined.

(** A white knight on c3 and a black queen on d8: -570 with White to
    move, 570 with Black to move. *)
Lemma evaluate_board_flips_with_turn_witness :
  @evaluate_board Diagram.rules Diagram.knight_and_queen = Fin (-570)
  /\ exists z,
      @evaluate_board Diagram.rules Diagram.knight_and_queen = Fin z
      /\ @evaluate_board Diagram.rules (Diagram.pass Diagram.knight_and_queen)
         = Fin (- z).
Proof.
  split; [vm_compute; reflexivity|].
  apply (@AiymaMore.evaluate_board_flips_with_turn Diagram.rules);
    try reflexivity.
Defined.

(** The entry the search of [root] leaves for [x] survives a later
    search of [b]. *)
Lemma minimax_only_adds_entries_witness :
  exists t1,
    snd (snd (@minimax Toy.rules 3 NegInf PosInf true
                       (Toy.at_node Toy.root, []))) = t1
    /\ lookup t1 (@fen Toy.rules (Toy.at_node Toy.x), 1%nat) = Some (Fin 900)
    /\ lookup (snd (snd (@minimax Toy.rules 2 NegInf PosInf false
                                  (Toy.at_node Toy.b, t1))))
              (@fen Toy.rules (Toy.at_node Toy.x), 1%nat) = Some (Fin 900).
Proof.
  eexists; split; [vm_compute; reflexivity|].
  match goal with |- lookup ?t ?k = Some ?v /\ _ =>
    assert (H : lookup t k = Some v) by (vm_compute; reflexivity);
    split; [exact H|];
    exact (@AiymaMore.minimax_only_adds_entries Toy.rules 2 NegInf PosInf false
             (Toy.at_node Toy.b, t) k v H)
  end.
Defined.

(** A second search of [root], minimizing and with an empty window,
    still returns the first answer. *)
Lemma minimax_repeats_its_first_answer_witness :
  @pop_undoes_push Toy.rules
  /\ @minimax Toy.rules 3 PosInf NegInf false
       (snd (@minimax Toy.rules 3 NegInf PosInf true (Toy.at_node Toy.root, [])))
     = @minimax Toy.rules 3 NegInf PosInf true (Toy.at_node Toy.root, []).
Proof.
  split; [exact ToyFacts.toy_pop_undoes_push|].
  exact (@AiymaMore.minimax_repeats_its_first_answer Toy.rules
           3 NegInf PosInf true PosInf NegInf false (Toy.at_node Toy.root) []
           ToyFacts.toy_pop_undoes_push).
Defined.

Lemma dispatcher_returns_a_legal_move_witness :
  0 < 4
  /\ exists best s',
      @get_best_move Toy.rules 3 4 [false; true] (Toy.at_node Toy.p, [])
      = Some ((best, 2%nat), s')
      /\ forall mv, best = Some mv -> In mv [Toy.c; Toy.b].
Proof.
  split; [reflexivity|].
  exact (@AiymaMore.dispatcher_returns_a_legal_move Toy.rules 3 4 [false; true]
           (Toy.at_node Toy.p, []) eq_refl).
Defined.

Lemma dispatcher_restores_the_board_witness :
  exists r b' t',
    @get_best_move Toy.rules 3 4 [true; false] (Toy.at_node Toy.p, [])
    = Some (r, (b', t'))
    /\ b' = Toy.at_node Toy.p
    /\ extends [] t'.
Proof.
  destruct (@get_best_move Toy.rules 3 4 [true; false] (Toy.at_node Toy.p, []))
    as [[r [b' t']]|] eqn:E; [|vm_compute in E; discriminate].
  exists r, b', t'; split; [reflexivity|].
  exact (@AiymaMore.dispatcher_restores_the_board Toy.rules 3 4 [true; false]
           (Toy.at_node Toy.p) [] r b' t' ToyFacts.toy_pop_undoes_push E).
Defined.

End MoreExamples.
